(** * HyperSeek: retrieval and ranking core, embedded in Rocq

    A shallow embedding of the pure parts of the search services
    (text processing, query fingerprinting, BM25 inverse document
    frequency, reciprocal rank fusion, chunking, the autocomplete trie,
    the vector indexer and the recursive RAG controller; the inverted
    index, semantic search, the retrieval and the follow-up queries of
    RAG, and the cache of the search endpoint), followed by the
    properties established about them.

    Conventions.
    - A Python [str] is a [string]: the development covers the ASCII
      range, where [str.lower], [str.isspace] and the regular expression
      classes used by the services have the byte-level meaning written
      out in [Py].
    - A Python [float] is a real number ([R]) or a rational ([Q]): the
      arithmetic is the exact one, rounding is not modelled.
    - Calls that leave the process (stemmer, stop word list, digest,
      embedding model, language model, database) are parameters of the
      definitions that use them. So are two library functions whose
      behaviour beyond ASCII or beyond literal text matters where they
      are used: [str.lower] in the snippet code, which compares positions
      in the lowered text with the length of the text itself, and the
      compiler of replacement templates of [re], which [pattern.sub]
      calls for a replacement that holds a backslash. *)

From Stdlib Require Import ZArith QArith Reals Lra Lia.
From Stdlib Require Lqa.
From Stdlib Require Import Ascii String.
From stdpp Require Import base tactics option list sorting gmap strings.

#[local] Arguments String.append !s1 s2 /.

(* ===================================================================== *)
(** * Part I: the model                                                   *)
(* ===================================================================== *)

(** ** Python primitives: strings on the ASCII range, lists, slices *)
Module Py.
Local Open Scope string_scope.

Definition code (c : ascii) : nat := nat_of_ascii c.

Definition between (lo hi : nat) (c : ascii) : bool :=
  (lo <=? code c)%nat && (code c <=? hi)%nat.

Definition is_upper : ascii -> bool := between 65 90.
Definition is_lower : ascii -> bool := between 97 122.
Definition is_digit : ascii -> bool := between 48 57.

(** The class [[a-zA-Z0-9]]. *)
Definition is_alnum (c : ascii) : bool :=
  is_lower c || is_upper c || is_digit c.

(** [str.isspace] and the class [\s]: TAB..CR, FS..US and the blank. *)
Definition is_space (c : ascii) : bool :=
  between 9 13 c || between 28 32 c.

Definition lower_char (c : ascii) : ascii :=
  if is_upper c then ascii_of_nat (code c + 32) else c.

(** [s.lower()] *)
Fixpoint lower (s : string) : string :=
  match s with
  | EmptyString => EmptyString
  | String c r => String (lower_char c) (lower r)
  end.

Definition is_empty (s : string) : bool :=
  match s with EmptyString => true | _ => false end.

Definition flush (cur : string) : list string :=
  if is_empty cur then [] else [cur].

(** The maximal runs of characters satisfying [p], left to right;
    [cur] is the run being read. *)
Fixpoint runs (p : ascii -> bool) (cur : string) (s : string) : list string :=
  match s with
  | EmptyString => flush cur
  | String c r =>
      if p c then runs p (cur ++ String c EmptyString) r
      else flush cur ++ runs p EmptyString r
  end.

(** [re.compile(r"[a-zA-Z0-9]+").findall(s)] *)
Definition findall_alnum (s : string) : list string :=
  runs is_alnum EmptyString s.

(** [s.split()] *)
Definition split (s : string) : list string :=
  runs (fun c => negb (is_space c)) EmptyString s.

(** [sep.join(l)] *)
Fixpoint join (sep : string) (l : list string) : string :=
  match l with
  | [] => EmptyString
  | [x] => x
  | x :: r => x ++ sep ++ join sep r
  end.

Fixpoint lstrip (s : string) : string :=
  match s with
  | EmptyString => EmptyString
  | String c r => if is_space c then lstrip r else s
  end.

Fixpoint rstrip (s : string) : string :=
  match s with
  | EmptyString => EmptyString
  | String c r =>
      let r' := rstrip r in
      if is_empty r' && is_space c then EmptyString else String c r'
  end.

(** [s.strip()] *)
Definition strip (s : string) : string := rstrip (lstrip s).

(** [re.sub(r"\s+", " ", s)]; [in_ws] tells whether the previous
    character belonged to the whitespace run being replaced. *)
Fixpoint collapse_ws (in_ws : bool) (s : string) : string :=
  match s with
  | EmptyString => EmptyString
  | String c r =>
      if is_space c
      then (if in_ws then collapse_ws true r
            else String " "%char (collapse_ws true r))
      else String c (collapse_ws false r)
  end.

(** [enumerate(l, start)] *)
Fixpoint enumerate {A} (start : nat) (l : list A) : list (nat * A) :=
  match l with
  | [] => []
  | x :: r => (start, x) :: enumerate (S start) r
  end.

(** Index normalisation of a slice bound, as [PySlice_AdjustIndices]
    does for step 1: negative bounds count from the end, and the result
    is clamped to [0..len]. *)
Definition clamp_index (len i : Z) : Z :=
  if (i <? 0)%Z then Z.max 0 (i + len) else Z.min i len.

(** [l[start:stop]] *)
Definition slice {A} (l : list A) (start stop : Z) : list A :=
  let len := Z.of_nat (length l) in
  let lo := clamp_index len start in
  let hi := clamp_index len stop in
  take (Z.to_nat (hi - lo)) (drop (Z.to_nat lo) l).

(** [l[:stop]] *)
Definition slice_to {A} (l : list A) (stop : Z) : list A := slice l 0 stop.

(** [sorted(l, key=...)] and [l.sort(key=...)]: the sort is stable, so
    it is the stable insertion sort for the order [le] that the key
    induces ([le x y]: [x] may stand before [y]). *)
Fixpoint insert_by {A} (le : A -> A -> bool) (x : A) (l : list A) : list A :=
  match l with
  | [] => [x]
  | y :: r => if le x y then x :: y :: r else y :: insert_by le x r
  end.

Definition sorted_by {A} (le : A -> A -> bool) (l : list A) : list A :=
  foldr (insert_by le) [] l.

(** Every character of [s] is in the class [p]. *)
Fixpoint all_chars (p : ascii -> bool) (s : string) : bool :=
  match s with
  | EmptyString => true
  | String c r => p c && all_chars p r
  end.

(** A word for the class [p]: not empty, all characters in [p]. *)
Definition word_of (p : ascii -> bool) (w : string) : Prop :=
  w <> EmptyString /\ all_chars p w = true.

(** The outcome of a call that may raise. *)
Inductive outcome (A : Type) : Type :=
| Returned (a : A)
| Raised (msg : string).
Arguments Returned {A} a.
Arguments Raised {A} msg.

(** [s.startswith(sub)] *)
Fixpoint startswith (sub s : string) : bool :=
  match sub, s with
  | EmptyString, _ => true
  | String a sub', String c s' => Ascii.eqb a c && startswith sub' s'
  | String _ _, EmptyString => false
  end.

(** [s.find(sub)]: the least index at which [sub] occurs in [s], or [-1];
    [i] is the index of the head of [s] in the whole string. *)
Fixpoint find_from (sub s : string) (i : Z) : Z :=
  if startswith sub s then i
  else match s with
       | EmptyString => (-1)%Z
       | String _ r => find_from sub r (i + 1)
       end.

Definition find (s sub : string) : Z := find_from sub s 0.

(** [len(s)] of a string. *)
Definition str_len (s : string) : Z := Z.of_nat (String.length s).

(** [s[start:stop]] of a string. *)
Definition substr (s : string) (start stop : Z) : string :=
  string_of_list_ascii (slice (list_ascii_of_string s) start stop).

(** A [dict] with [str] keys: the items in insertion order. [d.get(k)]
    and [d[k] = v], which keeps the place of an existing key and puts a
    new key last. *)
Fixpoint dict_get {V} (k : string) (d : list (string * V)) : option V :=
  match d with
  | [] => None
  | (k', v) :: r => if decide (k' = k) then Some v else dict_get k r
  end.

Fixpoint dict_set {V} (k : string) (v : V) (d : list (string * V))
    : list (string * V) :=
  match d with
  | [] => [(k, v)]
  | (k', v') :: r =>
      if decide (k' = k) then (k', v) :: r else (k', v') :: dict_set k v r
  end.

End Py.

(** ** app/services/indexer/text_processor.py *)
Module TextProcessor.
Import Py.

Definition MIN_TOKEN_LENGTH : nat := 2.
Definition MAX_TOKEN_LENGTH : nat := 50.

(** [TextProcessor.tokenize] *)
Definition tokenize (text : string) : list string :=
  if is_empty text then []
  else
    let text_lower := lower text in
    let tokens := findall_alnum text_lower in
    filter (fun t => MIN_TOKEN_LENGTH <= String.length t <= MAX_TOKEN_LENGTH)
           tokens.

Section Pipeline.
(** The NLTK English stop word set and the Porter stemmer. *)
Variable stops : gset string.
Variable stemmer_stem : string -> string.

(** [TextProcessor.remove_stopwords] *)
Definition remove_stopwords (tokens : list string) : list string :=
  filter (fun t => t ∉ stops) tokens.

(** [TextProcessor.stem] *)
Definition stem (tokens : list string) : list string :=
  map stemmer_stem tokens.

(** [TextProcessor.process] *)
Definition process (text : string) (do_stem : bool) : list string :=
  let tokens := tokenize text in
  let tokens := remove_stopwords tokens in
  if do_stem then stem tokens else tokens.

(** One iteration of the loop of [process_with_positions]:
    [result.append((stemmed, pos))] when the token is kept. *)
Definition positions_step (result : list (string * nat))
    (item : nat * string) : list (string * nat) :=
  let '(pos, token) := item in
  if decide (token ∉ stops)
  then result ++ [(stemmer_stem token, pos)]
  else result.

(** [TextProcessor.process_with_positions] *)
Definition process_with_positions (text : string) : list (string * nat) :=
  let raw_tokens := tokenize text in
  foldl positions_step [] (enumerate 0 raw_tokens).

End Pipeline.
End TextProcessor.

(** ** app/services/search/query_processor.py *)
Module QueryProcessor.
Import Py TextProcessor.

(** The digit of value [d < 16], in lower case as [hexdigest] prints it. *)
Definition digit_char (d : N) : ascii :=
  match d with
  | 0%N => "0" | 1%N => "1" | 2%N => "2" | 3%N => "3" | 4%N => "4"
  | 5%N => "5" | 6%N => "6" | 7%N => "7" | 8%N => "8" | 9%N => "9"
  | 10%N => "a" | 11%N => "b" | 12%N => "c" | 13%N => "d" | 14%N => "e"
  | _ => "f"
  end%char.

(** The value of a digit character, to invert [digit_char]. *)
Definition digit_value (c : ascii) : N :=
  let v := N_of_ascii c in
  if (v <? 58)%N then (v - 48)%N else (v - 87)%N.

(** The [k] lowest digits of [n] in base [base], most significant first,
    put in front of [acc]. *)
Fixpoint render (base : N) (k : nat) (n : N) (acc : string) : string :=
  match k with
  | O => acc
  | S k' =>
      render base k' (n / base)%N (String (digit_char (n mod base)%N) acc)
  end.

(** The bound of an MD5 digest read as a number: 16 bytes. *)
Definition digest_bound : N := (2 ^ 128)%N.

(** [.hexdigest()] of a digest: its 32 hexadecimal digits. *)
Definition hexdigest (digest : N) : string := render 16 32 digest EmptyString.

(** [sorted(set(tokens))]: the set is listed without repetition in some
    order (here the order of first occurrence) and then sorted, strings
    being compared character by character by their codes. *)
Definition sorted_set (tokens : list string) : list string :=
  sorted_by String.leb (remove_dups tokens).

Record ProcessedQuery := mkProcessedQuery {
  original : string;
  cleaned : string;
  tokens : list string;
  raw_tokens : list string;
  cache_key : string
}.

Section ProcessQuery.
Variable stops : gset string.
Variable stemmer_stem : string -> string.
(** [hashlib.md5(data).digest()], read as a big-endian number; [data] is
    the UTF-8 encoding of the string, the string itself on ASCII. *)
Variable md5 : string -> N.

(** [token_str] of [process_query]. *)
Definition token_str (tokens : list string) : string :=
  join " " (sorted_set tokens).

(** [process_query(query)] *)
Definition process_query (query : string) : ProcessedQuery :=
  let cleaned := strip query in
  let cleaned := collapse_ws false cleaned in
  let tokens := process stops stemmer_stem cleaned true in
  let raw_tokens := remove_stopwords stops (tokenize cleaned) in
  let token_str := token_str tokens in
  let cache_key := hexdigest (md5 token_str) in
  mkProcessedQuery query cleaned tokens raw_tokens cache_key.

End ProcessQuery.

(** A query made of one token: the 39 decimal digits of [n]. *)
Definition number_query (n : N) : string := render 10 39 n EmptyString.

End QueryProcessor.

(** ** app/config.py: the defaults the modelled services read *)
Module Settings.
Definition chunk_size : Z := 512.
Definition chunk_overlap : Z := 50.
Definition bm25_k1 : R := (12 / 10)%R.
Definition bm25_b : R := (75 / 100)%R.
Definition rrf_k : Z := 60.
Definition max_search_results : Z := 100.
End Settings.

(** ** app/services/indexer/vector_indexer.py *)
Module VectorIndexer.
Import Py.

Definition len {A} (l : list A) : Z := Z.of_nat (length l).

(** The [while start < len(words)] loop of [chunk_text], run for at most
    [fuel] iterations: [None] when the loop is still running after them. *)
Fixpoint chunk_loop (fuel : nat) (words : list string)
    (chunk_size chunk_overlap : Z) (start : Z) (chunks : list string)
    : option (list string) :=
  match fuel with
  | O => None
  | S fuel' =>
      if (start <? len words)%Z then
        let end_ := Z.min (start + chunk_size) (len words) in
        let chunk := join " " (slice words start end_) in
        chunk_loop fuel' words chunk_size chunk_overlap
                   (start + (chunk_size - chunk_overlap))%Z (chunks ++ [chunk])
      else Some chunks
  end.

(** The chunk the loop emits when it is entered at offset [start]. *)
Definition chunk_at (words : list string) (chunk_size : Z) (start : Z)
    : string :=
  join " " (slice words start (Z.min (start + chunk_size) (len words))).

(** [chunk_text(text, chunk_size, chunk_overlap)] *)
Definition chunk_text (fuel : nat) (text : string)
    (chunk_size chunk_overlap : Z) : option (list string) :=
  if is_empty text then Some []
  else
    let words := split text in
    if (len words <=? chunk_size)%Z then Some [text]
    else chunk_loop fuel words chunk_size chunk_overlap 0 [].

(** [chunk_text(text)]: both sizes default to the settings. The loop is
    given one iteration more than the text has words. *)
Definition chunk_text_default (text : string) : option (list string) :=
  chunk_text (S (length (split text))) text
             Settings.chunk_size Settings.chunk_overlap.

Section Store.
(** An embedding vector, as the model returns it. *)
Variable vector : Type.

(** A row of [documents] (the columns the indexer reads) and a row of
    [document_embeddings]. *)
Record Document := mkDocument {
  doc_id_of : string;
  clean_content : option string
}.

Record DocumentEmbedding := mkDocumentEmbedding {
  document_id : string;
  chunk_index : nat;
  chunk_text_of : string;
  embedding : vector
}.

(** The two tables as the session sees them. *)
Record Db := mkDb {
  documents : list Document;
  document_embeddings : list DocumentEmbedding
}.

(** [generate_embeddings(texts)]: the sentence-transformer call, which
    either returns one vector per text or raises. *)
Variable generate_embeddings : list string -> outcome (list vector).

(** [select(Document).where(Document.id == doc_id)] followed by
    [scalar_one_or_none()] ([id] is the primary key). *)
Definition select_document (doc_id : string) (db : Db) : option Document :=
  List.find (fun d => bool_decide (doc_id_of d = doc_id)) (documents db).

(** [delete(DocumentEmbedding).where(DocumentEmbedding.document_id == doc_id)] *)
Definition delete_embeddings (doc_id : string) (db : Db) : Db :=
  mkDb (documents db)
       (filter (fun e => document_id e <> doc_id) (document_embeddings db)).

(** The insertion loop over [enumerate(zip(chunks, embeddings))]. *)
Definition add_embeddings (doc_id : string)
    (chunks : list string) (embeddings : list vector) (db : Db) : Db :=
  foldl (fun db item =>
           let '(idx, (chunk, emb)) := item in
           mkDb (documents db)
                (document_embeddings db
                   ++ [mkDocumentEmbedding doc_id idx chunk emb]))
        db (enumerate 0 (zip chunks embeddings)).

(** [index_document_vectors(doc_id, db)]: the number of chunks indexed and
    the store after the call; [None] only if chunking did not finish.
    Log records are not part of the model. *)
Definition index_document_vectors (doc_id : string) (db : Db)
    : option (Z * Db) :=
  match select_document doc_id db with
  | None => Some (0%Z, db)
  | Some doc =>
      match clean_content doc with
      | None => Some (0%Z, db)
      | Some content =>
          if is_empty content then Some (0%Z, db)
          else
            match chunk_text_default content with
            | None => None
            | Some chunks =>
                match chunks with
                | [] => Some (0%Z, db)
                | _ =>
                    match generate_embeddings chunks with
                    | Raised _ => Some (0%Z, db)
                    | Returned embeddings =>
                        let db := delete_embeddings doc_id db in
                        let db := add_embeddings doc_id chunks embeddings db in
                        Some (len chunks, db)
                    end
                end
            end
      end
  end.

End Store.
End VectorIndexer.

(** ** app/services/rag/recursive.py *)
Module RecursiveRag.
Import Py.

(** [RetrievedContext] of app/services/rag/retriever.py. *)
Record RetrievedContext := mkRetrievedContext {
  document_id : string;
  chunk_text : string;
  title : string;
  url : string;
  source : string;
  relevance_score : Q
}.

(** An entry of [build_source_list]. *)
Record SourceEntry := mkSourceEntry {
  src_document_id : string;
  src_title : string;
  src_url : string;
  src_source : string;
  src_relevance_score : Q
}.

(** The dictionary [generate_answer] returns. *)
Record Generated := mkGenerated {
  gen_answer : string;
  gen_sources : list SourceEntry;
  gen_model : string
}.

(** The dictionary [recursive_rag] returns. *)
Record RagResult := mkRagResult {
  answer : string;
  sources : list SourceEntry;
  model : string;
  depth_reached : Z;
  queries_executed : list string
}.

Section Controller.
(** What the calls below read and change: the database session and the
    language model behind the Ollama client. *)
Variable World : Type.
(** [retrieve_context(query, db, top_k=...)] *)
Variable retrieve_context :
  string -> Z -> World -> list RetrievedContext * World.
(** [generate_answer(query, contexts)] *)
Variable generate_answer :
  string -> list RetrievedContext -> World -> Generated * World.
(** [generate_follow_up_queries(query, current_answer)] *)
Variable generate_follow_up_queries :
  string -> string -> World -> list string * World.
(** [round(x, ndigits)] *)
Variable round : Q -> Z -> Q.

(** [build_source_list(contexts)] of app/services/rag/generator.py. *)
Definition build_source_list (contexts : list RetrievedContext)
    : list SourceEntry :=
  map (fun ctx =>
         mkSourceEntry (document_id ctx) (title ctx) (url ctx) (source ctx)
                       (round (relevance_score ctx) 4))
      contexts.

(** The local variables of [recursive_rag] that the loop updates. *)
Record Locals := mkLocals {
  all_contexts : list RetrievedContext;
  executed : list string;
  current_answer : string;
  result : Generated;
  depth : Z;
  world : World
}.

(** [for fq in follow_ups]: record the query, retrieve three contexts
    for it, extend [new_contexts]. *)
Definition follow_up_step
    (acc : list string * list RetrievedContext * World) (fq : string)
    : list string * list RetrievedContext * World :=
  let '(executed, new_contexts, w) := acc in
  let '(fq_contexts, w) := retrieve_context fq 3 w in
  (executed ++ [fq], new_contexts ++ fq_contexts, w).

(** [for ctx in new_contexts]: append the contexts of documents not seen. *)
Definition dedup_step
    (acc : list RetrievedContext * gset string) (ctx : RetrievedContext)
    : list RetrievedContext * gset string :=
  let '(all, seen_ids) := acc in
  if decide (document_id ctx ∈ seen_ids) then (all, seen_ids)
  else (all ++ [ctx], seen_ids ∪ {[document_id ctx]}).

(** [all_contexts.sort(key=lambda c: c.relevance_score, reverse=True)] *)
Definition sort_by_relevance (l : list RetrievedContext)
    : list RetrievedContext :=
  sorted_by (fun a b => Qle_bool (relevance_score b) (relevance_score a)) l.

(** The [while depth < max_depth] loop, for at most [fuel] iterations. *)
Fixpoint refine (fuel : nat) (query : string) (max_depth top_k : Z)
    (s : Locals) : option Locals :=
  if (depth s <? max_depth)%Z then
    match fuel with
    | O => None
    | S fuel' =>
        let d := (depth s + 1)%Z in
        let '(follow_ups, w) :=
          generate_follow_up_queries query (current_answer s) (world s) in
        match follow_ups with
        | [] =>
            Some (mkLocals (all_contexts s) (executed s) (current_answer s)
                           (result s) d w)
        | _ =>
            let '(exec, new_contexts, w) :=
              foldl follow_up_step (executed s, [], w) follow_ups in
            match new_contexts with
            | [] =>
                Some (mkLocals (all_contexts s) exec (current_answer s)
                               (result s) d w)
            | _ =>
                let seen_ids : gset string :=
                  list_to_set (map document_id (all_contexts s)) in
                let '(all, _) :=
                  foldl dedup_step (all_contexts s, seen_ids) new_contexts in
                let all := sort_by_relevance all in
                let best_contexts := slice_to all (top_k * 2) in
                let '(res, w) := generate_answer query best_contexts w in
                refine fuel' query max_depth top_k
                       (mkLocals all exec (gen_answer res) res d w)
            end
        end
    end
  else Some s.

(** [recursive_rag(query, db, max_depth, top_k)]: the loop runs at most
    [max_depth] times, which is the fuel it is given. *)
Definition recursive_rag (query : string) (max_depth top_k : Z)
    (w : World) : option (RagResult * World) :=
  let '(contexts, w) := retrieve_context query top_k w in
  let '(res, w) := generate_answer query contexts w in
  let s := mkLocals contexts [query] (gen_answer res) res 0 w in
  match refine (Z.to_nat max_depth) query max_depth top_k s with
  | None => None
  | Some s =>
      Some (mkRagResult (current_answer s)
                        (build_source_list (slice_to (all_contexts s) 10))
                        (gen_model (result s))
                        (depth s)
                        (executed s),
            world s)
  end.

End Controller.
End RecursiveRag.

(** ** app/services/search/hybrid.py *)
Module Hybrid.
Import Py.

(** [BM25Result] and [SemanticResult]: two dataclasses with these same
    fields. *)
Record SearchResult := mkSearchResult {
  document_id : string;
  score : Q;
  title : string;
  url : string;
  source : string;
  snippet : string
}.

(** [for rank, result in enumerate(results, 1): ranks[result.document_id] = rank].
    The loop also fills a map from the id to the result itself, which the
    scores do not read. *)
Definition rank_step (ranks : gmap string nat) (item : nat * SearchResult)
    : gmap string nat :=
  let '(rank, result) := item in <[document_id result := rank]> ranks.

Definition rank_map (results : list SearchResult) : gmap string nat :=
  foldl rank_step ∅ (enumerate 1 results).

(** [1.0 / (k + rank)] *)
Definition reciprocal (k : Z) (rank : nat) : outcome Q :=
  if (k + Z.of_nat rank =? 0)%Z then Raised "ZeroDivisionError"
  else Returned (1 / inject_Z (k + Z.of_nat rank))%Q.

(** [score += 1.0 / (k + ranks[doc_id])] when [doc_id in ranks]. *)
Definition add_reciprocal (k : Z) (ranks : gmap string nat)
    (doc_id : string) (score : Q) : outcome Q :=
  match ranks !! doc_id with
  | None => Returned score
  | Some rank =>
      match reciprocal k rank with
      | Raised msg => Raised msg
      | Returned x => Returned (score + x)%Q
      end
  end.

(** The body of [for doc_id in all_doc_ids]. *)
Definition rrf_score (k : Z) (bm25_ranks semantic_ranks : gmap string nat)
    (doc_id : string) : outcome Q :=
  match add_reciprocal k bm25_ranks doc_id 0%Q with
  | Raised msg => Raised msg
  | Returned score => add_reciprocal k semantic_ranks doc_id score
  end.

Definition rrf_step (k : Z) (bm25_ranks semantic_ranks : gmap string nat)
    (acc : outcome (gmap string Q)) (doc_id : string)
    : outcome (gmap string Q) :=
  match acc with
  | Raised msg => Raised msg
  | Returned rrf_scores =>
      match rrf_score k bm25_ranks semantic_ranks doc_id with
      | Raised msg => Raised msg
      | Returned score => Returned (<[doc_id := score]> rrf_scores)
      end
  end.

(** [rrf_scores] as [hybrid_search] has it before sorting: the loop runs
    over the union of the two key sets, in the order [elements] lists it. *)
Definition rrf_scores (k : Z) (bm25_results semantic_results : list SearchResult)
    : outcome (gmap string Q) :=
  let bm25_ranks := rank_map bm25_results in
  let semantic_ranks := rank_map semantic_results in
  let all_doc_ids : gset string := dom bm25_ranks ∪ dom semantic_ranks in
  foldl (rrf_step k bm25_ranks semantic_ranks) (Returned ∅)
        (elements all_doc_ids).

(** [d] stands at 1-indexed rank [r] of a result list. *)
Definition at_rank (results : list SearchResult) (d : string) (r : nat)
    : Prop :=
  1 <= r /\ (document_id <$> results) !! (r - 1) = Some d.

End Hybrid.

(** ** app/services/autocomplete.py *)
Module Autocomplete.
Import Py.

(** [TrieNode]: [children] is the dictionary from a character to the
    child node, in insertion order. *)
#[local] Unset Elimination Schemes.
Inductive TrieNode : Type :=
| mkTrieNode (children : list (ascii * TrieNode)) (is_end : bool)
             (term : string) (frequency : Z).
#[local] Set Elimination Schemes.

Definition children (n : TrieNode) : list (ascii * TrieNode) :=
  match n with mkTrieNode cs _ _ _ => cs end.
Definition is_end (n : TrieNode) : bool :=
  match n with mkTrieNode _ e _ _ => e end.
Definition term (n : TrieNode) : string :=
  match n with mkTrieNode _ _ t _ => t end.
Definition frequency (n : TrieNode) : Z :=
  match n with mkTrieNode _ _ _ f => f end.

(** [TrieNode()] *)
Definition new_node : TrieNode := mkTrieNode [] false EmptyString 0.

(** [children.get(char)] *)
Fixpoint get_child (c : ascii) (cs : list (ascii * TrieNode))
    : option TrieNode :=
  match cs with
  | [] => None
  | (k, v) :: r => if Ascii.eqb k c then Some v else get_child c r
  end.

(** [children[char] = v]: an existing key keeps its place, a new key
    goes last. *)
Fixpoint set_child (c : ascii) (v : TrieNode) (cs : list (ascii * TrieNode))
    : list (ascii * TrieNode) :=
  match cs with
  | [] => [(c, v)]
  | (k, v0) :: r =>
      if Ascii.eqb k c then (k, v) :: r else (k, v0) :: set_child c v r
  end.

(** The walk of [insert] along [chars], seen from [node]: the node at
    the end of the walk gets [is_end], [term] and [frequency]; the nodes
    on the way are created when missing. *)
Fixpoint insert_at (chars : string) (t : string) (f : Z) (node : TrieNode)
    : TrieNode :=
  match chars with
  | EmptyString => mkTrieNode (children node) true t f
  | String c rest =>
      let child := default new_node (get_child c (children node)) in
      mkTrieNode (set_child c (insert_at rest t f child) (children node))
                 (is_end node) (term node) (frequency node)
  end.

Record AutocompleteTrie := mkAutocompleteTrie {
  root : TrieNode;
  size : Z
}.

(** [AutocompleteTrie()] *)
Definition new_trie : AutocompleteTrie := mkAutocompleteTrie new_node 0.

(** [AutocompleteTrie.insert(term, frequency)] *)
Definition insert (trie : AutocompleteTrie) (t : string) (f : Z)
    : AutocompleteTrie :=
  mkAutocompleteTrie (insert_at (lower t) t f (root trie)) (size trie + 1).

(** The descent of [search_prefix]: [None] where the code returns [[]]. *)
Fixpoint descend (chars : string) (node : TrieNode) : option TrieNode :=
  match chars with
  | EmptyString => Some node
  | String c rest =>
      match get_child c (children node) with
      | None => None
      | Some child => descend rest child
      end
  end.

(** An entry [{"term": ..., "frequency": ...}] of the result. *)
Record Suggestion := mkSuggestion {
  sug_term : string;
  sug_frequency : Z
}.

(** [_dfs]: the node first, then the children in dictionary order. *)
Fixpoint dfs (node : TrieNode) : list Suggestion :=
  match node with
  | mkTrieNode cs e t f =>
      (if e then [mkSuggestion t f] else [])
      ++ flat_map (fun p => dfs (snd p)) cs
  end.

(** The order of the keys [(-x["frequency"], x["term"])]. *)
Definition key_le (x y : Suggestion) : bool :=
  (sug_frequency y <? sug_frequency x)%Z
  || ((sug_frequency x =? sug_frequency y)%Z
      && String.leb (sug_term x) (sug_term y)).

(** [AutocompleteTrie.search_prefix(prefix, limit)] *)
Definition search_prefix (trie : AutocompleteTrie) (prefix : string)
    (limit : Z) : list Suggestion :=
  match descend (lower prefix) (root trie) with
  | None => []
  | Some node => slice_to (sorted_by key_le (dfs node)) limit
  end.

(** The trie after a sequence of [insert] calls on a new trie. *)
Definition build (inserts : list (string * Z)) : AutocompleteTrie :=
  foldl (fun trie item => insert trie (fst item) (snd item)) new_trie inserts.

(** [x] may stand before [y]: higher frequency first, equal frequencies
    in ascending order of the terms. *)
Definition stands_before (x y : Suggestion) : Prop :=
  (sug_frequency y < sug_frequency x)%Z
  \/ (sug_frequency x = sug_frequency y
      /\ String.le (sug_term x) (sug_term y)).

(** Every terminal node below [node], which stands at [path], carries a
    term whose lower case spells the path to it. *)
Fixpoint well_keyed (path : string) (node : TrieNode) : Prop :=
  match node with
  | mkTrieNode cs e t f =>
      (e = true -> lower t = path)
      /\ fold_right and True
           (map (fun p => well_keyed (path ++ String (fst p) EmptyString)%string
                                     (snd p)) cs)
  end.

(** Induction on a node, with the property available for all children. *)
Fixpoint TrieNode_children_ind (P : TrieNode -> Prop)
    (step : forall cs e t f,
        Forall (fun p => P (snd p)) cs -> P (mkTrieNode cs e t f))
    (n : TrieNode) : P n :=
  match n with
  | mkTrieNode cs e t f =>
      step cs e t f
        ((fix all (l : list (ascii * TrieNode))
            : Forall (fun p => P (snd p)) l :=
            match l with
            | [] => @List.Forall_nil _ (fun p => P (snd p))
            | p :: r =>
                @List.Forall_cons _ (fun p => P (snd p)) p r
                  (TrieNode_children_ind P step (snd p)) (all r)
            end) cs)
  end.

End Autocomplete.

(** ** app/services/search/bm25.py *)
Module BM25.
Import Py.

(** Rows of [inverted_index], [document_stats] and the singleton of
    [collection_stats]. *)
Record Posting := mkPosting {
  term : string;
  document_id : string;
  term_frequency : Z
}.

Record DocumentStats := mkDocumentStats {
  stats_document_id : string;
  total_terms : Z
}.

Record CollectionStats := mkCollectionStats {
  total_documents : Z;
  avg_document_length : R
}.

#[export] Instance Rlt_decision (x y : R) : Decision (x < y)%R := Rlt_dec x y.

(** The grouped count of [inverted_index] rows per query term. *)
Definition df_step (query_terms : list string) (counts : gmap string Z)
    (row : Posting) : gmap string Z :=
  if decide (term row ∈ query_terms)
  then <[term row := (default 0 (counts !! term row) + 1)%Z]> counts
  else counts.

Definition doc_frequencies (index : list Posting) (query_terms : list string)
    : gmap string Z :=
  foldl (df_step query_terms) ∅ index.

(** The number of [inverted_index] rows of a term; [(term, document_id)]
    is unique, so this is the number of documents that contain it. *)
Definition document_frequency (index : list Posting) (t : string) : Z :=
  Z.of_nat (length (filter (fun p => term p = t) index)).

(** The value stored in [idf_scores[term]] for document frequency [df]. *)
Definition idf (N df : Z) : R :=
  if (df =? 0)%Z then 0%R
  else ln ((IZR N - IZR df + 0.5) / (IZR df + 0.5) + 1)%R.

Definition idf_scores (N : Z) (frequencies : gmap string Z)
    (query_terms : list string) : gmap string R :=
  foldl (fun scores term =>
           <[term := idf N (default 0%Z (frequencies !! term))]> scores)
        ∅ query_terms.

(** [[t for t in query_terms if idf_scores.get(t, 0) > 0]] *)
Definition active_terms (scores : gmap string R) (query_terms : list string)
    : list string :=
  filter (fun t => (0 < default 0 (scores !! t))%R) query_terms.

(** A row of the join of [inverted_index] with [document_stats]. *)
Record JoinedRow := mkJoinedRow {
  row_document_id : string;
  row_term : string;
  row_tf : Z;
  row_doc_len : Z
}.

Definition joined_rows (index : list Posting) (stats : list DocumentStats)
    (active : list string) : list JoinedRow :=
  p ← index;
  if decide (term p ∈ active) then
    s ← stats;
    if decide (stats_document_id s = document_id p)
    then [mkJoinedRow (document_id p) (term p) (term_frequency p)
                      (total_terms s)]
    else []
  else [].

Definition tf_component (k1 b : R) (tf doc_len : Z) (avgdl : R) : R :=
  ((IZR tf * (k1 + 1)) / (IZR tf + k1 * (1 - b + b * IZR doc_len / avgdl)))%R.

(** [doc_scores[doc_id] = doc_scores.get(doc_id, 0) + score] *)
Definition score_step (k1 b avgdl : R) (scores : gmap string R)
    (doc_scores : gmap string R) (row : JoinedRow) : gmap string R :=
  let idf := default 0%R (scores !! row_term row) in
  let score := (idf * tf_component k1 b (row_tf row) (row_doc_len row) avgdl)%R in
  <[row_document_id row :=
      (default 0 (doc_scores !! row_document_id row) + score)%R]> doc_scores.

(** [bm25_search] up to [doc_scores]: the score of every matching
    document, before sorting and paging. *)
Definition bm25_scores (query_terms : list string) (coll : option CollectionStats)
    (index : list Posting) (stats : list DocumentStats) : gmap string R :=
  match query_terms with
  | [] => ∅
  | _ =>
      match coll with
      | None => ∅
      | Some coll =>
          if (total_documents coll =? 0)%Z then ∅
          else
            let N := total_documents coll in
            let avgdl := avg_document_length coll in
            let frequencies := doc_frequencies index query_terms in
            let scores := idf_scores N frequencies query_terms in
            let active := active_terms scores query_terms in
            match active with
            | [] => ∅
            | _ =>
                foldl (score_step Settings.bm25_k1 Settings.bm25_b avgdl scores)
                      ∅ (joined_rows index stats active)
            end
      end
  end.

(** The pattern [re.escape(term)] under [re.IGNORECASE] matches at the
    head of [s]: [term] and the head agree up to the case of letters. *)
Fixpoint match_here (term s : string) : bool :=
  match term, s with
  | EmptyString, _ => true
  | String a term', String c s' =>
      if Ascii.eqb (lower_char a) (lower_char c) then match_here term' s'
      else false
  | String _ _, EmptyString => false
  end.

(** The first [n] characters of [s]. *)
Fixpoint take_chars (n : nat) (s : string) : string :=
  match n, s with
  | S n', String c r => String c (take_chars n' r)
  | _, _ => EmptyString
  end.

(** [pattern.sub(repl, s)] for a non-empty literal [term]: left to right,
    matches do not overlap; [skip] counts the characters of the current
    match still to pass. [expand] is the compiled replacement: the text
    put in the place of a match, given the matched text. *)
Fixpoint sub_go (term : string) (expand : string -> string) (skip : nat)
    (s : string) : string :=
  match s with
  | EmptyString => EmptyString
  | String c r =>
      match skip with
      | S k => sub_go term expand k r
      | O =>
          if match_here term s
          then (expand (take_chars (String.length term) s)
                ++ sub_go term expand (String.length term - 1) r)%string
          else String c (sub_go term expand 0 r)
      end
  end.

(** The empty pattern matches before every character and at the end. *)
Fixpoint sub_empty (expand : string -> string) (s : string) : string :=
  match s with
  | EmptyString => expand EmptyString
  | String c r =>
      (expand EmptyString ++ String c (sub_empty expand r))%string
  end.

Definition has_backslash (s : string) : bool :=
  negb (all_chars (fun c => negb (Ascii.eqb c "092"%char)) s).

Section Highlight.
(** The template compiler of [re], which [pattern.sub] calls for a
    replacement that holds a backslash: it returns the compiled
    replacement or raises ([re.error] for a bad escape or an invalid
    group reference). *)
Variable re_template : string -> outcome (string -> string).

(** The replacement as [pattern.sub] prepares it before it looks for a
    match: a string without backslash stands for itself, any other one
    goes through the template compiler. *)
Definition compile_template (repl : string) : outcome (string -> string) :=
  if has_backslash repl then re_template repl
  else Returned (fun _ => repl).

(** [re.compile(re.escape(term), re.IGNORECASE).sub(repl, s)] *)
Definition sub_ignorecase (term repl s : string) : outcome string :=
  match compile_template repl with
  | Raised msg => Raised msg
  | Returned expand =>
      Returned (if is_empty term then sub_empty expand s
                else sub_go term expand 0 s)
  end.

(** [highlight_terms(text, query_terms)] *)
Definition highlight_terms (text : string) (query_terms : list string)
    : outcome string :=
  if is_empty text then Returned EmptyString
  else
    foldl (fun result term =>
             match result with
             | Raised msg => Raised msg
             | Returned result =>
                 sub_ignorecase term ("<mark>" ++ term ++ "</mark>")%string
                                result
             end)
          (Returned text) query_terms.

End Highlight.

(** The loop body of [_generate_snippet]: keep the least position at
    which a term is found. *)
Definition best_step (content_lower : string) (best_pos : Z) (term : string)
    : Z :=
  let pos := find content_lower term in
  if negb (pos =? -1)%Z && (pos <? best_pos)%Z then pos else best_pos.

Section Snippet.
(** [str.lower()] as the snippet code uses it: the lowering of the whole
    Unicode range, which can make a text longer (one capital letter may
    become two characters). On ASCII text it is [Py.lower]. *)
Variable str_lower : string -> string.

(** [best_pos] after the loop: positions are searched in the lowered
    content, the starting value is the length of the content itself. *)
Definition best_position (content : string) (query_terms : list string) : Z :=
  foldl (best_step (str_lower content)) (str_len content) query_terms.

(** [_generate_snippet(content, query_terms, max_length)] *)
Definition generate_snippet (content : string) (query_terms : list string)
    (max_length : Z) : string :=
  if is_empty content then EmptyString
  else
    let best_pos := best_position content query_terms in
    if (best_pos =? str_len content)%Z then
      (substr content 0 max_length
       ++ (if (max_length <? str_len content)%Z then "..." else ""))%string
    else
      let start := Z.max 0 (best_pos - 50) in
      let end_ := Z.min (str_len content) (start + max_length) in
      let snippet := substr content start end_ in
      let snippet :=
        if (0 <? start)%Z then ("..." ++ snippet)%string else snippet in
      let snippet :=
        if (end_ <? str_len content)%Z then (snippet ++ "...")%string
        else snippet in
      snippet.

End Snippet.

End BM25.

(** ** app/services/indexer/inverted_index.py *)
Module InvertedIndex.
Import Py.

(** A value of [term_data]: [{"frequency": ..., "positions": [...]}]. *)
Record TermData := mkTermData {
  frequency : Z;
  positions : list nat
}.

(** Rows of [inverted_index], [document_stats] and [documents] (the
    columns the indexer reads or writes), and of [collection_stats]. *)
Record IndexRow := mkIndexRow {
  term : string;
  document_id : string;
  term_frequency : Z;
  row_positions : list nat
}.

Record StatsRow := mkStatsRow {
  stats_document_id : string;
  total_terms : Z;
  unique_terms : Z
}.

Record Document := mkDocument {
  doc_id_of : string;
  clean_content : option string;
  indexed_at : option Z
}.

Record CollectionStats := mkCollectionStats {
  total_documents : Z;
  avg_document_length : Q
}.

Record Db := mkDb {
  documents : list Document;
  inverted_index : list IndexRow;
  document_stats : list StatsRow
}.

(** The body of [for token, pos in token_positions]. *)
Definition term_step (term_data : list (string * TermData))
    (item : string * nat) : list (string * TermData) :=
  let '(token, pos) := item in
  let term_data :=
    match dict_get token term_data with
    | None => dict_set token (mkTermData 0 []) term_data
    | Some _ => term_data
    end in
  let data := default (mkTermData 0 []) (dict_get token term_data) in
  dict_set token
           (mkTermData (frequency data + 1) (positions data ++ [pos]))
           term_data.

(** [entries]: one row per item of [term_data]. *)
Definition entries_of (doc_id : string) (term_data : list (string * TermData))
    : list IndexRow :=
  map (fun item =>
         mkIndexRow (fst item) doc_id (frequency (snd item))
                    (positions (snd item)))
      term_data.

(** [pg_insert(InvertedIndex)] of one row with
    [on_conflict_do_update(constraint="uq_term_document")]: a row with
    the same term and document takes the new frequency and positions. *)
Fixpoint upsert_entry (e : IndexRow) (rows : list IndexRow) : list IndexRow :=
  match rows with
  | [] => [e]
  | r :: rest =>
      if decide (term r = term e /\ document_id r = document_id e)
      then mkIndexRow (term r) (document_id r) (term_frequency e)
                      (row_positions e) :: rest
      else r :: upsert_entry e rest
  end.

(** [pg_insert(DocumentStats)] with
    [on_conflict_do_update(index_elements=["document_id"])]. *)
Fixpoint upsert_stats (s : StatsRow) (rows : list StatsRow) : list StatsRow :=
  match rows with
  | [] => [s]
  | r :: rest =>
      if decide (stats_document_id r = stats_document_id s)
      then mkStatsRow (stats_document_id r) (total_terms s) (unique_terms s)
           :: rest
      else r :: upsert_stats s rest
  end.

Section Indexing.
Variable stops : gset string.
Variable stemmer_stem : string -> string.

(** [index_document(doc_id, db)]: the store after the call; [now] is the
    value of [datetime.now(timezone.utc)]. Log records are not part of
    the model. *)
Definition index_document (doc_id : string) (now : Z) (db : Db) : Db :=
  match List.find (fun d => bool_decide (doc_id_of d = doc_id))
                  (documents db) with
  | None => db
  | Some doc =>
      match clean_content doc with
      | None => db
      | Some content =>
          if is_empty content then db
          else
            let token_positions :=
              TextProcessor.process_with_positions stops stemmer_stem
                content in
            match token_positions with
            | [] => db
            | _ =>
                let term_data := foldl term_step [] token_positions in
                let total := Z.of_nat (length token_positions) in
                let unique := Z.of_nat (length term_data) in
                let index :=
                  filter (fun r => document_id r <> doc_id)
                         (inverted_index db) in
                let entries := entries_of doc_id term_data in
                let index :=
                  foldl (fun rows e => upsert_entry e rows) index entries in
                let stats :=
                  upsert_stats (mkStatsRow doc_id total unique)
                               (document_stats db) in
                let docs :=
                  map (fun d =>
                         if bool_decide (doc_id_of d = doc_id)
                         then mkDocument (doc_id_of d) (clean_content d)
                                         (Some now)
                         else d)
                      (documents db) in
                mkDb docs index stats
            end
      end
  end.

End Indexing.

(** [select(func.avg(DocumentStats.total_terms))]: [None] on an empty
    table. *)
Definition avg_total_terms (stats : list StatsRow) : option Q :=
  match stats with
  | [] => None
  | _ =>
      Some (inject_Z (foldr (fun s acc => total_terms s + acc)%Z 0%Z stats)
            / inject_Z (Z.of_nat (length stats)))%Q
  end.

(** [update_collection_stats(db)]: the values written to the row of
    [collection_stats]. *)
Definition update_collection_stats (db : Db) : CollectionStats :=
  let total_docs := Z.of_nat (length (document_stats db)) in
  let avg_length := default 0%Q (avg_total_terms (document_stats db)) in
  mkCollectionStats total_docs avg_length.

End InvertedIndex.

(** ** app/services/search/semantic.py *)
Module Semantic.
Import Py.

(** A row of the nearest-neighbour query, with [float(row.similarity)]. *)
Record Row := mkRow {
  row_document_id : string;
  row_chunk_text : string;
  similarity : Q
}.

(** A value of [best_per_doc]: [{"score": ..., "snippet": ...}]. *)
Record Best := mkBest {
  best_score : Q;
  best_snippet : string
}.

(** The columns of [documents] that the results show. *)
Record Document := mkDocument {
  doc_id : string;
  doc_title : option string;
  doc_url : string;
  doc_source : string
}.

(** [chunk_text[:250] + "..." if len(chunk_text) > 250 else chunk_text] *)
Definition snippet_of (chunk_text : string) : string :=
  if (250 <? str_len chunk_text)%Z
  then (substr chunk_text 0 250 ++ "...")%string
  else chunk_text.

(** The body of [for row in rows]. *)
Definition best_step (best_per_doc : list (string * Best)) (row : Row)
    : list (string * Best) :=
  let better :=
    match dict_get (row_document_id row) best_per_doc with
    | None => true
    | Some best => negb (Qle_bool (similarity row) (best_score best))
    end in
  if better
  then dict_set (row_document_id row)
                (mkBest (similarity row) (snippet_of (row_chunk_text row)))
                best_per_doc
  else best_per_doc.

(** [sorted(best_per_doc.items(), key=lambda x: x[1]["score"],
    reverse=True)] *)
Definition sort_by_score (items : list (string * Best))
    : list (string * Best) :=
  sorted_by (fun a b => Qle_bool (best_score (snd b)) (best_score (snd a)))
            items.

Section Search.
(** [round(x, ndigits)] *)
Variable round : Q -> Z -> Q.
(** The [documents] table. *)
Variable documents : list Document.

(** The loop over [page_docs]: a result for every document found. *)
Definition result_of (item : string * Best) : option Hybrid.SearchResult :=
  match List.find (fun d => bool_decide (doc_id d = fst item)) documents with
  | None => None
  | Some doc =>
      Some (Hybrid.mkSearchResult (fst item)
              (round (best_score (snd item)) 4)
              (default EmptyString (doc_title doc))
              (doc_url doc) (doc_source doc)
              (best_snippet (snd item)))
  end.

(** [semantic_search(query, db, page, size)], given the outcome of
    embedding the query and running the nearest-neighbour query: the
    rows, or the exception of the embedding model. *)
Definition semantic_search (nearest : outcome (list Row)) (page size : Z)
    : list Hybrid.SearchResult * Z :=
  match nearest with
  | Raised _ => ([], 0%Z)
  | Returned [] => ([], 0%Z)
  | Returned rows =>
      let best_per_doc := foldl best_step [] rows in
      let sorted_docs := sort_by_score best_per_doc in
      let total := Z.of_nat (length sorted_docs) in
      let offset := ((page - 1) * size)%Z in
      let page_docs := slice sorted_docs offset (offset + size) in
      (omap result_of page_docs, total)
  end.

End Search.
End Semantic.

(** ** app/services/rag/retriever.py *)
Module Retriever.
Import Py RecursiveRag.

(** A row of the query of [_retrieve_semantic]. *)
Record Row := mkRow {
  row_document_id : string;
  row_chunk_text : string;
  similarity : Q;
  row_title : option string;
  row_url : string;
  row_source : string
}.

(** The body of [for row in result] in [_retrieve_semantic]. *)
Definition semantic_step (acc : list RetrievedContext * gset string)
    (row : Row) : list RetrievedContext * gset string :=
  let '(contexts, seen_docs) := acc in
  if decide (row_document_id row ∈ seen_docs) then (contexts, seen_docs)
  else
    (contexts
     ++ [mkRetrievedContext (row_document_id row) (row_chunk_text row)
           (default EmptyString (row_title row)) (row_url row)
           (row_source row) (similarity row)],
     seen_docs ∪ {[row_document_id row]}).

(** [_retrieve_semantic(query, db, top_k)], given the outcome of
    embedding the query and running the query. *)
Definition retrieve_semantic (nearest : outcome (list Row)) (top_k : Z)
    : list RetrievedContext :=
  match nearest with
  | Raised _ => []
  | Returned rows =>
      slice_to (fst (foldl semantic_step ([], ∅) rows)) top_k
  end.

(** [_retrieve_bm25(query, db, top_k)], given the results of
    [bm25_search] and the [clean_content] of a document. *)
Definition retrieve_bm25 (results : list Hybrid.SearchResult)
    (clean_content : string -> option string) : list RetrievedContext :=
  map (fun r =>
         let chunk :=
           match clean_content (Hybrid.document_id r) with
           | None => Hybrid.snippet r
           | Some content =>
               if is_empty content then Hybrid.snippet r
               else substr content 0 1000
           end in
         mkRetrievedContext (Hybrid.document_id r) chunk (Hybrid.title r)
           (Hybrid.url r) (Hybrid.source r) (Hybrid.score r))
      results.

(** [retrieve_context(query, db, top_k, method)] *)
Definition retrieve_context (nearest : outcome (list Row))
    (results : list Hybrid.SearchResult)
    (clean_content : string -> option string)
    (top_k : Z) (method : string) : list RetrievedContext :=
  let contexts :=
    if decide (method ∈ ["semantic"; "hybrid"]%string)
    then retrieve_semantic nearest top_k
    else [] in
  let contexts :=
    if decide (method ∈ ["bm25"; "hybrid"]%string)
    then
      let seen_docs : gset string := list_to_set (map document_id contexts) in
      fst (foldl dedup_step (contexts, seen_docs)
                 (retrieve_bm25 results clean_content))
    else contexts in
  slice_to (sort_by_relevance contexts) top_k.

End Retriever.

(** ** app/services/rag/generator.py: the follow-up queries *)
Module Generator.
Import Py.

(** [s.split(sep)] for a separator of one character; [cur] is the piece
    being read. *)
Fixpoint split_on (sep : ascii) (cur : string) (s : string) : list string :=
  match s with
  | EmptyString => [cur]
  | String c r =>
      if Ascii.eqb c sep then cur :: split_on sep EmptyString r
      else split_on sep (cur ++ String c EmptyString) r
  end.

Definition newline : ascii := "010"%char.

(** [[line.strip() for line in raw.strip().split("\n") if line.strip()]] *)
Definition parse_queries (raw : string) : list string :=
  omap (fun line =>
          if is_empty (strip line) then None else Some (strip line))
       (split_on newline EmptyString (strip raw)).

(** [generate_follow_up_queries(query, current_answer)], given the
    outcome of the chat call: the content of the reply, or an
    exception. *)
Definition generate_follow_up_queries (response : outcome string)
    : list string :=
  match response with
  | Raised _ => []
  | Returned raw => slice_to (parse_queries raw) 3
  end.

End Generator.

(** ** app/api/v1/search.py: the search endpoint and its cache *)
Module SearchApi.
Import Py.
Local Open Scope string_scope.

(** The validated query parameters of a request. *)
Record Request := mkRequest {
  q : string;
  type : string;
  page : Z;
  size : Z;
  highlight : bool
}.

(** An item of ["results"] and the response dictionary. *)
Record Entry := mkEntry {
  entry_document_id : string;
  entry_score : Q;
  entry_title : string;
  entry_url : string;
  entry_source : string;
  entry_snippet : string
}.

Record Response := mkResponse {
  resp_query : string;
  resp_query_id : string;
  resp_type : string;
  resp_page : Z;
  resp_size : Z;
  resp_total : Z;
  resp_latency_ms : Q;
  resp_cached : bool;
  resp_results : list Entry
}.

(** [cached["cached"] = True] *)
Definition mark_cached (r : Response) : Response :=
  mkResponse (resp_query r) (resp_query_id r) (resp_type r) (resp_page r)
             (resp_size r) (resp_total r) (resp_latency_ms r) true
             (resp_results r).

Section Endpoint.
Variable stops : gset string.
Variable stemmer_stem : string -> string.
Variable md5 : string -> N.
(** The decimal text of an [int] in an f-string. *)
Variable format_int : Z -> string.
(** The search that the request type selects, run on the query text:
    its results and total. *)
Variable run_search :
  string -> string -> Z -> Z -> list Hybrid.SearchResult * Z.
(** The template compiler of [re], as [BM25.highlight_terms] takes it. *)
Variable re_template : string -> outcome (string -> string).

(** The key under which the endpoint looks up and stores a response;
    [cache_get] and [cache_set] put ["cache:"] in front of it. *)
Definition cache_key_of (req : Request) : string :=
  "search:" ++ type req ++ ":"
  ++ QueryProcessor.cache_key
       (QueryProcessor.process_query stops stemmer_stem md5 (q req))
  ++ ":p" ++ format_int (page req) ++ ":s" ++ format_int (size req).

(** The body of [for r in results]: with highlighting, the snippet
    and then the title go through [highlight_terms]. *)
Definition format_result (req : Request) (raw_tokens : list string)
    (r : Hybrid.SearchResult) : outcome Entry :=
  if highlight req
  then
    match BM25.highlight_terms re_template (Hybrid.snippet r) raw_tokens with
    | Raised msg => Raised msg
    | Returned snippet =>
        match BM25.highlight_terms re_template (Hybrid.title r) raw_tokens
        with
        | Raised msg => Raised msg
        | Returned title =>
            Returned (mkEntry (Hybrid.document_id r) (Hybrid.score r) title
                              (Hybrid.url r) (Hybrid.source r) snippet)
        end
    end
  else
    Returned (mkEntry (Hybrid.document_id r) (Hybrid.score r)
                      (Hybrid.title r) (Hybrid.url r) (Hybrid.source r)
                      (Hybrid.snippet r)).

(** [formatted_results] after the loop, or the exception that left it. *)
Fixpoint format_results (req : Request) (raw_tokens : list string)
    (results : list Hybrid.SearchResult) : outcome (list Entry) :=
  match results with
  | [] => Returned []
  | r :: rest =>
      match format_result req raw_tokens r with
      | Raised msg => Raised msg
      | Returned entry =>
          match format_results req raw_tokens rest with
          | Raised msg => Raised msg
          | Returned entries => Returned (entry :: entries)
          end
      end
  end.

(** [search(request, q, type, page, size, highlight)] on a cache that
    answers and whose entries have not expired: the response, or the
    exception that ended the request, and the cache afterwards.
    [query_id] is what [log_query] returns and [latency_ms] the rounded
    time measured; the rows written for analytics and autocompletion are
    not part of the model. *)
Definition search (cache : gmap string Response) (req : Request)
    (query_id : string) (latency_ms : Q)
    : outcome Response * gmap string Response :=
  let processed :=
    QueryProcessor.process_query stops stemmer_stem md5 (q req) in
  let cache_key := cache_key_of req in
  match cache !! ("cache:" ++ cache_key) with
  | Some cached => (Returned (mark_cached cached), cache)
  | None =>
      let '(results, total) :=
        run_search (type req) (q req) (page req) (size req) in
      match format_results req (QueryProcessor.raw_tokens processed)
                           results with
      | Raised msg => (Raised msg, cache)
      | Returned formatted_results =>
          let response :=
            mkResponse (q req) query_id (type req) (page req) (size req)
                       total latency_ms false formatted_results in
          if (0 <? total)%Z
          then (Returned response,
                <["cache:" ++ cache_key := response]> cache)
          else (Returned response, cache)
      end
  end.

End Endpoint.
End SearchApi.

(** ** Data of the scenarios used in the examples *)
Module Scenarios.
Import Py.
Local Open Scope string_scope.

(** A store with one document and the two vectors of an earlier run. *)
Definition example_db : VectorIndexer.Db nat :=
  VectorIndexer.mkDb nat
    [VectorIndexer.mkDocument "d1" (Some "search engines index the web")]
    [VectorIndexer.mkDocumentEmbedding nat "d1" 0 "old chunk" 7;
     VectorIndexer.mkDocumentEmbedding nat "d2" 0 "other" 9].

Definition failing_model (texts : list string) : outcome (list nat) :=
  Raised "model unavailable".

Definition constant_model (texts : list string) : outcome (list nat) :=
  Returned (map (fun _ => 1) texts).

(** A world that only counts the calls made to the language model. *)
Definition example_retrieve (q : string) (top_k : Z) (w : nat)
    : list RecursiveRag.RetrievedContext * nat :=
  ([RecursiveRag.mkRetrievedContext "d1" "text" "Title" "http://e/1" "custom" (9 # 10)], w).

Definition example_generate (q : string) (ctxs : list RecursiveRag.RetrievedContext)
    (w : nat) : RecursiveRag.Generated * nat :=
  (RecursiveRag.mkGenerated ("answer " ++ q) [] "llama3.1", S w).

Definition no_follow_up (q a : string) (w : nat) : list string * nat :=
  ([], S w).

(** A store for the indexer: document [d1] was indexed under an older
    text, document [d2] has one posting. *)
Definition index_db : InvertedIndex.Db :=
  InvertedIndex.mkDb
    [InvertedIndex.mkDocument "d1" (Some "cat sat cat") None;
     InvertedIndex.mkDocument "d2" (Some "dog") (Some 5%Z)]
    [InvertedIndex.mkIndexRow "old" "d1" 1 [0];
     InvertedIndex.mkIndexRow "dog" "d2" 1 [0]]
    [InvertedIndex.mkStatsRow "d1" 1 1; InvertedIndex.mkStatsRow "d2" 1 1].

(** A search that finds one document for every query. *)
Definition one_hit_search (type q : string) (page size : Z)
    : list Hybrid.SearchResult * Z :=
  ([Hybrid.mkSearchResult "d1" 1 "Cats" "http://e/1" "custom" "a cat sat"],
   1%Z).

(** A language model that always asks for one more retrieval. *)
Definition one_follow_up (q a : string) (w : nat) : list string * nat :=
  (["more about " ++ q], S w).

(** One indexed document, and the term ["cat"] occurring once in it. *)
Definition cat_index : list BM25.Posting := [BM25.mkPosting "cat" "d1" 1].
Definition cat_stats : list BM25.DocumentStats := [BM25.mkDocumentStats "d1" 1].
Definition cat_collection : BM25.CollectionStats := BM25.mkCollectionStats 1 1.

Definition hit (doc_id : string) : Hybrid.SearchResult :=
  Hybrid.mkSearchResult doc_id 1 "" "" "custom" "".

(** The lists of scenario S4. *)
Definition s4_bm25 : list Hybrid.SearchResult := [hit "d1"; hit "d2"; hit "d3"].
Definition s4_semantic : list Hybrid.SearchResult := [hit "d3"; hit "d4"; hit "d1"].

(** The trie of scenario S3. *)
Definition s3_inserts : list (string * Z) :=
  [("search engine", 10%Z); ("search optimization", 5%Z);
   ("sorting algorithms", 3%Z)].

(** A stand-in digest for the examples: the length of the data. *)
Definition length_digest (s : string) : N := N.of_nat (String.length s).

End Scenarios.

(* ===================================================================== *)
(** * Part II: properties                                                 *)
(* ===================================================================== *)

Section TextProcessorFacts.
Import Py TextProcessor.
Variable stops : gset string.
Variable stemmer_stem : string -> string.

Lemma positions_loop_tokens (start : nat) (raw : list string)
    (acc : list (string * nat)) :
  (foldl (positions_step stops stemmer_stem) acc (enumerate start raw)).*1
  = acc.*1 ++ stem stemmer_stem (remove_stopwords stops raw).
Proof.
  revert start acc.
  induction raw as [|t raw IH]; intros start acc; simpl.
  - by rewrite app_nil_r.
  - rewrite IH. unfold remove_stopwords, stem.
    rewrite filter_cons. destruct (decide (t ∉ stops)) as [Hin|Hin].
    + rewrite fmap_app, <- app_assoc. reflexivity.
    + reflexivity.
Qed.

(** C2: the position-preserving pipeline and the plain pipeline with
    stemming produce the same stemmed tokens, in the same order, hence
    the same multiset. *)
Theorem process_with_positions_tokens (text : string) :
  (process_with_positions stops stemmer_stem text).*1
    = process stops stemmer_stem text true
  /\ (process_with_positions stops stemmer_stem text).*1
       ≡ₚ process stops stemmer_stem text true.
Proof.
  assert (Heq : (process_with_positions stops stemmer_stem text).*1
                = process stops stemmer_stem text true).
  { unfold process_with_positions, process.
    rewrite positions_loop_tokens. reflexivity. }
  split; [exact Heq | rewrite Heq; reflexivity].
Qed.

End TextProcessorFacts.

(** ** Strings: runs, [split] and [join] *)
Section StringFacts.
Import Py.
Local Open Scope string_scope.

Lemma append_nil_r (s : string) : s ++ "" = s.
Proof. induction s as [|c s IH]; simpl; [done | by rewrite IH]. Qed.

Lemma append_assoc (a b c : string) : (a ++ b) ++ c = a ++ (b ++ c).
Proof. induction a as [|x a IH]; simpl; [done | by rewrite IH]. Qed.

Lemma all_chars_app (p : ascii -> bool) (a b : string) :
  all_chars p (a ++ b) = all_chars p a && all_chars p b.
Proof.
  induction a as [|x a IH]; simpl; [done |].
  rewrite IH. by rewrite andb_assoc.
Qed.

Lemma runs_app (p : ascii -> bool) (w : string) :
  all_chars p w = true ->
  forall cur s, runs p cur (w ++ s) = runs p (cur ++ w) s.
Proof.
  induction w as [|c w IH]; simpl; intros Hw cur s.
  - by rewrite append_nil_r.
  - apply andb_true_iff in Hw as [Hc Hw]. rewrite Hc.
    rewrite (IH Hw). by rewrite append_assoc.
Qed.

Lemma flush_words (p : ascii -> bool) (cur : string) :
  all_chars p cur = true -> Forall (word_of p) (flush cur).
Proof.
  intros Hcur. unfold flush. destruct cur as [|c cur]; simpl.
  - constructor.
  - constructor; [|constructor]. split; [done | exact Hcur].
Qed.

Lemma runs_words (p : ascii -> bool) (s : string) :
  forall cur, all_chars p cur = true -> Forall (word_of p) (runs p cur s).
Proof.
  induction s as [|c s IH]; intros cur Hcur; simpl.
  - by apply flush_words.
  - destruct (p c) eqn:Hc.
    + apply IH. rewrite all_chars_app, Hcur. simpl. by rewrite Hc.
    + apply Forall_app. split; [by apply flush_words | by apply IH].
Qed.

Lemma runs_word (p : ascii -> bool) (w : string) :
  word_of p w -> runs p "" w = [w].
Proof.
  intros [Hne Hw].
  rewrite <- (append_nil_r w) at 1. rewrite (runs_app p w Hw). simpl.
  unfold flush. by destruct w.
Qed.

(** Splitting what was joined with a separator outside the class gives
    the words back. *)
Lemma runs_join (p : ascii -> bool) (sep : ascii) (ws : list string) :
  p sep = false ->
  Forall (word_of p) ws ->
  runs p "" (join (String sep "") ws) = ws.
Proof.
  intros Hsep. induction ws as [|w ws IH]; intros Hws; [done |].
  apply Forall_cons in Hws as [Hw Hws].
  destruct ws as [|w' ws'].
  - simpl. by apply runs_word.
  - change (join (String sep "") (w :: w' :: ws'))
      with (w ++ String sep "" ++ join (String sep "") (w' :: ws')).
    destruct Hw as [Hne Hw].
    rewrite (runs_app p w Hw).
    change (runs p ("" ++ w) (String sep "" ++ join (String sep "") (w' :: ws')))
      with (if p sep
            then runs p (w ++ String sep "")
                      (join (String sep "") (w' :: ws'))
            else (flush w ++ runs p "" (join (String sep "") (w' :: ws')))%list).
    rewrite Hsep, (IH Hws). unfold flush. by destruct w.
Qed.

Lemma split_words (text : string) :
  Forall (word_of (fun c => negb (is_space c))) (split text).
Proof. unfold split. by apply runs_words. Qed.

Lemma split_join (ws : list string) :
  Forall (word_of (fun c => negb (is_space c))) ws ->
  split (join " " ws) = ws.
Proof. intros Hws. unfold split. by apply runs_join. Qed.

End StringFacts.

(** ** Chunking *)
Section ChunkFacts.
Import Py VectorIndexer.
Local Open Scope Z_scope.

Lemma slice_inner {A} (l : list A) (a b : Z) :
  0 <= a <= b -> b <= len l ->
  slice l a b = take (Z.to_nat (b - a)) (drop (Z.to_nat a) l).
Proof.
  intros Hab Hb. unfold slice, clamp_index. fold (len l).
  destruct (Z.ltb_spec a 0); [lia |].
  destruct (Z.ltb_spec b 0); [lia |].
  by rewrite !Z.min_l by lia.
Qed.

Variable words : list string.
Variables chunk_size chunk_overlap : Z.

Lemma chunk_loop_unfold (fuel : nat) (start : Z) (chunks : list string) :
  start < len words ->
  chunk_loop (S fuel) words chunk_size chunk_overlap start chunks
  = chunk_loop fuel words chunk_size chunk_overlap
      (start + (chunk_size - chunk_overlap)) (chunks ++ [chunk_at words chunk_size start]).
Proof.
  intros Hlt. simpl. destruct (Z.ltb_spec start (len words)); [done | lia].
Qed.

Lemma chunk_loop_exit (fuel : nat) (start : Z) (chunks : list string) :
  len words <= start ->
  chunk_loop (S fuel) words chunk_size chunk_overlap start chunks
  = Some chunks.
Proof.
  intros Hge. simpl. destruct (Z.ltb_spec start (len words)); [lia | done].
Qed.

(** With a positive step the loop finishes within the fuel that covers
    the distance to the end, and emits exactly the chunks at
    [start], [start + step], ... below [len words]. *)
Lemma chunk_loop_spec (fuel : nat) :
  0 < chunk_size - chunk_overlap ->
  forall start chunks,
    Z.max 0 (len words - start) < Z.of_nat fuel ->
    exists rest,
      chunk_loop fuel words chunk_size chunk_overlap start chunks
        = Some (chunks ++ rest)
      /\ forall (i : nat) (c : string),
           rest !! i = Some c <->
           start + Z.of_nat i * (chunk_size - chunk_overlap) < len words
           /\ c = chunk_at words chunk_size
                    (start + Z.of_nat i * (chunk_size - chunk_overlap)).
Proof.
  intros Hstep. induction fuel as [|fuel IH]; intros start chunks Hfuel.
  - lia.
  - destruct (Z.lt_ge_cases start (len words)) as [Hlt | Hge].
    + rewrite chunk_loop_unfold by done.
      destruct (IH (start + (chunk_size - chunk_overlap))
                   (chunks ++ [chunk_at words chunk_size start])) as (rest & Hrun & Hrest);
        [lia |].
      exists (chunk_at words chunk_size start :: rest). split.
      * rewrite Hrun. by rewrite <- app_assoc.
      * intros [|i] c.
        -- simpl. rewrite Z.add_0_r. split.
           ++ intros [= <-]. done.
           ++ intros [_ ->]. done.
        -- simpl. rewrite Hrest.
           replace (start + (chunk_size - chunk_overlap)
                    + Z.of_nat i * (chunk_size - chunk_overlap))
             with (start + Z.of_nat (S i) * (chunk_size - chunk_overlap))
             by lia.
           done.
    + rewrite chunk_loop_exit by done. exists []. split.
      * by rewrite app_nil_r.
      * intros i c. rewrite lookup_nil. split; [done |].
        intros [Hlt _]. nia.
Qed.

(** With a step that is not positive the loop never leaves an offset
    below [len words], whatever the fuel. *)
Lemma chunk_loop_diverges (fuel : nat) :
  chunk_size - chunk_overlap <= 0 ->
  forall start chunks,
    start < len words ->
    chunk_loop fuel words chunk_size chunk_overlap start chunks = None.
Proof.
  intros Hstep. induction fuel as [|fuel IH]; intros start chunks Hlt.
  - done.
  - rewrite chunk_loop_unfold by done. apply IH. lia.
Qed.

End ChunkFacts.

Section ChunkTextFacts.
Import Py VectorIndexer.

Variable text : string.
Variables chunk_size chunk_overlap : Z.
Hypothesis overlap_range : (0 <= chunk_overlap < chunk_size)%Z.

Let words := split text.
Let sz := Z.to_nat chunk_size.
Let ov := Z.to_nat chunk_overlap.
Let st := sz - ov.

Lemma step_of_nat : Z.of_nat st = (chunk_size - chunk_overlap)%Z.
Proof. unfold st, sz, ov. lia. Qed.

Lemma offset_of_nat (i : nat) :
  (Z.of_nat i * (chunk_size - chunk_overlap))%Z = Z.of_nat (i * st).
Proof.
  rewrite Nat2Z.inj_mul, step_of_nat. done.
Qed.

Lemma chunk_at_take (s : nat) :
  s < length words ->
  chunk_at words chunk_size (Z.of_nat s) = join " " (take sz (drop s words)).
Proof.
  intros Hs. unfold chunk_at.
  rewrite slice_inner by (unfold len; lia).
  rewrite Nat2Z.id. f_equal.
  destruct (Z.le_gt_cases (Z.of_nat s + chunk_size) (len words)) as [Hle|Hgt].
  - rewrite Z.min_l by done. f_equal. unfold sz. lia.
  - rewrite Z.min_r by lia.
    rewrite !take_ge; [done | |]; rewrite length_drop; unfold len, sz in *; lia.
Qed.

Lemma chunk_words (s : nat) :
  split (join " " (take sz (drop s words))) = take sz (drop s words).
Proof.
  apply split_join, Forall_take, Forall_drop, split_words.
Qed.

(** The chunks of a text with more words than [chunk_size]. *)
Lemma chunk_text_long :
  (chunk_size < len words)%Z ->
  exists chunks,
    (forall fuel, length words < fuel ->
       chunk_text fuel text chunk_size chunk_overlap = Some chunks)
    /\ forall (i : nat) (c : string),
         chunks !! i = Some c <->
         i * st < length words /\ c = join " " (take sz (drop (i * st) words)).
Proof.
  intros Hlong.
  assert (Hne : is_empty text = false).
  { destruct text; [|done]. unfold words, len in Hlong. simpl in Hlong. lia. }
  destruct (chunk_loop_spec words chunk_size chunk_overlap
              (S (length words)) ltac:(lia) 0%Z [] ltac:(unfold len; lia))
    as (chunks & Hrun & Hchunks).
  exists chunks. split.
  - intros fuel Hfuel. unfold chunk_text. rewrite Hne. fold words.
    destruct (Z.leb_spec (len words) chunk_size); [lia |].
    destruct (chunk_loop_spec words chunk_size chunk_overlap
                fuel ltac:(lia) 0%Z [] ltac:(unfold len; lia))
      as (chunks' & Hrun' & Hchunks').
    rewrite Hrun'. simpl. f_equal.
    apply list_eq. intros i. apply option_eq. intros c.
    by rewrite Hchunks, Hchunks'.
  - intros i c. rewrite Hchunks. rewrite Z.add_0_l, offset_of_nat.
    unfold len. split.
    + intros [Hlt ->]. split; [lia |]. apply chunk_at_take. lia.
    + intros [Hlt ->]. split; [lia |]. symmetry. apply chunk_at_take. lia.
Qed.

Lemma chunk_text_empty (fuel : nat) :
  text = EmptyString ->
  chunk_text fuel text chunk_size chunk_overlap = Some [].
Proof. intros ->. done. Qed.

Lemma chunk_text_short (fuel : nat) :
  text <> EmptyString -> (len words <= chunk_size)%Z ->
  chunk_text fuel text chunk_size chunk_overlap = Some [text].
Proof.
  intros Hne Hshort. unfold chunk_text.
  destruct text as [|c r]; [done |]. simpl is_empty. cbv iota.
  fold words. by destruct (Z.leb_spec (len words) chunk_size); [| lia].
Qed.

(** C5 (amended): for [0 <= chunk_overlap < chunk_size], with
    [st = chunk_size - chunk_overlap]:
    the empty text has no chunk; a non-empty text of at most [chunk_size]
    words is its own single chunk; a longer text is cut into the chunks
    that start at the word offsets [0], [st], [2 st], ... below the word
    count, chunk [i] holding the words [i st .. i st + chunk_size) that
    exist, so that a chunk has at most [chunk_size] words, every word of
    the text is a word of some chunk, and of two consecutive chunks of
    [chunk_size] words the last [chunk_overlap] words of the first are the
    first [chunk_overlap] words of the second. *)
Theorem chunk_text_spec :
  (text = EmptyString ->
   forall fuel, chunk_text fuel text chunk_size chunk_overlap = Some [])
  /\ (text <> EmptyString -> (len words <= chunk_size)%Z ->
      forall fuel, chunk_text fuel text chunk_size chunk_overlap = Some [text])
  /\ ((chunk_size < len words)%Z ->
      exists chunks,
        (forall fuel, length words < fuel ->
           chunk_text fuel text chunk_size chunk_overlap = Some chunks)
        /\ (forall (i : nat) (c : string),
              chunks !! i = Some c <->
              i * st < length words
              /\ c = join " " (take sz (drop (i * st) words)))
        /\ (forall (i : nat) (c : string),
              chunks !! i = Some c ->
              split c = take sz (drop (i * st) words)
              /\ length (split c) <= sz)
        /\ (forall (j : nat) (w : string),
              words !! j = Some w ->
              exists (i : nat) (c : string),
                chunks !! i = Some c /\ i * st <= j
                /\ split c !! (j - i * st) = Some w)
        /\ (forall (i : nat) (c1 c2 : string),
              chunks !! i = Some c1 -> chunks !! S i = Some c2 ->
              length (split c1) = sz -> length (split c2) = sz ->
              drop st (split c1) = take ov (split c2)
              /\ length (take ov (split c2)) = ov)).
Proof.
  split; [intros; by apply chunk_text_empty |].
  split; [intros; by apply chunk_text_short |].
  intros Hlong.
  destruct (chunk_text_long Hlong) as (chunks & Hrun & Hchunks).
  assert (Hst : 1 <= st) by (unfold st, sz, ov; lia).
  assert (Hsum : st + ov = sz) by (unfold st, sz, ov; lia).
  assert (Hsplit : forall (i : nat) (c : string),
             chunks !! i = Some c -> split c = take sz (drop (i * st) words)).
  { intros i c [_ ->]%Hchunks. apply chunk_words. }
  exists chunks. split; [exact Hrun |]. split; [exact Hchunks |].
  split; [| split].
  - intros i c Hc. split; [by apply Hsplit |].
    rewrite (Hsplit i c Hc), length_take. lia.
  - intros j w Hw.
    assert (Hj : j < length words) by (by eapply lookup_lt_Some).
    pose proof (Nat.div_mod_eq j st) as Hdiv.
    pose proof (Nat.mod_upper_bound j st ltac:(lia)) as Hmod.
    set (i := j / st) in *.
    assert (Hi : i * st <= j) by lia.
    exists i, (join " " (take sz (drop (i * st) words))).
    split; [apply Hchunks; split; [lia | done] |].
    split; [exact Hi |].
    rewrite chunk_words, lookup_take_lt by lia.
    rewrite lookup_drop. by replace (i * st + (j - i * st)) with j by lia.
  - intros i c1 c2 Hc1 Hc2 Hlen1 Hlen2.
    rewrite (Hsplit _ _ Hc1) in *. rewrite (Hsplit _ _ Hc2) in *.
    split.
    + apply list_eq. intros k.
      rewrite lookup_drop, !lookup_take, !lookup_drop.
      repeat case_decide; try lia; try done.
      f_equal. lia.
    + rewrite length_take, Hlen2. lia.
Qed.

End ChunkTextFacts.

Section ChunkTermination.
Import Py VectorIndexer.

Lemma chunk_text_returns (text : string) (chunk_size chunk_overlap : Z) :
  (1 <= chunk_size)%Z -> (0 <= chunk_overlap < chunk_size)%Z ->
  exists chunks,
    forall fuel, length (split text) < fuel ->
      chunk_text fuel text chunk_size chunk_overlap = Some chunks.
Proof.
  intros Hsize Hov.
  destruct (decide (text = EmptyString)) as [Hempty | Hne].
  { exists []. intros fuel _. by apply chunk_text_empty. }
  destruct (Z.le_gt_cases (len (split text)) chunk_size) as [Hshort|Hlong].
  { exists [text]. intros fuel _. by apply chunk_text_short. }
  destruct (chunk_text_long text chunk_size chunk_overlap Hov)
    as (chunks & Hrun & _); [lia |].
  by exists chunks.
Qed.

(** C10: for [chunk_size >= 1] and [0 <= chunk_overlap < chunk_size],
    [chunk_text] returns a list of chunks on every text (any fuel above the
    word count is enough, and the result does not depend on it); every
    iteration of its loop moves the start offset forward by the positive
    amount [chunk_size - chunk_overlap]; and the bound on the overlap is
    needed: with [chunk_overlap >= chunk_size] the loop does not finish on
    a text of more than [chunk_size] words, whatever the fuel. *)
Theorem chunk_text_terminates (text : string) (chunk_size chunk_overlap : Z) :
  (1 <= chunk_size)%Z ->
  ((0 <= chunk_overlap < chunk_size)%Z ->
     (exists chunks,
        forall fuel, length (split text) < fuel ->
          chunk_text fuel text chunk_size chunk_overlap = Some chunks)
     /\ (0 < chunk_size - chunk_overlap)%Z
     /\ (forall fuel start chunks,
           (start < len (split text))%Z ->
           chunk_loop (S fuel) (split text) chunk_size chunk_overlap
                      start chunks
           = chunk_loop fuel (split text) chunk_size chunk_overlap
               (start + (chunk_size - chunk_overlap))%Z
               (chunks ++ [chunk_at (split text) chunk_size start])))
  /\ ((chunk_size <= chunk_overlap)%Z ->
      (chunk_size < len (split text))%Z ->
      forall fuel, chunk_text fuel text chunk_size chunk_overlap = None).
Proof.
  intros Hsize. split.
  - intros Hov. split; [| split; [lia |]].
    + by apply chunk_text_returns.
    + intros fuel start chunks Hlt. by apply chunk_loop_unfold.
  - intros Hov Hlong fuel. unfold chunk_text.
    destruct text as [|c r].
    { unfold len in Hlong. simpl in Hlong. lia. }
    simpl is_empty. cbv iota.
    destruct (Z.leb_spec (len (split (String c r))) chunk_size); [lia |].
    apply chunk_loop_diverges; lia.
Qed.

End ChunkTermination.

Section ChunkExamples.
Import Py VectorIndexer.
Local Open Scope string_scope.

Example chunk_text_five_words :
  chunk_text 6 "a b c d e" 3 1 = Some ["a b c"; "c d e"; "e"].
Proof. reflexivity. Qed.

Example chunk_text_blank :
  chunk_text 1 "   " Settings.chunk_size Settings.chunk_overlap = Some ["   "].
Proof. reflexivity. Qed.

(** C5 as stated fails on the empty text: it has no word, hence at most
    [chunk_size] of them, and the result is the empty list, not the single
    chunk [""].  It also fails without bounds on the overlap: with
    [chunk_overlap = -1] the word [c] of a five word text is in no chunk,
    and with [chunk_overlap = chunk_size] no list of chunks is returned. *)
Lemma chunk_text_empty_not_single :
  ((len (split "") <= Settings.chunk_size)%Z
   /\ (forall fuel,
         chunk_text fuel "" Settings.chunk_size Settings.chunk_overlap
         = Some [])
   /\ ~ (exists fuel,
           chunk_text fuel "" Settings.chunk_size Settings.chunk_overlap
           = Some [""]))
  /\ (chunk_text 6 "a b c d e" 2 (-1) = Some ["a b"; "d e"]
      /\ "c" ∈ split "a b c d e"
      /\ ("c" ∉ split "a b") /\ ("c" ∉ split "d e"))
  /\ (forall fuel, chunk_text fuel "a b c d e" 3 3 = None).
Proof.
  split; [| split].
  - split; [done |]. split; [done |].
    intros [fuel Hfuel]. discriminate Hfuel.
  - split; [reflexivity |].
    split; [by apply (bool_decide_unpack _) |].
    split; by apply (bool_decide_unpack _).
  - intros fuel. unfold chunk_text. simpl.
    apply chunk_loop_diverges; [lia | done].
Qed.

Lemma chunk_text_spec_witness :
  exists chunks,
    chunk_text 6 "a b c d e" 3 1 = Some chunks
    /\ forall (j : nat) (w : string),
         split "a b c d e" !! j = Some w ->
         exists (i : nat) (c : string),
           chunks !! i = Some c /\ w ∈ split c.
Proof.
  destruct (chunk_text_spec "a b c d e" 3 1 ltac:(lia))
    as (_ & _ & Hlong).
  destruct (Hlong ltac:(unfold len; simpl; lia))
    as (chunks & Hrun & _ & _ & Hcover & _).
  exists chunks. split.
  - apply Hrun. simpl. lia.
  - intros j w Hw. destruct (Hcover j w Hw) as (i & c & Hc & _ & Hin).
    exists i, c. split; [exact Hc |]. by eapply list_elem_of_lookup_2.
Defined.

Lemma chunk_text_terminates_witness :
  (exists chunks,
     forall fuel, length (split "a b c d e") < fuel ->
       chunk_text fuel "a b c d e" 3 1 = Some chunks)
  /\ (forall fuel, chunk_text fuel "a b c d e" 3 3 = None).
Proof.
  split.
  - apply (chunk_text_terminates "a b c d e" 3 1); lia.
  - apply (chunk_text_terminates "a b c d e" 3 3);
      [lia | lia | unfold len; simpl; lia].
Defined.

End ChunkExamples.

(** ** The vector indexer *)
Section IndexVectorsFacts.
Import Py VectorIndexer.

Lemma chunk_text_default_returns (text : string) :
  exists chunks, chunk_text_default text = Some chunks.
Proof.
  destruct (chunk_text_returns text Settings.chunk_size
              Settings.chunk_overlap) as [chunks Hrun]; [done | done |].
  exists chunks. apply Hrun. lia.
Qed.

Variable vector : Type.
Variable generate_embeddings : list string -> outcome (list vector).

(** C8: when the embedding call made for the document's chunks raises,
    [index_document_vectors] returns 0 together with the store it was
    given: no row of [document_embeddings] is deleted or inserted. *)
Theorem index_document_vectors_embedding_failure
    (doc_id : string) (db : Db vector) :
  (forall doc content chunks,
     select_document vector doc_id db = Some doc ->
     clean_content doc = Some content ->
     chunk_text_default content = Some chunks ->
     exists msg, generate_embeddings chunks = Raised msg) ->
  index_document_vectors vector generate_embeddings doc_id db
  = Some (0%Z, db).
Proof.
  intros Hraise. unfold index_document_vectors.
  destruct (select_document vector doc_id db) as [doc|] eqn:Hdoc; [| done].
  destruct (clean_content doc) as [content|] eqn:Hcontent; [| done].
  destruct (is_empty content); [done |].
  destruct (chunk_text_default_returns content) as [chunks Hchunks].
  rewrite Hchunks.
  destruct (Hraise doc content chunks eq_refl Hcontent Hchunks) as [msg Hmsg].
  rewrite Hmsg. by destruct chunks.
Qed.

End IndexVectorsFacts.

Section IndexVectorsExamples.
Import Py VectorIndexer Scenarios.
Local Open Scope string_scope.

Example index_document_vectors_replaces :
  index_document_vectors nat constant_model "d1" example_db
  = Some (1%Z,
          mkDb nat
            [mkDocument "d1" (Some "search engines index the web")]
            [mkDocumentEmbedding nat "d2" 0 "other" 9;
             mkDocumentEmbedding nat "d1" 0 "search engines index the web" 1]).
Proof. reflexivity. Qed.

Lemma index_document_vectors_embedding_failure_witness :
  index_document_vectors nat failing_model "d1" example_db
  = Some (0%Z, example_db).
Proof.
  apply (index_document_vectors_embedding_failure nat failing_model
           "d1" example_db).
  intros doc content chunks _ _ _. by exists "model unavailable".
Defined.

End IndexVectorsExamples.

(** ** The recursive RAG controller *)
Section RecursiveRagFacts.
Import Py RecursiveRag.

Variable World : Type.
Variable retrieve_context :
  string -> Z -> World -> list RetrievedContext * World.
Variable generate_answer :
  string -> list RetrievedContext -> World -> Generated * World.
Variable generate_follow_up_queries :
  string -> string -> World -> list string * World.
Variable round : Q -> Z -> Q.

(** C9: for [max_depth >= 1], when the first call of the follow-up
    generator (made on the query and the initial answer) returns the
    empty list, [recursive_rag] returns with [depth_reached = 1], the
    initial answer, and the original query as the only executed query. *)
Theorem recursive_rag_no_follow_up
    (query : string) (max_depth top_k : Z) (w0 w1 w2 w3 : World)
    (contexts : list RetrievedContext) (initial : Generated) :
  (1 <= max_depth)%Z ->
  retrieve_context query top_k w0 = (contexts, w1) ->
  generate_answer query contexts w1 = (initial, w2) ->
  generate_follow_up_queries query (gen_answer initial) w2 = ([], w3) ->
  exists out,
    recursive_rag World retrieve_context generate_answer
      generate_follow_up_queries round query max_depth top_k w0
      = Some (out, w3)
    /\ depth_reached out = 1%Z
    /\ answer out = gen_answer initial
    /\ queries_executed out = [query].
Proof.
  intros Hdepth Hretrieve Hanswer Hnone. unfold recursive_rag.
  rewrite Hretrieve, Hanswer.
  destruct (Z.to_nat max_depth) as [|fuel] eqn:Hfuel; [lia |].
  simpl refine.
  destruct (Z.ltb_spec 0 max_depth); [| lia].
  rewrite Hnone. eexists. split; [reflexivity |]. done.
Qed.

End RecursiveRagFacts.

Section RecursiveRagExamples.
Import Py RecursiveRag Scenarios.
Local Open Scope string_scope.

Lemma recursive_rag_no_follow_up_witness :
  exists out,
    recursive_rag nat example_retrieve example_generate no_follow_up
      (fun x _ => x) "what is bm25" 2 5 0
      = Some (out, 2)
    /\ depth_reached out = 1%Z
    /\ answer out = "answer what is bm25"
    /\ queries_executed out = ["what is bm25"].
Proof.
  apply (recursive_rag_no_follow_up nat example_retrieve example_generate
           no_follow_up (fun x _ => x) "what is bm25" 2 5 0 0 1 2
           [mkRetrievedContext "d1" "text" "Title" "http://e/1" "custom"
                               (9 # 10)]
           (mkGenerated "answer what is bm25" [] "llama3.1")).
  - lia.
  - reflexivity.
  - reflexivity.
  - reflexivity.
Defined.

End RecursiveRagExamples.

(** ** BM25: inverse document frequency *)
Section BM25Facts.
Import Py BM25.

Lemma idf_positive (N df : Z) :
  (1 <= df <= N)%Z -> (0 < idf N df)%R.
Proof.
  intros [Hdf HN]. unfold idf.
  destruct (Z.eqb_spec df 0) as [-> | _]; [lia |].
  assert (Hd : (1 <= IZR df)%R) by (by apply IZR_le).
  assert (Hn : (IZR df <= IZR N)%R) by (by apply IZR_le).
  rewrite <- ln_1. apply ln_increasing; [lra |].
  assert (0 < (IZR N - IZR df + 0.5) / (IZR df + 0.5))%R; [| lra].
  apply Rdiv_lt_0_compat; lra.
Qed.

Lemma idf_absent (N : Z) : idf N 0 = 0%R.
Proof. done. Qed.

Lemma idf_scores_lookup (N : Z) (frequencies : gmap string Z)
    (query_terms : list string) (t : string) :
  t ∈ query_terms ->
  idf_scores N frequencies query_terms !! t
  = Some (idf N (default 0%Z (frequencies !! t))).
Proof.
  unfold idf_scores. generalize (∅ : gmap string R).
  induction query_terms as [|u query_terms IH]; intros scores Hin.
  - by apply elem_of_nil in Hin.
  - simpl. destruct (decide (t ∈ query_terms)) as [Hrest | Hrest].
    + by apply IH.
    + apply elem_of_cons in Hin as [<- | Hin]; [| done].
      clear IH. revert scores.
      induction query_terms as [|v query_terms IH]; intros scores; simpl.
      * by rewrite lookup_insert_eq.
      * apply not_elem_of_cons in Hrest as [Hne Hrest].
        rewrite insert_insert_ne by done. by apply IH.
Qed.

Lemma tf_component_positive (tf doc_len : Z) (avgdl : R) :
  (1 <= tf)%Z -> (0 <= doc_len)%Z -> (0 < avgdl)%R ->
  (0 < tf_component Settings.bm25_k1 Settings.bm25_b tf doc_len avgdl)%R.
Proof.
  intros Htf Hlen Havg. unfold tf_component, Settings.bm25_k1, Settings.bm25_b.
  assert (Ht : (1 <= IZR tf)%R) by (by apply IZR_le).
  assert (Hl : (0 <= IZR doc_len)%R) by (by apply IZR_le).
  assert (Hq : (0 <= 75 / 100 * IZR doc_len / avgdl)%R).
  { unfold Rdiv. apply Rmult_le_pos; [lra |].
    left. by apply Rinv_0_lt_compat. }
  apply Rdiv_lt_0_compat; [lra |].
  assert (0 <= 12 / 10 * (75 / 100 * IZR doc_len / avgdl))%R by nra.
  lra.
Qed.

Lemma df_fold_lookup (query_terms : list string) (index : list Posting)
    (t : string) :
  t ∈ query_terms ->
  forall counts : gmap string Z,
    default 0%Z (foldl (df_step query_terms) counts index !! t)
    = (default 0 (counts !! t) + document_frequency index t)%Z.
Proof.
  intros Hin. unfold document_frequency.
  induction index as [|p index IH]; intros counts; simpl.
  - lia.
  - rewrite IH, filter_cons. unfold df_step.
    destruct (decide (term p = t)) as [Heq | Hne].
    + rewrite decide_True by (by rewrite Heq).
      rewrite Heq, lookup_insert_eq. simpl. lia.
    + destruct (decide (term p ∈ query_terms));
        [by rewrite lookup_insert_ne |]; done.
Qed.

Lemma doc_frequencies_lookup (query_terms : list string)
    (index : list Posting) (t : string) :
  t ∈ query_terms ->
  default 0%Z (doc_frequencies index query_terms !! t)
  = document_frequency index t.
Proof.
  intros Hin. unfold doc_frequencies. by rewrite df_fold_lookup.
Qed.

Lemma score_step_lookup (k1 b avgdl : R) (scores doc_scores : gmap string R)
    (row : JoinedRow) :
  score_step k1 b avgdl scores doc_scores row !! row_document_id row
  = Some (default 0 (doc_scores !! row_document_id row)
          + default 0 (scores !! row_term row)
            * tf_component k1 b (row_tf row) (row_doc_len row) avgdl)%R.
Proof. unfold score_step. by rewrite lookup_insert_eq. Qed.

(** C1 (amended): for a collection of [N >= 1] documents and a query term
    [t] with a posting in every one of them ([df(t) = N]), the scorer
    stores [IDF(t) = ln((N - N + 0.5) / (N + 0.5) + 1)], which is positive;
    [t] stays among the active terms, and each of its postings (with
    [tf >= 1], in a document of length [>= 0], for [avgdl > 0]) raises the
    score of its document; among the query terms whose document frequency
    is at most [N], the dropped ones are exactly those with [df = 0]. *)
Theorem idf_of_ubiquitous_term (N : Z) (index : list Posting)
    (query_terms : list string) (t : string) :
  (1 <= N)%Z ->
  t ∈ query_terms ->
  document_frequency index t = N ->
  let scores := idf_scores N (doc_frequencies index query_terms) query_terms in
  scores !! t = Some (ln ((IZR N - IZR N + 0.5) / (IZR N + 0.5) + 1))%R
  /\ (0 < default 0 (scores !! t))%R
  /\ t ∈ active_terms scores query_terms
  /\ (forall (doc_scores : gmap string R) (row : JoinedRow) (avgdl : R),
        row_term row = t ->
        (1 <= row_tf row)%Z -> (0 <= row_doc_len row)%Z -> (0 < avgdl)%R ->
        (default 0 (doc_scores !! row_document_id row)
         < default 0 (score_step Settings.bm25_k1 Settings.bm25_b avgdl scores
                        doc_scores row !! row_document_id row))%R)
  /\ (forall u : string,
        u ∈ query_terms ->
        (document_frequency index u <= N)%Z ->
        (u ∉ active_terms scores query_terms
         <-> document_frequency index u = 0%Z)).
Proof.
  intros HN Hin Hdf scores.
  assert (Hlookup : scores !! t = Some (idf N N)).
  { unfold scores. rewrite idf_scores_lookup by done.
    by rewrite doc_frequencies_lookup, Hdf. }
  assert (Hpos : (0 < idf N N)%R) by (apply idf_positive; lia).
  split; [| split; [| split; [| split]]].
  5:{ intros u Hu Hbound.
      assert (Hscore : default 0%R (scores !! u)
                       = idf N (document_frequency index u)).
      { unfold scores. rewrite idf_scores_lookup by done.
        by rewrite doc_frequencies_lookup. }
      unfold active_terms. rewrite list_elem_of_filter, Hscore.
      destruct (decide (document_frequency index u = 0%Z)) as [Hz | Hnz].
      - rewrite Hz, idf_absent. split; [done |]. intros _ [Hlt _]. lra.
      - split; [| done]. intros Hdropped. exfalso. apply Hdropped.
        split; [| done]. apply idf_positive.
        unfold document_frequency in *. lia. }
  - rewrite Hlookup. unfold idf.
    by destruct (Z.eqb_spec N 0); [lia |].
  - by rewrite Hlookup.
  - apply list_elem_of_filter. split; [| done]. by rewrite Hlookup.
  - intros doc_scores row avgdl Hterm Htf Hlen Havg.
    rewrite score_step_lookup, Hterm, Hlookup. simpl.
    pose proof (tf_component_positive _ _ _ Htf Hlen Havg) as Hc.
    assert (0 < idf N N
                * tf_component Settings.bm25_k1 Settings.bm25_b
                    (row_tf row) (row_doc_len row) avgdl)%R
      by (by apply Rmult_lt_0_compat).
    lra.
Qed.

End BM25Facts.

Section BM25Examples.
Import Py BM25 Scenarios.
Local Open Scope string_scope.

Lemma cat_idf_scores :
  idf_scores 1 (doc_frequencies cat_index ["cat"]) ["cat"]
  = {[ "cat" := idf 1 1 ]}.
Proof. reflexivity. Qed.

Lemma cat_active_terms :
  active_terms (idf_scores 1 (doc_frequencies cat_index ["cat"]) ["cat"])
               ["cat"]
  = ["cat"].
Proof.
  rewrite cat_idf_scores. unfold active_terms.
  rewrite filter_cons, decide_True; [done |].
  rewrite lookup_singleton_eq. simpl. apply idf_positive. lia.
Qed.

(** C1 as stated fails on a collection of one document: the term of that
    document has [df = N = 1], its IDF is [ln (4/3) > 0], it is not
    dropped, and the document gets a positive score from it. *)
Lemma idf_ubiquitous_term_kept :
  document_frequency cat_index "cat" = total_documents cat_collection
  /\ ~ (idf (total_documents cat_collection)
            (document_frequency cat_index "cat") <= 0)%R
  /\ "cat" ∈ active_terms
               (idf_scores 1 (doc_frequencies cat_index ["cat"]) ["cat"])
               ["cat"]
  /\ exists s : R,
       bm25_scores ["cat"] (Some cat_collection) cat_index cat_stats !! "d1"
       = Some s
       /\ (0 < s)%R.
Proof.
  split; [reflexivity |].
  assert (Hidf : (0 < idf 1 1)%R) by (apply idf_positive; lia).
  split; [simpl; change (document_frequency cat_index "cat") with 1%Z; lra |].
  split; [rewrite cat_active_terms; by left |].
  unfold bm25_scores. simpl total_documents. simpl Z.eqb. cbv iota.
  rewrite cat_active_terms, cat_idf_scores.
  change (joined_rows cat_index cat_stats ["cat"])
    with [mkJoinedRow "d1" "cat" 1 1].
  simpl foldl.
  pose proof (score_step_lookup Settings.bm25_k1 Settings.bm25_b 1
                {["cat" := idf 1 1]} ∅ (mkJoinedRow "d1" "cat" 1 1)) as Hrow.
  simpl in Hrow. rewrite Hrow. eexists. split; [reflexivity |].
  rewrite lookup_empty, lookup_singleton_eq. simpl.
  pose proof (tf_component_positive 1 1 1 ltac:(lia) ltac:(lia) ltac:(lra)).
  assert (0 < idf 1 1
              * tf_component Settings.bm25_k1 Settings.bm25_b 1 1 1)%R
    by (by apply Rmult_lt_0_compat).
  lra.
Qed.

Lemma idf_of_ubiquitous_term_witness :
  (0 < default 0
         (idf_scores 1 (doc_frequencies cat_index ["cat"]) ["cat"] !! "cat"))%R
  /\ "cat" ∈ active_terms
               (idf_scores 1 (doc_frequencies cat_index ["cat"]) ["cat"])
               ["cat"].
Proof.
  destruct (idf_of_ubiquitous_term 1 cat_index ["cat"] "cat")
    as (_ & Hpos & Hactive & _).
  - lia.
  - by left.
  - reflexivity.
  - split; [exact Hpos | exact Hactive].
Defined.

End BM25Examples.

(** ** Highlighting *)
Section HighlightExamples.
Import Py BM25.
Local Open Scope string_scope.

Variable re_template : string -> outcome (string -> string).

Example highlight_terms_lowercase_text :
  highlight_terms re_template "The search engine processes queries fast"
    ["search"; "fast"]
  = Returned
      "The <mark>search</mark> engine processes queries <mark>fast</mark>".
Proof. reflexivity. Qed.

(** C6: the replacement is built from the query token, not from the
    matched text, so the casing of the text is lost: the occurrence
    [Hello] comes out as [<mark>hello</mark>], where the claim says
    [<mark>Hello</mark>]. The replacement holds no backslash, so the
    result does not depend on the template compiler. *)
Theorem highlight_terms_loses_case :
  highlight_terms re_template "Hello World" ["hello"]
  = Returned "<mark>hello</mark> World"
  /\ highlight_terms re_template "Hello World" ["hello"]
     <> Returned "<mark>Hello</mark> World".
Proof. split; [reflexivity | discriminate]. Qed.

End HighlightExamples.

(** ** Reciprocal rank fusion *)
Section HybridFacts.
Import Py Hybrid.

Lemma rank_fold_lookup (results : list SearchResult) :
  NoDup (document_id <$> results) ->
  forall (start : nat) (ranks : gmap string nat) (d : string) (r : nat),
    foldl rank_step ranks (enumerate start results) !! d = Some r <->
    (exists i, (document_id <$> results) !! i = Some d /\ r = start + i)
    \/ ((d ∉ (document_id <$> results)) /\ ranks !! d = Some r).
Proof.
  induction results as [|res results IH]; intros Hnodup start ranks d r.
  - simpl. split.
    + intros Hr. right. split; [apply not_elem_of_nil | done].
    + intros [(i & Hi & _) | [_ Hr]]; [by rewrite lookup_nil in Hi | done].
  - csimpl in Hnodup. apply NoDup_cons in Hnodup as [Hfresh Hnodup].
    csimpl. rewrite (IH Hnodup). split.
    + intros [(i & Hi & ->) | [Hnotin Hr]].
      * left. exists (S i). split; [done | lia].
      * destruct (decide (document_id res = d)) as [<- | Hne].
        -- rewrite lookup_insert_eq in Hr. injection Hr as <-.
           left. exists 0. split; [done | lia].
        -- rewrite lookup_insert_ne in Hr by done.
           right. split; [| done]. by apply not_elem_of_cons.
    + intros [(i & Hi & ->) | [Hnotin Hr]].
      * destruct i as [|i]; simpl in Hi.
        -- injection Hi as <-. right. split; [done |].
           rewrite lookup_insert_eq. f_equal. lia.
        -- left. exists i. split; [done | lia].
      * apply not_elem_of_cons in Hnotin as [Hne Hnotin].
        right. split; [done |]. by rewrite lookup_insert_ne.
Qed.

Lemma rank_map_at_rank (results : list SearchResult) (d : string) (r : nat) :
  NoDup (document_id <$> results) ->
  rank_map results !! d = Some r <-> at_rank results d r.
Proof.
  intros Hnodup. unfold rank_map, at_rank.
  rewrite (rank_fold_lookup results Hnodup). split.
  - intros [(i & Hi & ->) | [_ Hr]]; [| by rewrite lookup_empty in Hr].
    split; [lia |]. by replace (1 + i - 1) with i by lia.
  - intros [Hr Hd]. left. exists (r - 1). split; [done | lia].
Qed.

Lemma rank_map_absent (results : list SearchResult) (d : string) :
  NoDup (document_id <$> results) ->
  d ∉ (document_id <$> results) ->
  rank_map results !! d = None.
Proof.
  intros Hnodup Hnotin.
  destruct (rank_map results !! d) as [r|] eqn:Hr; [| done].
  apply rank_map_at_rank in Hr as [_ Hd]; [| done].
  by apply list_elem_of_lookup_2 in Hd.
Qed.

Lemma reciprocal_returns (k : Z) (r : nat) :
  (0 <= k)%Z -> 1 <= r ->
  reciprocal k r = Returned (1 / inject_Z (k + Z.of_nat r))%Q.
Proof.
  intros Hk Hr. unfold reciprocal.
  by destruct (Z.eqb_spec (k + Z.of_nat r) 0); [lia |].
Qed.

Lemma rrf_fold_lookup (k : Z) (bm25_ranks semantic_ranks : gmap string nat)
    (ids : list string) :
  (forall d, d ∈ ids ->
     exists sc, rrf_score k bm25_ranks semantic_ranks d = Returned sc) ->
  forall acc : gmap string Q,
  exists scores,
    foldl (rrf_step k bm25_ranks semantic_ranks) (Returned acc) ids
      = Returned scores
    /\ forall d sc,
         d ∈ ids ->
         rrf_score k bm25_ranks semantic_ranks d = Returned sc ->
         scores !! d = Some sc.
Proof.
  induction ids as [|d0 ids IH]; intros Hok acc.
  - exists acc. split; [done |]. intros d sc Hin. by apply elem_of_nil in Hin.
  - destruct (Hok d0 ltac:(left)) as [sc0 Hsc0].
    simpl. rewrite Hsc0.
    destruct (IH (fun d Hd => Hok d ltac:(by right)) (<[d0:=sc0]> acc))
      as (scores & Hrun & Hscores).
    exists scores. split; [done |].
    intros d sc Hin Hsc.
    destruct (decide (d ∈ ids)) as [Hrest | Hrest]; [by apply Hscores |].
    apply elem_of_cons in Hin as [-> | Hin]; [| done].
    assert (sc = sc0) as -> by congruence.
    clear -Hrun Hrest Hok.
    assert (Hkeep : forall (l : list string) (m m' : gmap string Q),
               d0 ∉ l ->
               foldl (rrf_step k bm25_ranks semantic_ranks) (Returned m) l
                 = Returned m' ->
               m' !! d0 = m !! d0).
    { induction l as [|x l IHl]; intros m m' Hx Hfold; simpl in Hfold.
      - by injection Hfold as <-.
      - apply not_elem_of_cons in Hx as [Hne Hx].
        destruct (rrf_score k bm25_ranks semantic_ranks x) as [sx | msg].
        + rewrite (IHl _ _ Hx Hfold). by rewrite lookup_insert_ne.
        + exfalso. clear -Hfold.
          induction l as [|y l IHl']; simpl in Hfold; [done | auto]. }
    rewrite (Hkeep ids _ _ Hrest Hrun). by rewrite lookup_insert_eq.
Qed.

Lemma reciprocal_defined (k : Z) (r : nat) :
  (k + Z.of_nat r <> 0)%Z ->
  reciprocal k r = Returned (1 / inject_Z (k + Z.of_nat r))%Q.
Proof.
  intros Hne. unfold reciprocal.
  by destruct (Z.eqb_spec (k + Z.of_nat r) 0).
Qed.

Lemma at_rank_bounds (results : list SearchResult) (d : string) (r : nat) :
  at_rank results d r -> 1 <= r <= length results.
Proof.
  intros [Hr Hlook]. apply lookup_lt_Some in Hlook.
  rewrite length_fmap in Hlook. lia.
Qed.

Variable k : Z.
Variables bm25_results semantic_results : list SearchResult.
(** No rank of either list cancels the fusion constant: [k + r] is not 0.
    Every [k >= 0] is such a constant, and so is the default 60. *)
Hypothesis ranks_defined :
  forall r : nat,
    1 <= r ->
    r <= length bm25_results \/ r <= length semantic_results ->
    (k + Z.of_nat r <> 0)%Z.
Hypothesis bm25_ids_distinct : NoDup (document_id <$> bm25_results).
Hypothesis semantic_ids_distinct : NoDup (document_id <$> semantic_results).

Lemma rrf_score_both (d : string) (r1 r2 : nat) :
  at_rank bm25_results d r1 -> at_rank semantic_results d r2 ->
  rrf_score k (rank_map bm25_results) (rank_map semantic_results) d
  = Returned (0 + 1 / inject_Z (k + Z.of_nat r1)
                + 1 / inject_Z (k + Z.of_nat r2))%Q.
Proof.
  intros H1 H2. unfold rrf_score, add_reciprocal.
  rewrite (proj2 (rank_map_at_rank _ _ _ bm25_ids_distinct) H1).
  rewrite (proj2 (rank_map_at_rank _ _ _ semantic_ids_distinct) H2).
  apply at_rank_bounds in H1, H2.
  by rewrite !reciprocal_defined by (apply ranks_defined; lia).
Qed.

Lemma rrf_score_bm25_only (d : string) (r : nat) :
  at_rank bm25_results d r -> d ∉ (document_id <$> semantic_results) ->
  rrf_score k (rank_map bm25_results) (rank_map semantic_results) d
  = Returned (0 + 1 / inject_Z (k + Z.of_nat r))%Q.
Proof.
  intros H1 H2. unfold rrf_score, add_reciprocal.
  rewrite (proj2 (rank_map_at_rank _ _ _ bm25_ids_distinct) H1).
  rewrite (rank_map_absent _ _ semantic_ids_distinct H2).
  apply at_rank_bounds in H1.
  by rewrite reciprocal_defined by (apply ranks_defined; lia).
Qed.

Lemma rrf_score_semantic_only (d : string) (r : nat) :
  at_rank semantic_results d r -> d ∉ (document_id <$> bm25_results) ->
  rrf_score k (rank_map bm25_results) (rank_map semantic_results) d
  = Returned (0 + 1 / inject_Z (k + Z.of_nat r))%Q.
Proof.
  intros H1 H2. unfold rrf_score, add_reciprocal.
  rewrite (rank_map_absent _ _ bm25_ids_distinct H2).
  rewrite (proj2 (rank_map_at_rank _ _ _ semantic_ids_distinct) H1).
  apply at_rank_bounds in H1.
  by rewrite reciprocal_defined by (apply ranks_defined; lia).
Qed.

Lemma rrf_score_returns (d : string) :
  exists sc,
    rrf_score k (rank_map bm25_results) (rank_map semantic_results) d
    = Returned sc.
Proof.
  unfold rrf_score, add_reciprocal.
  destruct (rank_map bm25_results !! d) as [r1|] eqn:H1;
    destruct (rank_map semantic_results !! d) as [r2|] eqn:H2;
    try (apply rank_map_at_rank, at_rank_bounds in H1; [| done]);
    try (apply rank_map_at_rank, at_rank_bounds in H2; [| done]);
    rewrite ?reciprocal_defined by (apply ranks_defined; lia); eauto.
Qed.

(** C3 (amended): with a fusion constant [k] that no rank of the two
    lists cancels ([k + r <> 0] for every rank [r] of either list, as
    for every [k >= 0] and the default 60), and result lists that name
    each document once (both searches build their list from a dictionary
    keyed by document id), the loop of [hybrid_search] ends with a score
    for every document of either list: [1/(k+r1) + 1/(k+r2)] for a
    document at rank [r1] of the BM25 list and rank [r2] of the semantic
    list, and [1/(k+r)] for a document at rank [r] of one list and absent
    from the other. *)
Theorem rrf_scores_of_ranks :
  exists scores : gmap string Q,
    rrf_scores k bm25_results semantic_results = Returned scores
    /\ (forall (d : string) (r1 r2 : nat),
          at_rank bm25_results d r1 -> at_rank semantic_results d r2 ->
          exists sc, scores !! d = Some sc
            /\ (sc == 1 / inject_Z (k + Z.of_nat r1)
                      + 1 / inject_Z (k + Z.of_nat r2))%Q)
    /\ (forall (d : string) (r : nat),
          at_rank bm25_results d r ->
          d ∉ (document_id <$> semantic_results) ->
          exists sc, scores !! d = Some sc
            /\ (sc == 1 / inject_Z (k + Z.of_nat r))%Q)
    /\ (forall (d : string) (r : nat),
          at_rank semantic_results d r ->
          d ∉ (document_id <$> bm25_results) ->
          exists sc, scores !! d = Some sc
            /\ (sc == 1 / inject_Z (k + Z.of_nat r))%Q).
Proof.
  unfold rrf_scores.
  destruct (rrf_fold_lookup k (rank_map bm25_results)
              (rank_map semantic_results)
              (elements (dom (rank_map bm25_results)
                           ∪ dom (rank_map semantic_results)))
              (fun d _ => rrf_score_returns d) ∅)
    as (scores & Hrun & Hscores).
  exists scores. split; [exact Hrun |].
  assert (Hleft : forall d r, at_rank bm25_results d r ->
            d ∈ elements (dom (rank_map bm25_results)
                            ∪ dom (rank_map semantic_results))).
  { intros d r Hr. apply elem_of_elements, elem_of_union. left.
    apply elem_of_dom. exists r. by apply rank_map_at_rank. }
  assert (Hright : forall d r, at_rank semantic_results d r ->
            d ∈ elements (dom (rank_map bm25_results)
                            ∪ dom (rank_map semantic_results))).
  { intros d r Hr. apply elem_of_elements, elem_of_union. right.
    apply elem_of_dom. exists r. by apply rank_map_at_rank. }
  split; [| split].
  - intros d r1 r2 H1 H2. eexists. split.
    + apply Hscores; [by eapply Hleft | by apply rrf_score_both].
    + by rewrite Qplus_0_l.
  - intros d r H1 H2. eexists. split.
    + apply Hscores; [by eapply Hleft | by apply rrf_score_bm25_only].
    + by rewrite Qplus_0_l.
  - intros d r H1 H2. eexists. split.
    + apply Hscores; [by eapply Hright | by apply rrf_score_semantic_only].
    + by rewrite Qplus_0_l.
Qed.

End HybridFacts.

Section HybridExamples.
Import Py Hybrid Scenarios.
Local Open Scope string_scope.

Lemma rrf_scores_of_ranks_witness :
  exists scores : gmap string Q,
    rrf_scores 60 s4_bm25 s4_semantic = Returned scores
    /\ (exists sc, scores !! "d1" = Some sc /\ (sc == (1 # 61) + (1 # 63))%Q)
    /\ (exists sc, scores !! "d2" = Some sc /\ (sc == (1 # 62))%Q).
Proof.
  destruct (rrf_scores_of_ranks 60 s4_bm25 s4_semantic)
    as (scores & Hrun & Hboth & Hleft & _).
  - intros r Hr _. lia.
  - by apply (bool_decide_unpack _).
  - by apply (bool_decide_unpack _).
  - exists scores. split; [exact Hrun |]. split.
    + destruct (Hboth "d1" 1 3) as (sc & Hsc & Heq).
      * split; [lia | reflexivity].
      * split; [lia | reflexivity].
      * exists sc. split; [exact Hsc |]. rewrite Heq. reflexivity.
    + destruct (Hleft "d2" 2) as (sc & Hsc & Heq).
      * split; [lia | reflexivity].
      * by apply (bool_decide_unpack _).
      * exists sc. split; [exact Hsc |]. rewrite Heq. reflexivity.
Defined.

(** C3 as stated, for every fusion constant, fails for [k = -1]: the
    document at rank 1 of the BM25 list gets no score, the division
    [1.0 / (k + 1)] raises and the loop is left by the exception. *)
Lemma rrf_scores_rank_cancels_constant :
  at_rank [hit "d1"; hit "d2"] "d1" 1
  /\ ("d1" ∉ (document_id <$> ([] : list SearchResult)))
  /\ rrf_scores (-1) [hit "d1"; hit "d2"] [] = Raised "ZeroDivisionError"
  /\ ~ exists scores : gmap string Q,
         rrf_scores (-1) [hit "d1"; hit "d2"] [] = Returned scores.
Proof.
  assert (Hraise : rrf_scores (-1) [hit "d1"; hit "d2"] []
                   = Raised "ZeroDivisionError") by (by vm_compute).
  split; [split; [lia | reflexivity] |].
  split; [apply not_elem_of_nil |].
  split; [exact Hraise |].
  intros [scores Hscores]. congruence.
Qed.

End HybridExamples.

(** ** Stable sorting *)
Section SortFacts.
Import Py.
Context {A : Type}.
Variable le : A -> A -> bool.
Hypothesis le_total : forall x y, le x y = true \/ le y x = true.
Hypothesis le_trans : forall x y z, le x y = true -> le y z = true -> le x z = true.

Lemma insert_by_perm (x : A) (l : list A) : insert_by le x l ≡ₚ x :: l.
Proof.
  induction l as [|y l IH]; simpl; [done |].
  destruct (le x y); [done |]. rewrite IH. apply Permutation_swap.
Qed.

Lemma sorted_by_perm (l : list A) : sorted_by le l ≡ₚ l.
Proof.
  induction l as [|x l IH]; simpl; [done |].
  fold (sorted_by le l). by rewrite insert_by_perm, IH.
Qed.

Lemma insert_by_sorted (x : A) (l : list A) :
  StronglySorted (fun a b => le a b = true) l ->
  StronglySorted (fun a b => le a b = true) (insert_by le x l).
Proof.
  induction l as [|y l IH]; intros Hl; simpl.
  - by repeat constructor.
  - apply StronglySorted_cons in Hl as [Hy Hl].
    destruct (le x y) eqn:Hxy.
    + apply StronglySorted_cons. split.
      * constructor; [done |].
        eapply Forall_impl; [exact Hy |]. intros z Hyz. by eapply le_trans.
      * by apply StronglySorted_cons.
    + apply StronglySorted_cons. split; [| by apply IH].
      rewrite insert_by_perm. constructor; [| done].
      destruct (le_total x y) as [Hle | Hle]; [congruence | done].
Qed.

Lemma sorted_by_sorted (l : list A) :
  StronglySorted (fun a b => le a b = true) (sorted_by le l).
Proof.
  induction l as [|x l IH]; simpl; [constructor |].
  by apply insert_by_sorted.
Qed.

End SortFacts.

Section SliceFacts.
Import Py.

Lemma slice_to_take {A} (l : list A) (n : Z) :
  (0 <= n)%Z -> slice_to l n = take (Z.to_nat n) l.
Proof.
  intros Hn. unfold slice_to, slice.
  assert (Hlo : clamp_index (Z.of_nat (length l)) 0 = 0%Z).
  { unfold clamp_index. simpl. lia. }
  assert (Hhi : clamp_index (Z.of_nat (length l)) n
                = Z.min n (Z.of_nat (length l))).
  { unfold clamp_index. by destruct (Z.ltb_spec n 0); [lia |]. }
  rewrite Hlo, Hhi, Z.sub_0_r. change (drop (Z.to_nat 0) l) with l.
  destruct (Z.le_gt_cases n (Z.of_nat (length l))).
  - by rewrite Z.min_l by lia.
  - rewrite Z.min_r by lia. rewrite Nat2Z.id.
    rewrite (take_ge l (length l)) by lia.
    by rewrite (take_ge l (Z.to_nat n)) by lia.
Qed.

End SliceFacts.

(** ** The autocomplete trie *)
Section TrieFacts.
Import Py Autocomplete.
Local Open Scope string_scope.

Lemma well_keyed_node (path : string) cs e t f :
  well_keyed path (mkTrieNode cs e t f) <->
  (e = true -> lower t = path)
  /\ Forall (fun p => well_keyed (path ++ String (fst p) "") (snd p)) cs.
Proof.
  simpl. apply and_iff_compat_l.
  induction cs as [|p cs IH]; simpl.
  - split; [constructor | done].
  - rewrite IH, Forall_cons. done.
Qed.

Lemma well_keyed_children (path : string) (node : TrieNode) :
  well_keyed path node ->
  Forall (fun p => well_keyed (path ++ String (fst p) "") (snd p))
         (children node).
Proof. destruct node. rewrite well_keyed_node. by intros [_ ?]. Qed.

Lemma well_keyed_new (path : string) : well_keyed path new_node.
Proof. unfold new_node. rewrite well_keyed_node. split; [done | constructor]. Qed.

Lemma get_child_well_keyed (path : string) (c : ascii) cs (child : TrieNode) :
  Forall (fun p => well_keyed (path ++ String (fst p) "") (snd p)) cs ->
  get_child c cs = Some child ->
  well_keyed (path ++ String c "") child.
Proof.
  induction cs as [|[k v] cs IH]; intros Hcs Hget; simpl in Hget; [done |].
  apply Forall_cons in Hcs as [Hv Hcs].
  destruct (Ascii.eqb_spec k c) as [-> | _].
  - by injection Hget as <-.
  - by apply IH.
Qed.

Lemma set_child_well_keyed (path : string) (c : ascii) (v : TrieNode) cs :
  Forall (fun p => well_keyed (path ++ String (fst p) "") (snd p)) cs ->
  well_keyed (path ++ String c "") v ->
  Forall (fun p => well_keyed (path ++ String (fst p) "") (snd p))
         (set_child c v cs).
Proof.
  intros Hcs Hv. induction cs as [|[k v0] cs IH]; simpl.
  - by repeat constructor.
  - apply Forall_cons in Hcs as [Hv0 Hcs].
    destruct (Ascii.eqb_spec k c) as [-> | _].
    + by constructor.
    + constructor; [done | by apply IH].
Qed.

Lemma insert_at_well_keyed (chars : string) (t : string) (f : Z) :
  forall (path : string) (node : TrieNode),
    well_keyed path node ->
    lower t = path ++ chars ->
    well_keyed path (insert_at chars t f node).
Proof.
  induction chars as [|c rest IH]; intros path node Hnode Hterm;
    cbn [insert_at].
  - rewrite well_keyed_node. split.
    + intros _. by rewrite append_nil_r in Hterm.
    + by apply well_keyed_children.
  - rewrite well_keyed_node. split.
    + destruct node as [cs e t0 f0]. apply well_keyed_node in Hnode. tauto.
    + apply set_child_well_keyed; [by apply well_keyed_children |].
      apply IH.
      * destruct (get_child c (children node)) as [child|] eqn:Hget; simpl.
        -- eapply get_child_well_keyed; [| exact Hget].
           by apply well_keyed_children.
        -- apply well_keyed_new.
      * rewrite Hterm. by rewrite append_assoc.
Qed.

Lemma build_well_keyed (inserts : list (string * Z)) :
  well_keyed "" (root (build inserts)).
Proof.
  unfold build.
  assert (Hgen : forall trie,
             well_keyed "" (root trie) ->
             well_keyed ""
               (root (foldl (fun trie item =>
                               insert trie (fst item) (snd item))
                            trie inserts))).
  { induction inserts as [|[t f] inserts IH]; intros trie Htrie; [done |].
    simpl. apply IH. simpl. by apply insert_at_well_keyed. }
  apply Hgen, well_keyed_new.
Qed.

Lemma descend_well_keyed (chars : string) :
  forall (path : string) (node found : TrieNode),
    well_keyed path node ->
    descend chars node = Some found ->
    well_keyed (path ++ chars) found.
Proof.
  induction chars as [|c rest IH]; intros path node found Hnode Hfound;
    simpl in Hfound.
  - injection Hfound as <-. by rewrite append_nil_r.
  - destruct (get_child c (children node)) as [child|] eqn:Hget; [| done].
    replace (path ++ String c rest) with ((path ++ String c "") ++ rest)
      by (by rewrite append_assoc).
    eapply IH; [| exact Hfound].
    eapply get_child_well_keyed; [| exact Hget].
    by apply well_keyed_children.
Qed.

Lemma prefix_refl (s : string) : String.prefix s s = true.
Proof.
  induction s as [|c s IH]; simpl; [done |].
  by destruct (ascii_dec c c).
Qed.

Lemma prefix_app_l (a b s : string) :
  String.prefix (a ++ b) s = true -> String.prefix a s = true.
Proof.
  revert s. induction a as [|c a IH]; intros s Hpre; [by destruct s |].
  destruct s as [|d s]; simpl in *; [done |].
  destruct (ascii_dec c d); [by apply IH | done].
Qed.

(** Below a well keyed node at [path] every collected term spells, in
    lower case, a string that starts with [path]. *)
Lemma dfs_prefix (node : TrieNode) :
  forall path : string,
    well_keyed path node ->
    forall x, x ∈ dfs node ->
      String.prefix path (lower (sug_term x)) = true.
Proof.
  induction node as [cs e t f IH] using TrieNode_children_ind.
  intros path Hnode x Hx. apply well_keyed_node in Hnode as [Hend Hcs].
  simpl in Hx. apply elem_of_app in Hx as [Hx | Hx].
  - destruct e; [| by apply elem_of_nil in Hx].
    apply list_elem_of_singleton in Hx as ->. simpl.
    rewrite Hend by done. apply prefix_refl.
  - apply list_elem_of_In, in_flat_map in Hx as (p & Hp & Hx).
    apply list_elem_of_In in Hp, Hx.
    rewrite Forall_forall in IH, Hcs.
    eapply prefix_app_l, (IH p Hp); [by apply Hcs | done].
Qed.

Lemma key_le_total (x y : Suggestion) : key_le x y = true \/ key_le y x = true.
Proof.
  unfold key_le.
  destruct (Z.ltb_spec (sug_frequency y) (sug_frequency x)); [by left |].
  destruct (Z.ltb_spec (sug_frequency x) (sug_frequency y)); [by right |].
  assert (Heq : sug_frequency x = sug_frequency y) by lia.
  rewrite Heq, Z.eqb_refl. simpl.
  apply String.leb_total.
Qed.

Lemma key_le_stands_before (x y : Suggestion) :
  key_le x y = true <-> stands_before x y.
Proof.
  unfold key_le, stands_before, String.le.
  rewrite orb_true_iff, andb_true_iff, Z.ltb_lt, Z.eqb_eq, Is_true_true.
  done.
Qed.

Lemma key_le_trans (x y z : Suggestion) :
  key_le x y = true -> key_le y z = true -> key_le x z = true.
Proof.
  rewrite !key_le_stands_before. unfold stands_before.
  intros [Hxy | [Hxy Lxy]] [Hyz | [Hyz Lyz]]; try (left; lia).
  right. split; [lia |]. by etrans.
Qed.

Lemma sorted_suggestions (l : list Suggestion) :
  StronglySorted stands_before (sorted_by key_le l).
Proof.
  pose proof (sorted_by_sorted key_le key_le_total key_le_trans l) as Hsorted.
  induction Hsorted as [|x r Hr IH Hx]; constructor; [done |].
  eapply Forall_impl; [exact Hx |]. intros y. apply key_le_stands_before.
Qed.

(** C7: on the trie built by any sequence of insertions, for any prefix
    and any limit [n >= 0] (a count of results; the service passes a
    limit between 1 and 20), [search_prefix] returns at most [n] entries,
    ordered by frequency from high to low and, at equal frequency, by
    term in ascending order; the lower-cased term of every entry starts
    with the lower-cased prefix; and the result is empty when the descent
    along the lower-cased prefix finds no node. *)
Theorem search_prefix_spec (inserts : list (string * Z)) (prefix : string)
    (limit : Z) :
  (0 <= limit)%Z ->
  (Z.of_nat (length (search_prefix (build inserts) prefix limit)) <= limit)%Z
  /\ StronglySorted stands_before (search_prefix (build inserts) prefix limit)
  /\ (forall x, x ∈ search_prefix (build inserts) prefix limit ->
        String.prefix (lower prefix) (lower (sug_term x)) = true)
  /\ (descend (lower prefix) (root (build inserts)) = None ->
      search_prefix (build inserts) prefix limit = []).
Proof.
  intros Hlimit. unfold search_prefix.
  destruct (descend (lower prefix) (root (build inserts))) as [node|] eqn:Hnode.
  - rewrite slice_to_take by done.
    split; [rewrite length_take; lia |].
    split; [| split; [| done]].
    + eapply StronglySorted_app_1_l. rewrite take_drop.
      apply sorted_suggestions.
    + intros x Hx. apply subseteq_take in Hx.
      rewrite (sorted_by_perm key_le) in Hx.
      eapply (dfs_prefix node (lower prefix)); [| exact Hx].
      change (lower prefix) with ("" ++ lower prefix).
      eapply descend_well_keyed; [apply build_well_keyed | exact Hnode].
  - split; [simpl; lia |]. split; [constructor |].
    split; [| done]. intros x Hx. by apply elem_of_nil in Hx.
Qed.

End TrieFacts.

Section TrieExamples.
Import Py Autocomplete Scenarios.
Local Open Scope string_scope.

Example search_prefix_s3 :
  search_prefix (build s3_inserts) "search" 5
  = [mkSuggestion "search engine" 10; mkSuggestion "search optimization" 5].
Proof. reflexivity. Qed.

Example search_prefix_case_insensitive :
  search_prefix (build [("Python Programming", 5%Z)]) "python" 5
  = [mkSuggestion "Python Programming" 5].
Proof. reflexivity. Qed.

Example search_prefix_frequency_ordering :
  search_prefix (build [("apple", 1%Z); ("application", 10%Z);
                        ("app store", 5%Z)]) "app" 5
  = [mkSuggestion "application" 10; mkSuggestion "app store" 5;
     mkSuggestion "apple" 1].
Proof. reflexivity. Qed.

Example search_prefix_no_match :
  search_prefix (build [("hello world", 1%Z)]) "xyz" 5 = [].
Proof. reflexivity. Qed.

Lemma search_prefix_spec_witness :
  (Z.of_nat (length (search_prefix (build s3_inserts) "s" 2)) <= 2)%Z
  /\ StronglySorted stands_before (search_prefix (build s3_inserts) "s" 2).
Proof.
  destruct (search_prefix_spec s3_inserts "s" 2 ltac:(lia))
    as (Hlen & Hsorted & _).
  split; [exact Hlen | exact Hsorted].
Defined.

End TrieExamples.

(** ** The query fingerprint *)
Section SortedSetFacts.
Import Py QueryProcessor.

Lemma leb_trans (x y z : string) :
  String.leb x y = true -> String.leb y z = true -> String.leb x z = true.
Proof.
  intros Hxy Hyz. apply Is_true_true.
  change (String.le x z). transitivity y; by apply Is_true_true.
Qed.

#[local] Instance leb_antisym :
  AntiSymm (=) (fun a b : string => String.leb a b = true).
Proof. intros x y Hxy Hyx. by apply String.leb_antisym. Qed.

(** Sorting a listing of a set does not depend on the order of the
    listing. *)
Lemma sorted_by_listing (l1 l2 : list string) :
  l1 ≡ₚ l2 -> sorted_by String.leb l1 = sorted_by String.leb l2.
Proof.
  intros Hperm.
  apply (StronglySorted_unique (fun a b : string => String.leb a b = true)).
  - apply sorted_by_sorted; [apply String.leb_total | apply leb_trans].
  - apply sorted_by_sorted; [apply String.leb_total | apply leb_trans].
  - by rewrite !sorted_by_perm.
Qed.

Lemma sorted_set_ext (tokens1 tokens2 : list string) :
  (forall t, t ∈ tokens1 <-> t ∈ tokens2) ->
  sorted_set tokens1 = sorted_set tokens2.
Proof.
  intros Hsame. unfold sorted_set. apply sorted_by_listing.
  apply NoDup_Permutation; [apply NoDup_remove_dups .. |].
  intros t. by rewrite !elem_of_remove_dups.
Qed.

Lemma elem_of_sorted_set (tokens : list string) (t : string) :
  t ∈ sorted_set tokens <-> t ∈ tokens.
Proof.
  unfold sorted_set. by rewrite sorted_by_perm, elem_of_remove_dups.
Qed.

End SortedSetFacts.

Section RenderFacts.
Import Py QueryProcessor.
Local Open Scope string_scope.

Lemma string_app_inj (a1 a2 b1 b2 : string) :
  String.length a1 = String.length a2 ->
  a1 ++ b1 = a2 ++ b2 -> a1 = a2 /\ b1 = b2.
Proof.
  revert a2. induction a1 as [|c a1 IH]; intros [|d a2] Hlen Heq;
    simpl in *; try done.
  injection Heq as -> Heq. destruct (IH a2) as [-> ->]; [lia | done | done].
Qed.

Lemma render_acc (base : N) (k : nat) :
  forall (n : N) (acc : string),
    render base k n acc = render base k n "" ++ acc.
Proof.
  induction k as [|k IH]; intros n acc; simpl; [done |].
  rewrite (IH _ (String _ acc)), (IH _ (String _ "")).
  by rewrite append_assoc.
Qed.

Lemma render_length (base : N) (k : nat) :
  forall (n : N) (acc : string),
    String.length (render base k n acc) = k + String.length acc.
Proof.
  induction k as [|k IH]; intros n acc; simpl; [done |].
  rewrite IH. simpl. lia.
Qed.

Lemma digit_value_char (d : N) : (d < 16)%N -> digit_value (digit_char d) = d.
Proof.
  intros Hd.
  assert (Hcases : In d [0; 1; 2; 3; 4; 5; 6; 7; 8; 9; 10; 11; 12; 13; 14; 15]%N).
  { simpl. lia. }
  simpl in Hcases. intuition (subst; done).
Qed.

Lemma digit_char_is_digit (d : N) : (d < 10)%N -> is_digit (digit_char d) = true.
Proof.
  intros Hd.
  assert (Hcases : In d [0; 1; 2; 3; 4; 5; 6; 7; 8; 9]%N) by (simpl; lia).
  simpl in Hcases. intuition (subst; done).
Qed.

Lemma render_inj (base : N) (k : nat) :
  (2 <= base <= 16)%N ->
  forall n1 n2 : N,
    (n1 < base ^ N.of_nat k)%N -> (n2 < base ^ N.of_nat k)%N ->
    render base k n1 "" = render base k n2 "" -> n1 = n2.
Proof.
  intros Hbase. induction k as [|k IH]; intros n1 n2 H1 H2 Heq.
  - simpl in H1, H2. lia.
  - rewrite Nat2N.inj_succ, N.pow_succ_r' in H1, H2.
    simpl in Heq. rewrite (render_acc _ _ (n1 / base)) in Heq.
    rewrite (render_acc _ _ (n2 / base)) in Heq.
    apply string_app_inj in Heq as [Hhigh Hlow];
      [| by rewrite !render_length].
    assert (Hq : (n1 / base = n2 / base)%N).
    { apply IH; [| | done]; apply N.Div0.div_lt_upper_bound; lia. }
    assert (Hr : (n1 mod base = n2 mod base)%N).
    { injection Hlow as Hlow.
      rewrite <- (digit_value_char (n1 mod base)),
              <- (digit_value_char (n2 mod base)), Hlow; [done | |].
      - pose proof (N.mod_upper_bound n2 base). lia.
      - pose proof (N.mod_upper_bound n1 base). lia. }
    rewrite (N.div_mod n1 base), (N.div_mod n2 base) by lia.
    by rewrite Hq, Hr.
Qed.

Lemma render_digits (k : nat) :
  forall (n : N) (acc : string),
    all_chars is_digit acc = true ->
    all_chars is_digit (render 10 k n acc) = true.
Proof.
  induction k as [|k IH]; intros n acc Hacc; simpl; [done |].
  apply IH. simpl. rewrite Hacc, andb_true_r.
  apply digit_char_is_digit. by apply N.mod_upper_bound.
Qed.

Lemma hexdigest_inj (d1 d2 : N) :
  (d1 < digest_bound)%N -> (d2 < digest_bound)%N ->
  hexdigest d1 = hexdigest d2 -> d1 = d2.
Proof.
  intros H1 H2. unfold hexdigest.
  apply (render_inj 16 32); [lia | exact H1 | exact H2].
Qed.

Lemma number_query_inj (n1 n2 : N) :
  (n1 < 10 ^ 39)%N -> (n2 < 10 ^ 39)%N ->
  number_query n1 = number_query n2 -> n1 = n2.
Proof.
  intros H1 H2. unfold number_query.
  apply (render_inj 10 39); [lia | exact H1 | exact H2].
Qed.

Lemma number_query_digits (n : N) :
  all_chars is_digit (number_query n) = true.
Proof. by apply render_digits. Qed.

Lemma number_query_length (n : N) : String.length (number_query n) = 39.
Proof. unfold number_query. by rewrite render_length. Qed.

End RenderFacts.

(** ** Counting: a map into fewer values repeats one *)
Section Pigeonhole.
Local Open Scope N_scope.

Lemma bounded_search (f : N -> N) (v : N) (n : N) :
  (exists i, i < n /\ f i = v) \/ (forall i, i < n -> f i <> v).
Proof.
  induction n as [|n IH] using N.peano_ind.
  - right. intros i Hi. lia.
  - destruct IH as [(i & Hi & Hv) | Hnone].
    + left. exists i. split; [lia | done].
    + destruct (N.eq_dec (f n) v) as [Hv | Hv].
      * left. exists n. split; [lia | done].
      * right. intros i Hi.
        destruct (N.eq_dec i n) as [-> | Hne]; [done |].
        apply Hnone. lia.
Qed.

Lemma pigeonhole (m : N) :
  forall (f : N -> N) (n : N),
    m < n ->
    (forall i, i < n -> f i < m) ->
    exists i j, i < j /\ j < n /\ f i = f j.
Proof.
  induction m as [|m IH] using N.peano_ind; intros f n Hmn Hf.
  - specialize (Hf 0 Hmn). lia.
  - set (last := n - 1).
    destruct (bounded_search f (f last) last) as [(i & Hi & Hv) | Hfresh].
    { exists i, last. split; [done |]. split; [lia | done]. }
    set (g := fun i => if f i =? m then f last else f i).
    destruct (IH g last) as (i & j & Hij & Hj & Hg); [lia | |].
    + intros i Hi. unfold g.
      pose proof (Hf i ltac:(lia)) as Hfi.
      pose proof (Hf last ltac:(lia)) as Hfl.
      pose proof (Hfresh i Hi) as Hne.
      destruct (N.eqb_spec (f i) m); lia.
    + unfold g in Hg.
      pose proof (Hfresh i ltac:(lia)) as Hi.
      pose proof (Hfresh j Hj) as Hj'.
      exists i, j. split; [done |]. split; [lia |].
      destruct (N.eqb_spec (f i) m), (N.eqb_spec (f j) m); congruence.
Qed.

End Pigeonhole.

(** ** Tokens *)
Section TokenFacts.
Import Py TextProcessor QueryProcessor.
Local Open Scope string_scope.

Lemma all_chars_impl (p q : ascii -> bool) (s : string) :
  (forall c, p c = true -> q c = true) ->
  all_chars p s = true -> all_chars q s = true.
Proof.
  intros Hpq. induction s as [|c s IH]; simpl; [done |].
  rewrite !andb_true_iff. intros [Hc Hs]. split; [by apply Hpq | by apply IH].
Qed.

Lemma digit_alnum (c : ascii) : is_digit c = true -> is_alnum c = true.
Proof. intros Hc. unfold is_alnum. rewrite Hc. by rewrite orb_true_r. Qed.

Lemma alnum_not_space (c : ascii) :
  is_alnum c = true -> negb (is_space c) = true.
Proof.
  unfold is_alnum, is_space, is_lower, is_upper, is_digit, between.
  generalize (code c). intros n.
  rewrite negb_true_iff, !orb_true_iff, !andb_true_iff, orb_false_iff,
    !andb_false_iff, !Nat.leb_le, !Nat.leb_gt.
  lia.
Qed.

Lemma digit_not_upper (c : ascii) : is_digit c = true -> is_upper c = false.
Proof.
  unfold is_upper, is_digit, between. generalize (code c). intros n.
  rewrite andb_true_iff, andb_false_iff, !Nat.leb_le, !Nat.leb_gt. lia.
Qed.

Lemma lower_digits (s : string) :
  all_chars is_digit s = true -> lower s = s.
Proof.
  induction s as [|c s IH]; simpl; [done |].
  rewrite andb_true_iff. intros [Hc Hs].
  unfold lower_char. by rewrite (digit_not_upper c Hc), (IH Hs).
Qed.

Lemma lstrip_no_space (s : string) :
  all_chars (fun c => negb (is_space c)) s = true -> lstrip s = s.
Proof.
  destruct s as [|c s]; simpl; [done |].
  rewrite andb_true_iff, negb_true_iff. by intros [-> _].
Qed.

Lemma rstrip_no_space (s : string) :
  all_chars (fun c => negb (is_space c)) s = true -> rstrip s = s.
Proof.
  induction s as [|c s IH]; simpl; [done |].
  rewrite andb_true_iff, negb_true_iff. intros [Hc Hs].
  by rewrite (IH Hs), Hc, andb_false_r.
Qed.

Lemma collapse_no_space (s : string) (in_ws : bool) :
  all_chars (fun c => negb (is_space c)) s = true -> collapse_ws in_ws s = s.
Proof.
  revert in_ws. induction s as [|c s IH]; intros in_ws; simpl; [done |].
  rewrite andb_true_iff, negb_true_iff. intros [Hc Hs].
  by rewrite Hc, (IH false Hs).
Qed.

(** A string of 2 to 50 letters and digits without upper case letters
    is its own only token. *)
Lemma tokenize_digits (s : string) :
  all_chars is_digit s = true ->
  2 <= String.length s <= 50 ->
  tokenize s = [s].
Proof.
  intros Hdigits Hlen. unfold tokenize.
  destruct s as [|c r] eqn:Hs; [simpl in Hlen; lia |]. rewrite <- Hs in *.
  replace (is_empty s) with false by (by rewrite Hs).
  cbv zeta. rewrite (lower_digits s Hdigits).
  unfold findall_alnum. rewrite runs_word.
  - rewrite filter_cons, decide_True; [done |].
    unfold MIN_TOKEN_LENGTH, MAX_TOKEN_LENGTH. lia.
  - split; [by rewrite Hs |].
    eapply all_chars_impl; [apply digit_alnum | done].
Qed.

Lemma tokenize_alnum (text : string) :
  Forall (word_of is_alnum) (tokenize text).
Proof.
  unfold tokenize. destruct (is_empty text); [constructor |].
  cbv zeta. apply Forall_forall. intros t [_ Ht]%list_elem_of_filter.
  revert t Ht. apply Forall_forall. unfold findall_alnum.
  by apply runs_words.
Qed.

End TokenFacts.

(** ** The cache key *)
Section CacheKeyFacts.
Import Py TextProcessor QueryProcessor.
Local Open Scope string_scope.

Variable stops : gset string.
Variable stemmer_stem : string -> string.
Variable md5 : string -> N.

Lemma process_query_tokens (q : string) :
  tokens (process_query stops stemmer_stem md5 q)
  = process stops stemmer_stem (collapse_ws false (strip q)) true.
Proof. done. Qed.

Lemma process_query_cache_key (q : string) :
  cache_key (process_query stops stemmer_stem md5 q)
  = hexdigest
      (md5 (token_str (tokens (process_query stops stemmer_stem md5 q)))).
Proof. done. Qed.

Lemma token_str_same_set (tokens1 tokens2 : list string) :
  (forall t, t ∈ tokens1 <-> t ∈ tokens2) ->
  token_str tokens1 = token_str tokens2.
Proof. intros Hsame. unfold token_str. by rewrite (sorted_set_ext _ _ Hsame). Qed.

(** Token strings of whitespace-free, non-empty tokens tell the token
    sets apart. *)
Lemma token_str_inj (tokens1 tokens2 : list string) :
  Forall (word_of (fun c => negb (is_space c))) tokens1 ->
  Forall (word_of (fun c => negb (is_space c))) tokens2 ->
  token_str tokens1 = token_str tokens2 ->
  forall t, t ∈ tokens1 <-> t ∈ tokens2.
Proof.
  intros H1 H2 Heq t.
  assert (Hwords : forall l, Forall (word_of (fun c => negb (is_space c))) l ->
            Forall (word_of (fun c => negb (is_space c))) (sorted_set l)).
  { intros l Hl. rewrite Forall_forall in *. intros x Hx.
    by apply Hl, elem_of_sorted_set. }
  assert (Hsets : sorted_set tokens1 = sorted_set tokens2).
  { rewrite <- (split_join (sorted_set tokens1)) by auto.
    rewrite <- (split_join (sorted_set tokens2)) by auto.
    unfold token_str in Heq. by rewrite Heq. }
  by rewrite <- (elem_of_sorted_set tokens1), Hsets, elem_of_sorted_set.
Qed.

Lemma process_query_words (q : string) :
  (forall t, word_of is_alnum t ->
             word_of (fun c => negb (is_space c)) (stemmer_stem t)) ->
  Forall (word_of (fun c => negb (is_space c)))
         (tokens (process_query stops stemmer_stem md5 q)).
Proof.
  intros Hstem. rewrite process_query_tokens. unfold process, stem.
  apply Forall_forall. intros t Ht.
  apply list_elem_of_fmap in Ht as (t0 & -> & Ht0).
  apply Hstem. unfold remove_stopwords in Ht0.
  apply list_elem_of_filter in Ht0 as [_ Ht0].
  revert t0 Ht0. apply Forall_forall, tokenize_alnum.
Qed.

(** C4 (amended): two queries whose stemmed token lists have the same
    set of distinct tokens get the same cache key.  For two queries with
    disjoint non-empty token sets the strings that are hashed differ
    (the stemmer returning non-empty, whitespace-free tokens), so their
    cache keys differ exactly when MD5 does not collide on these two
    strings. *)
Theorem cache_key_spec (q1 q2 : string) :
  let p1 := process_query stops stemmer_stem md5 q1 in
  let p2 := process_query stops stemmer_stem md5 q2 in
  ((forall t, t ∈ tokens p1 <-> t ∈ tokens p2) ->
   cache_key p1 = cache_key p2)
  /\ ((forall s, (md5 s < digest_bound)%N) ->
      (forall t, word_of is_alnum t ->
                 word_of (fun c => negb (is_space c)) (stemmer_stem t)) ->
      tokens p1 <> [] -> tokens p2 <> [] ->
      (forall t, t ∈ tokens p1 -> t ∉ tokens p2) ->
      token_str (tokens p1) <> token_str (tokens p2)
      /\ (cache_key p1 = cache_key p2 <->
          md5 (token_str (tokens p1)) = md5 (token_str (tokens p2)))).
Proof.
  intros p1 p2. split.
  - intros Hsame. subst p1 p2. rewrite !process_query_cache_key.
    by rewrite (token_str_same_set _ _ Hsame).
  - intros Hbound Hstem Hne1 Hne2 Hdisjoint. split.
    + intros Heq.
      destruct (tokens p1) as [|t ts] eqn:Htokens; [done |].
      apply (Hdisjoint t); [by left |].
      apply (token_str_inj (t :: ts) (tokens p2)); [| | done | by left].
      * rewrite <- Htokens. by apply process_query_words.
      * by apply process_query_words.
    + subst p1 p2. rewrite !process_query_cache_key. split.
      * by apply hexdigest_inj.
      * by intros ->.
Qed.

End CacheKeyFacts.

Section CacheKeyCollisions.
Import Py TextProcessor QueryProcessor.
Local Open Scope string_scope.

Variable stops : gset string.
Variable stemmer_stem : string -> string.
Variable md5 : string -> N.
Hypothesis md5_bound : forall s, (md5 s < digest_bound)%N.
Hypothesis stem_digits :
  forall t, all_chars is_digit t = true -> stemmer_stem t = t.
Hypothesis stops_digits :
  forall t, all_chars is_digit t = true -> t ∉ stops.

Lemma number_query_processed (n : N) :
  tokens (process_query stops stemmer_stem md5 (number_query n))
    = [number_query n]
  /\ cache_key (process_query stops stemmer_stem md5 (number_query n))
     = hexdigest (md5 (number_query n)).
Proof.
  pose proof (number_query_digits n) as Hdigits.
  assert (Hclean : all_chars (fun c => negb (is_space c)) (number_query n)
                   = true).
  { eapply all_chars_impl; [| exact Hdigits].
    intros c Hc. by apply alnum_not_space, digit_alnum. }
  assert (Htokens : tokens (process_query stops stemmer_stem md5
                              (number_query n)) = [number_query n]).
  { rewrite process_query_tokens. unfold strip.
    rewrite lstrip_no_space, rstrip_no_space, collapse_no_space by done.
    unfold process, remove_stopwords, stem.
    rewrite tokenize_digits by (by rewrite ?number_query_length; try lia).
    rewrite filter_cons, decide_True by (by apply stops_digits).
    simpl. by rewrite stem_digits. }
  split; [exact Htokens |].
  rewrite process_query_cache_key, Htokens. done.
Qed.

(** Among the one-token queries [number_query 0 .. number_query (2^128)]
    two have the same digest, hence the same cache key. *)
Lemma cache_key_collision :
  exists q1 q2 : string,
    let p1 := process_query stops stemmer_stem md5 q1 in
    let p2 := process_query stops stemmer_stem md5 q2 in
    tokens p1 <> [] /\ tokens p2 <> []
    /\ (forall t, t ∈ tokens p1 -> t ∉ tokens p2)
    /\ cache_key p1 = cache_key p2.
Proof.
  destruct (pigeonhole digest_bound (fun n => md5 (number_query n))
              (digest_bound + 1)%N) as (i & j & Hij & Hj & Hcollide).
  { lia. }
  { intros n _. apply md5_bound. }
  assert (Hrange : (digest_bound + 1 <= 10 ^ 39)%N) by (by vm_compute).
  assert (Hne : number_query i <> number_query j).
  { intros Heq. apply number_query_inj in Heq; lia. }
  exists (number_query i), (number_query j). cbv zeta.
  destruct (number_query_processed i) as [Hti Hki].
  destruct (number_query_processed j) as [Htj Hkj].
  rewrite Hti, Htj, Hki, Hkj. split; [done |]. split; [done |]. split.
  - intros t Ht Ht'. apply list_elem_of_singleton in Ht, Ht'. congruence.
  - simpl in Hcollide. by rewrite Hcollide.
Qed.

End CacheKeyCollisions.

Section CacheKeyExamples.
Import Py TextProcessor QueryProcessor Scenarios.
Local Open Scope string_scope.

Example process_query_whitespace :
  cleaned (process_query ∅ (fun t => t) length_digest "  hello   world  ")
  = "hello world".
Proof. reflexivity. Qed.

(** C4 as stated fails in its second half for MD5 and for every other
    digest of 128 bits: whatever the digest, the stop words and the
    stemmer (these two leaving tokens made of digits alone, as the
    English stop word list and the Porter stemmer do), some two queries
    with disjoint non-empty token sets get the same cache key. *)
Lemma cache_key_collision_unavoidable :
  ~ exists (stops : gset string) (stemmer_stem : string -> string)
           (md5 : string -> N),
      (forall s, (md5 s < digest_bound)%N)
      /\ (forall t, all_chars is_digit t = true -> stemmer_stem t = t)
      /\ (forall t, all_chars is_digit t = true -> t ∉ stops)
      /\ forall q1 q2 : string,
           let p1 := process_query stops stemmer_stem md5 q1 in
           let p2 := process_query stops stemmer_stem md5 q2 in
           tokens p1 <> [] -> tokens p2 <> [] ->
           (forall t, t ∈ tokens p1 -> t ∉ tokens p2) ->
           cache_key p1 <> cache_key p2.
Proof.
  intros (stops & stemmer_stem & md5 & Hbound & Hstem & Hstops & Hdiffer).
  destruct (cache_key_collision stops stemmer_stem md5 Hbound Hstem Hstops)
    as (q1 & q2 & Hne1 & Hne2 & Hdisjoint & Hsame).
  by apply (Hdiffer q1 q2).
Qed.

Lemma cache_key_spec_witness :
  cache_key (process_query ∅ (fun t => t) length_digest "foo bar")
  = cache_key (process_query ∅ (fun t => t) length_digest "bar  bar foo")
  /\ token_str (tokens (process_query ∅ (fun t => t) (fun _ => 0%N) "foo"))
     <> token_str (tokens (process_query ∅ (fun t => t) (fun _ => 0%N) "bar")).
Proof.
  split.
  - destruct (cache_key_spec ∅ (fun t => t) length_digest
                "foo bar" "bar  bar foo") as [Hsame _].
    apply Hsame.
    intros t. change (t ∈ ["foo"; "bar"] <-> t ∈ ["bar"; "bar"; "foo"]).
    rewrite !elem_of_cons, !elem_of_nil. tauto.
  - destruct (cache_key_spec ∅ (fun t => t) (fun _ => 0%N) "foo" "bar")
      as [_ Hdiffer].
    apply Hdiffer.
    + intros s. by vm_compute.
    + intros t [Hne Halnum]. split; [done |].
      eapply all_chars_impl; [apply alnum_not_space | done].
    + discriminate.
    + discriminate.
    + intros t Ht Ht'.
      change (t ∈ ["foo"]) in Ht. change (t ∈ ["bar"]) in Ht'.
      apply list_elem_of_singleton in Ht, Ht'. congruence.
Defined.

End CacheKeyExamples.

(* ===================================================================== *)
(** * Part III: further properties of the modelled services               *)
(* ===================================================================== *)

(** ** Tokens and positions *)
Section TokenShape.
Import Py TextProcessor.
Local Open Scope string_scope.

Lemma lower_char_not_upper (c : ascii) : is_upper (lower_char c) = false.
Proof.
  unfold lower_char. destruct (is_upper c) eqn:Hc; [| done].
  unfold is_upper, between, code in *.
  apply andb_true_iff in Hc as [Hlo Hhi].
  apply Nat.leb_le in Hlo, Hhi.
  rewrite nat_ascii_embedding by lia.
  apply andb_false_iff. right. apply Nat.leb_gt. lia.
Qed.

Lemma lower_not_upper (s : string) :
  all_chars (fun c => negb (is_upper c)) (lower s) = true.
Proof.
  induction s as [|c s IH]; simpl; [done |].
  by rewrite lower_char_not_upper, IH.
Qed.

(** The runs over a string keep every property of its characters. *)
Lemma runs_chars (p q : ascii -> bool) (s : string) :
  forall cur,
    all_chars q cur = true -> all_chars q s = true ->
    Forall (fun w => all_chars q w = true) (runs p cur s).
Proof.
  induction s as [|c s IH]; intros cur Hcur Hs; simpl.
  - unfold flush. destruct (is_empty cur); by repeat constructor.
  - simpl in Hs. apply andb_true_iff in Hs as [Hc Hs].
    destruct (p c).
    + apply IH; [| done]. rewrite all_chars_app, Hcur. simpl. by rewrite Hc.
    + apply Forall_app. split; [| by apply IH].
      unfold flush. destruct (is_empty cur); by repeat constructor.
Qed.

Lemma all_chars_and (p q : ascii -> bool) (s : string) :
  all_chars p s = true -> all_chars q s = true ->
  all_chars (fun c => p c && q c) s = true.
Proof.
  induction s as [|c s IH]; simpl; [done |].
  rewrite !andb_true_iff. intros [Hp Hps] [Hq Hqs].
  split; [by rewrite Hp, Hq | by apply IH].
Qed.

(** X1: every token that [tokenize] returns has 2 to 50 characters, all
    of them lower case letters or digits. *)
Theorem tokenize_token_shape (text t : string) :
  t ∈ tokenize text ->
  2 <= String.length t <= 50
  /\ all_chars (fun c => is_lower c || is_digit c) t = true.
Proof.
  unfold tokenize. destruct (is_empty text); [by intros ?%elem_of_nil |].
  cbv zeta. intros [Hlen Ht]%list_elem_of_filter. split; [exact Hlen |].
  unfold findall_alnum in Ht.
  pose proof (runs_words is_alnum (lower text) EmptyString eq_refl) as Hal.
  pose proof (runs_chars is_alnum (fun c => negb (is_upper c)) (lower text)
                EmptyString eq_refl (lower_not_upper text)) as Hlow.
  rewrite Forall_forall in Hal, Hlow.
  destruct (Hal t Ht) as [_ Halnum]. specialize (Hlow t Ht).
  eapply all_chars_impl; [| exact (all_chars_and _ _ _ Halnum Hlow)].
  intros c. unfold is_alnum. simpl.
  destruct (is_lower c), (is_upper c), (is_digit c); done.
Qed.

End TokenShape.

Section TokenShapeExamples.
Import Py TextProcessor.
Local Open Scope string_scope.

Lemma tokenize_token_shape_witness :
  2 <= String.length "hello" <= 50
  /\ all_chars (fun c => is_lower c || is_digit c) "hello" = true.
Proof.
  apply (tokenize_token_shape "Hello World! This is a Test-123." "hello").
  by apply (bool_decide_unpack _).
Defined.

End TokenShapeExamples.

Section PositionFacts.
Import Py TextProcessor.
Variable stops : gset string.
Variable stemmer_stem : string -> string.

Lemma elem_of_enumerate {A} (l : list A) (start pos : nat) (x : A) :
  (pos, x) ∈ enumerate start l <-> start <= pos /\ l !! (pos - start) = Some x.
Proof.
  revert start. induction l as [|y l IH]; intros start; simpl.
  - rewrite elem_of_nil, lookup_nil. split; [done | by intros [_ ?]].
  - rewrite elem_of_cons, IH. split.
    + intros [[= -> ->] | [Hle Hx]].
      * split; [lia |]. by rewrite Nat.sub_diag.
      * split; [lia |]. by replace (pos - start) with (S (pos - S start)) by lia.
    + intros [Hle Hx]. destruct (pos - start) as [|n] eqn:Hn.
      * left. injection Hx as ->. f_equal. lia.
      * right. split; [lia |]. by replace (pos - S start) with n by lia.
Qed.

Lemma positions_loop_elem (raw : list string) :
  forall (start : nat) (acc : list (string * nat)) (tok : string) (pos : nat),
    (tok, pos) ∈ foldl (positions_step stops stemmer_stem) acc
                       (enumerate start raw) <->
    (tok, pos) ∈ acc
    \/ exists t, (pos, t) ∈ enumerate start raw /\ (t ∉ stops)
                 /\ tok = stemmer_stem t.
Proof.
  induction raw as [|u raw IH]; intros start acc tok pos; simpl.
  - split; [by left |]. intros [? | (t & Hin & _)]; [done |].
    by apply elem_of_nil in Hin.
  - rewrite IH. cbn [positions_step]. split.
    + intros [Hacc | (t & Hin & Hstop & ->)].
      * destruct (decide (u ∉ stops)) as [Hu | Hu]; [| by left].
        apply elem_of_app in Hacc as [Hacc | Hnew]; [by left |].
        apply list_elem_of_singleton in Hnew as [= -> ->].
        right. exists u. split; [by left | done].
      * right. exists t. split; [by right | done].
    + intros [Hacc | (t & Hin & Hstop & ->)].
      * left. destruct (decide (u ∉ stops)); [| done].
        apply elem_of_app. by left.
      * apply elem_of_cons in Hin as [[= -> ->] | Hin].
        -- left. rewrite decide_True by done.
           apply elem_of_app. right. by apply list_elem_of_singleton.
        -- right. by exists t.
Qed.

Lemma positions_loop_sorted (raw : list string) :
  forall (start : nat) (acc : list (string * nat)),
    StronglySorted lt acc.*2 ->
    Forall (fun p => p < start) acc.*2 ->
    StronglySorted lt
      (foldl (positions_step stops stemmer_stem) acc (enumerate start raw)).*2.
Proof.
  induction raw as [|u raw IH]; intros start acc Hsorted Hbelow; [done |].
  simpl. apply IH.
  - destruct (decide (u ∉ stops)); [| done].
    rewrite fmap_app. apply StronglySorted_app. split; [| split].
    + intros p1 p2 H1 H2. simpl in H2. apply list_elem_of_singleton in H2 as ->.
      rewrite Forall_forall in Hbelow. by apply Hbelow.
    + done.
    + simpl. repeat constructor.
  - destruct (decide (u ∉ stops)).
    + rewrite fmap_app. apply Forall_app. split.
      * eapply Forall_impl; [done |]. intros; simpl in *; lia.
      * simpl. repeat constructor.
    + eapply Forall_impl; [done |]. intros; simpl in *; lia.
Qed.

(** X2: every pair [(token, pos)] of [process_with_positions] comes from
    the raw token at index [pos] of [tokenize(text)], which is no stop
    word and whose stem is [token]; and the positions are strictly
    increasing along the result. *)
Theorem process_with_positions_positions (text : string) :
  (forall tok pos,
     (tok, pos) ∈ process_with_positions stops stemmer_stem text ->
     exists t, tokenize text !! pos = Some t /\ (t ∉ stops)
               /\ tok = stemmer_stem t)
  /\ StronglySorted lt (process_with_positions stops stemmer_stem text).*2.
Proof.
  unfold process_with_positions. split.
  - intros tok pos [Hin | (t & Hin & Hstop & ->)]%positions_loop_elem.
    + by apply elem_of_nil in Hin.
    + apply elem_of_enumerate in Hin as [_ Hin].
      rewrite Nat.sub_0_r in Hin. by exists t.
  - apply positions_loop_sorted; constructor.
Qed.

End PositionFacts.

(** ** Query cleaning *)
Section CleaningFacts.
Import Py TextProcessor QueryProcessor.
Local Open Scope string_scope.

Lemma is_space_lower_char (c : ascii) : is_space (lower_char c) = is_space c.
Proof.
  unfold lower_char. destruct (is_upper c) eqn:Hc; [| done].
  unfold is_upper, is_space, between, code in *.
  apply andb_true_iff in Hc as [Hlo Hhi]. apply Nat.leb_le in Hlo, Hhi.
  rewrite nat_ascii_embedding by lia.
  transitivity false; [| symmetry];
    rewrite orb_false_iff, !andb_false_iff, !Nat.leb_gt; lia.
Qed.

Lemma lower_lstrip (s : string) : lower (lstrip s) = lstrip (lower s).
Proof.
  induction s as [|c s IH]; simpl; [done |].
  rewrite is_space_lower_char. by destruct (is_space c).
Qed.

Lemma is_empty_lower (s : string) : is_empty (lower s) = is_empty s.
Proof. by destruct s. Qed.

Lemma lower_rstrip (s : string) : lower (rstrip s) = rstrip (lower s).
Proof.
  induction s as [|c s IH]; simpl; [done |].
  rewrite is_space_lower_char, <- IH, is_empty_lower.
  by destruct (is_empty (rstrip s) && is_space c).
Qed.

Lemma lower_collapse (s : string) (in_ws : bool) :
  lower (collapse_ws in_ws s) = collapse_ws in_ws (lower s).
Proof.
  revert in_ws. induction s as [|c s IH]; intros in_ws; simpl; [done |].
  rewrite is_space_lower_char.
  destruct (is_space c), in_ws; simpl; by rewrite ?IH.
Qed.

Variable p : ascii -> bool.
Hypothesis p_not_space : forall c, is_space c = true -> p c = false.

Lemma runs_spaces (s : string) :
  all_chars is_space s = true -> runs p "" s = [].
Proof.
  induction s as [|c s IH]; simpl; [done |].
  rewrite andb_true_iff. intros [Hc Hs].
  by rewrite (p_not_space c Hc), (IH Hs).
Qed.

Lemma runs_lstrip (s : string) : runs p "" (lstrip s) = runs p "" s.
Proof.
  induction s as [|c s IH]; simpl; [done |].
  destruct (is_space c) eqn:Hc; [| done].
  by rewrite (p_not_space c Hc), IH.
Qed.

Lemma rstrip_empty_spaces (s : string) :
  rstrip s = "" -> all_chars is_space s = true.
Proof.
  induction s as [|c s IH]; simpl; [done |].
  destruct (is_empty (rstrip s)) eqn:He; simpl; [| done].
  destruct (is_space c) eqn:Hc; [| done].
  intros _. apply IH. by destruct (rstrip s).
Qed.

Lemma runs_rstrip (s : string) :
  forall cur, runs p cur (rstrip s) = runs p cur s.
Proof.
  induction s as [|c s IH]; intros cur; simpl; [done |].
  destruct (is_empty (rstrip s) && is_space c) eqn:Hcase.
  - apply andb_true_iff in Hcase as [He Hc].
    rewrite (p_not_space c Hc). simpl.
    rewrite runs_spaces, app_nil_r; [done |].
    apply rstrip_empty_spaces. by destruct (rstrip s).
  - simpl. by rewrite !IH.
Qed.

Lemma runs_collapse (s : string) :
  forall (in_ws : bool) (cur : string),
    (in_ws = true -> cur = "") ->
    runs p cur (collapse_ws in_ws s) = runs p cur s.
Proof.
  induction s as [|c s IH]; intros in_ws cur Hcur; simpl; [done |].
  destruct (is_space c) eqn:Hc.
  - rewrite (p_not_space c Hc). destruct in_ws.
    + rewrite (Hcur eq_refl). simpl. by apply IH.
    + simpl. rewrite (p_not_space " "%char eq_refl). f_equal. by apply IH.
  - simpl. destruct (p c); by rewrite IH.
Qed.

End CleaningFacts.

Section ProcessQueryTokens.
Import Py TextProcessor QueryProcessor.
Local Open Scope string_scope.
Variable stops : gset string.
Variable stemmer_stem : string -> string.
Variable md5 : string -> N.

Lemma alnum_not_space_false (c : ascii) : is_space c = true -> is_alnum c = false.
Proof.
  intros Hc. destruct (is_alnum c) eqn:Ha; [| done].
  apply alnum_not_space in Ha. by rewrite Hc in Ha.
Qed.

Lemma tokenize_cleaned (query : string) :
  tokenize (collapse_ws false (strip query)) = tokenize query.
Proof.
  assert (Hruns : findall_alnum (lower (collapse_ws false (strip query)))
                  = findall_alnum (lower query)).
  { unfold findall_alnum, strip.
    rewrite lower_collapse, lower_rstrip, lower_lstrip.
    rewrite (runs_collapse is_alnum alnum_not_space_false) by done.
    rewrite (runs_rstrip is_alnum alnum_not_space_false).
    apply (runs_lstrip is_alnum alnum_not_space_false). }
  unfold tokenize. cbv zeta. rewrite Hruns.
  destruct query as [|c r]; [done |].
  destruct (collapse_ws false (strip (String c r))) as [|c' r'] eqn:Hclean;
    [| done].
  change (is_empty "") with true. change (is_empty (String c r)) with false.
  cbv iota. by rewrite <- Hruns.
Qed.

(** X3: the whitespace cleaning of [process_query] does not change the
    tokens: [tokens] is what [TextProcessor.process] returns on the query
    as typed, [raw_tokens] is the stop-word-filtered token list of the
    query as typed, and [tokens] is [raw_tokens] stemmed one by one. *)
Theorem process_query_tokens_of_query (query : string) :
  tokens (process_query stops stemmer_stem md5 query)
    = process stops stemmer_stem query true
  /\ raw_tokens (process_query stops stemmer_stem md5 query)
     = remove_stopwords stops (tokenize query)
  /\ tokens (process_query stops stemmer_stem md5 query)
     = stem stemmer_stem
         (raw_tokens (process_query stops stemmer_stem md5 query)).
Proof.
  unfold process_query, process. simpl.
  by rewrite tokenize_cleaned.
Qed.

End ProcessQueryTokens.

(** ** BM25: saturation, dropped terms, scored documents *)
Section BM25Scoring.
Import Py BM25.
Local Open Scope R_scope.

Lemma length_norm_positive (doc_len : Z) (avgdl : R) :
  (0 <= doc_len)%Z -> 0 < avgdl ->
  0 < Settings.bm25_k1
      * (1 - Settings.bm25_b + Settings.bm25_b * IZR doc_len / avgdl).
Proof.
  intros Hlen Havg. unfold Settings.bm25_k1, Settings.bm25_b.
  assert (Hl : 0 <= IZR doc_len) by (by apply IZR_le).
  assert (Hq : 0 <= 75 / 100 * IZR doc_len / avgdl).
  { unfold Rdiv. apply Rmult_le_pos; [lra |].
    left. by apply Rinv_0_lt_compat. }
  lra.
Qed.

(** X4: the term frequency component of the score saturates but never
    decreases: for a fixed document length, a larger [tf] gives a
    component at least as large (strictly larger for a strictly larger
    [tf]). *)
Theorem tf_component_monotone (tf1 tf2 doc_len : Z) (avgdl : R) :
  (0 <= tf1 <= tf2)%Z -> (0 <= doc_len)%Z -> 0 < avgdl ->
  tf_component Settings.bm25_k1 Settings.bm25_b tf1 doc_len avgdl
  <= tf_component Settings.bm25_k1 Settings.bm25_b tf2 doc_len avgdl
  /\ ((tf1 < tf2)%Z ->
      tf_component Settings.bm25_k1 Settings.bm25_b tf1 doc_len avgdl
      < tf_component Settings.bm25_k1 Settings.bm25_b tf2 doc_len avgdl).
Proof.
  intros [H1 H12] Hlen Havg.
  pose proof (length_norm_positive doc_len avgdl Hlen Havg) as Hc.
  unfold tf_component.
  set (c := Settings.bm25_k1
            * (1 - Settings.bm25_b + Settings.bm25_b * IZR doc_len / avgdl))
    in *.
  assert (Hk : 0 < Settings.bm25_k1 + 1) by (unfold Settings.bm25_k1; lra).
  assert (Ht1 : 0 <= IZR tf1) by (by apply IZR_le).
  assert (Ht12 : IZR tf1 <= IZR tf2) by (by apply IZR_le).
  assert (Heq : forall t, 0 <= t ->
            t * (Settings.bm25_k1 + 1) / (t + c)
            = (Settings.bm25_k1 + 1) * (1 - c / (t + c))).
  { intros t Ht. field. lra. }
  rewrite (Heq (IZR tf1)), (Heq (IZR tf2)) by lra.
  assert (Hinv : forall a b, 0 <= a -> a <= b -> c / (b + c) <= c / (a + c)).
  { intros a b Ha Hab. unfold Rdiv. apply Rmult_le_compat_l; [lra |].
    apply Rinv_le_contravar; lra. }
  split.
  - apply Rmult_le_compat_l; [lra |]. pose proof (Hinv _ _ Ht1 Ht12). lra.
  - intros Hlt. assert (Hlt' : IZR tf1 < IZR tf2) by (by apply IZR_lt).
    apply Rmult_lt_compat_l; [lra |].
    assert (c / (IZR tf2 + c) < c / (IZR tf1 + c)); [| lra].
    unfold Rdiv. apply Rmult_lt_compat_l; [lra |].
    apply Rinv_lt_contravar; [| lra].
    apply Rmult_lt_0_compat; lra.
Qed.

Lemma idf_not_positive_iff (N df : Z) :
  (0 <= df <= N)%Z -> (idf N df <= 0 <-> df = 0%Z).
Proof.
  intros Hdf. split.
  - intros Hidf. destruct (decide (df = 0%Z)) as [-> | Hne]; [done |].
    pose proof (idf_positive N df ltac:(lia)). lra.
  - intros ->. rewrite idf_absent. lra.
Qed.

(** X5: a query term without any posting gets IDF 0 and is left out of
    the active terms; with document frequencies between 0 and [N], the
    active terms are exactly the query terms that have a posting. *)
Theorem active_terms_have_postings (N : Z) (index : list Posting)
    (query_terms : list string) (t : string) :
  (document_frequency index t <= N)%Z ->
  t ∈ active_terms
        (idf_scores N (doc_frequencies index query_terms) query_terms)
        query_terms
  <-> t ∈ query_terms /\ (1 <= document_frequency index t)%Z.
Proof.
  intros Hbound. unfold active_terms. rewrite list_elem_of_filter.
  split.
  - intros [Hpos Hin]. split; [done |].
    rewrite idf_scores_lookup, doc_frequencies_lookup in Hpos by done.
    simpl in Hpos.
    destruct (decide (document_frequency index t = 0%Z)) as [Hz | Hnz].
    + rewrite Hz, idf_absent in Hpos. lra.
    + unfold document_frequency in *. lia.
  - intros [Hin Hdf]. split; [| done].
    rewrite idf_scores_lookup, doc_frequencies_lookup by done. simpl.
    apply idf_positive. split; [done | apply Hbound].
Qed.

Lemma score_fold_invariant (avgdl : R) (scores : gmap string R)
    (P : string -> Prop) (rows : list JoinedRow) :
  (forall row, row ∈ rows ->
     P (row_document_id row)
     /\ 0 < default 0 (scores !! row_term row)
            * tf_component Settings.bm25_k1 Settings.bm25_b
                (row_tf row) (row_doc_len row) avgdl) ->
  forall doc_scores : gmap string R,
    (forall d s, doc_scores !! d = Some s -> 0 < s /\ P d) ->
    forall d s,
      foldl (score_step Settings.bm25_k1 Settings.bm25_b avgdl scores)
            doc_scores rows !! d = Some s ->
      0 < s /\ P d.
Proof.
  induction rows as [|row rows IH]; intros Hrows doc_scores Hacc d s; simpl.
  - apply Hacc.
  - apply IH.
    + intros r Hr. apply Hrows. by right.
    + intros d' s' Hlook. unfold score_step in Hlook.
      destruct (Hrows row ltac:(by left)) as [HP Hpos].
      destruct (decide (row_document_id row = d')) as [<- | Hne].
      * rewrite lookup_insert_eq in Hlook. injection Hlook as <-.
        split; [| done].
        destruct (doc_scores !! row_document_id row) as [s0 |] eqn:Hold;
          simpl.
        -- destruct (Hacc _ _ Hold) as [Hs0 _]. lra.
        -- lra.
      * rewrite lookup_insert_ne in Hlook by done. by apply Hacc.
Qed.

Lemma elem_of_joined_rows (index : list Posting) (stats : list DocumentStats)
    (active : list string) (row : JoinedRow) :
  row ∈ joined_rows index stats active ->
  exists p st,
    p ∈ index /\ st ∈ stats /\ term p ∈ active
    /\ stats_document_id st = document_id p
    /\ row = mkJoinedRow (document_id p) (term p) (term_frequency p)
                         (total_terms st).
Proof.
  unfold joined_rows. intros Hrow.
  apply list_elem_of_bind in Hrow as (p & Hrow & Hp).
  destruct (decide (term p ∈ active)) as [Hact |];
    [| by apply elem_of_nil in Hrow].
  apply list_elem_of_bind in Hrow as (st & Hrow & Hst).
  destruct (decide (stats_document_id st = document_id p)) as [Heq |];
    [| by apply elem_of_nil in Hrow].
  apply list_elem_of_singleton in Hrow. by exists p, st.
Qed.

(** X6: every score that [bm25_search] accumulates is positive, and a
    document is only scored when it has a [document_stats] row and a
    posting for one of the query terms (postings have [tf >= 1], lengths
    are not negative, [avgdl > 0]). *)
Theorem bm25_scores_matching (query_terms : list string)
    (coll : CollectionStats) (index : list Posting)
    (stats : list DocumentStats) (d : string) (s : R) :
  0 < avg_document_length coll ->
  Forall (fun p => (1 <= term_frequency p)%Z) index ->
  Forall (fun st => (0 <= total_terms st)%Z) stats ->
  bm25_scores query_terms (Some coll) index stats !! d = Some s ->
  0 < s
  /\ exists p st,
       p ∈ index /\ st ∈ stats /\ document_id p = d
       /\ stats_document_id st = d /\ term p ∈ query_terms.
Proof.
  intros Havg Htf Hlen. unfold bm25_scores.
  destruct query_terms as [|q query_terms]; [by rewrite lookup_empty |].
  destruct (total_documents coll =? 0)%Z; [by rewrite lookup_empty |].
  set (qt := q :: query_terms).
  set (scores := idf_scores _ _ _).
  destruct (active_terms scores qt) as [|a active] eqn:Hactive;
    [by rewrite lookup_empty |].
  rewrite <- Hactive.
  apply (score_fold_invariant _ scores
           (fun d => exists p st,
              p ∈ index /\ st ∈ stats /\ document_id p = d
              /\ stats_document_id st = d /\ term p ∈ qt)).
  - intros row Hrow.
    apply elem_of_joined_rows in Hrow
      as (p & st & Hp & Hst & Hact & Hid & ->). simpl.
    apply list_elem_of_filter in Hact as [Hidf Hq].
    split; [by exists p, st |].
    apply Rmult_lt_0_compat; [done |].
    apply tf_component_positive; [| | done].
    + by apply (proj1 (Forall_forall _ _) Htf).
    + by apply (proj1 (Forall_forall _ _) Hlen).
  - intros d' s'. by rewrite lookup_empty.
Qed.

End BM25Scoring.

Section BM25ScoringExamples.
Import Py BM25 Scenarios.
Local Open Scope string_scope.

Lemma tf_component_monotone_witness :
  (tf_component Settings.bm25_k1 Settings.bm25_b 1 3 3
   < tf_component Settings.bm25_k1 Settings.bm25_b 2 3 3)%R.
Proof.
  destruct (tf_component_monotone 1 2 3 3) as [_ Hlt].
  - lia.
  - lia.
  - lra.
  - apply Hlt. lia.
Defined.

Lemma active_terms_have_postings_witness :
  "cat" ∈ active_terms
            (idf_scores 1 (doc_frequencies cat_index ["cat"; "dog"])
               ["cat"; "dog"])
            ["cat"; "dog"].
Proof.
  apply (active_terms_have_postings 1 cat_index ["cat"; "dog"] "cat").
  - vm_compute. discriminate.
  - split; [by left | vm_compute; discriminate].
Defined.

Lemma bm25_scores_matching_witness :
  exists s : R,
    bm25_scores ["cat"] (Some cat_collection) cat_index cat_stats !! "d1"
    = Some s
    /\ (0 < s)%R.
Proof.
  assert (Hsome : exists s : R,
            bm25_scores ["cat"] (Some cat_collection) cat_index cat_stats
              !! "d1" = Some s).
  { unfold bm25_scores. simpl total_documents. simpl Z.eqb. cbv iota.
    rewrite cat_active_terms, cat_idf_scores.
    change (joined_rows cat_index cat_stats ["cat"])
      with [mkJoinedRow "d1" "cat" 1 1].
    simpl foldl.
    pose proof (score_step_lookup Settings.bm25_k1 Settings.bm25_b 1
                  {["cat" := idf 1 1]} ∅ (mkJoinedRow "d1" "cat" 1 1))
      as Hrow.
    simpl in Hrow. rewrite Hrow. by eexists. }
  destruct Hsome as [s Hscore]. exists s. split; [done |].
  apply (bm25_scores_matching ["cat"] cat_collection cat_index cat_stats
           "d1" s).
  - simpl. lra.
  - apply Forall_cons_2; [simpl; lia | apply Forall_nil_2].
  - apply Forall_cons_2; [simpl; lia | apply Forall_nil_2].
  - exact Hscore.
Defined.

End BM25ScoringExamples.

(** ** Snippets and highlighting *)
Section SnippetFacts.
Import Py BM25.
Local Open Scope Z_scope.

Lemma length_string_of_list_ascii (l : list ascii) :
  String.length (string_of_list_ascii l) = length l.
Proof. induction l as [|c l IH]; simpl; [done | by rewrite IH]. Qed.

Lemma length_list_ascii_of_string (s : string) :
  length (list_ascii_of_string s) = String.length s.
Proof. induction s as [|c s IH]; simpl; [done | by rewrite IH]. Qed.

Lemma string_length_app (s1 s2 : string) :
  String.length (s1 ++ s2)%string
  = (String.length s1 + String.length s2)%nat.
Proof. induction s1 as [|c s1 IH]; simpl; [done | by rewrite IH]. Qed.

Lemma slice_length_le {A} (l : list A) (a b : Z) :
  0 <= a -> 0 <= b ->
  Z.of_nat (length (slice l a b)) <= Z.max 0 (b - a).
Proof.
  intros Ha Hb. unfold slice, clamp_index.
  destruct (Z.ltb_spec a 0); [lia |].
  destruct (Z.ltb_spec b 0); [lia |].
  rewrite length_take. lia.
Qed.

Lemma substr_length_le (s : string) (a b : Z) :
  0 <= a -> 0 <= b -> str_len (substr s a b) <= Z.max 0 (b - a).
Proof.
  intros Ha Hb. unfold str_len, substr.
  rewrite length_string_of_list_ascii. by apply slice_length_le.
Qed.

Lemma startswith_length (sub s : string) :
  startswith sub s = true -> str_len sub <= str_len s.
Proof.
  unfold str_len. revert s.
  induction sub as [|a sub IH]; intros [|c s]; simpl; try (done || lia).
  intros [_ Hrest]%andb_prop. apply IH in Hrest. lia.
Qed.

Lemma find_from_bounds (sub s : string) (i : Z) :
  find_from sub s i = -1
  \/ i <= find_from sub s i
     /\ find_from sub s i + str_len sub <= i + str_len s.
Proof.
  revert i. induction s as [|c s IH]; intros i; simpl.
  - destruct (startswith sub "") eqn:Hsw; [| by left].
    right. apply startswith_length in Hsw. lia.
  - destruct (startswith sub (String c s)) eqn:Hsw.
    + right. apply startswith_length in Hsw. lia.
    + destruct (IH (i + 1)) as [Hnone | [Hlo Hhi]]; [by left |].
      right. unfold str_len in *. simpl String.length. lia.
Qed.

Lemma find_bounds (s sub : string) :
  find s sub = -1
  \/ 0 <= find s sub /\ find s sub + str_len sub <= str_len s.
Proof.
  unfold find. destruct (find_from_bounds sub s 0) as [? | [? ?]];
    [by left | right; lia].
Qed.

Lemma find_empty (s : string) : find s "" = 0.
Proof. unfold find. by destruct s. Qed.

Lemma find_lt_length (s sub : string) :
  s <> EmptyString -> find s sub <> -1 -> 0 <= find s sub < str_len s.
Proof.
  intros Hs Hfound. destruct sub as [|a sub].
  - rewrite find_empty. unfold str_len. destruct s; [done | simpl; lia].
  - destruct (find_bounds s (String a sub)) as [? | [Hlo Hhi]]; [done |].
    unfold str_len in *. simpl String.length in Hhi. lia.
Qed.


End SnippetFacts.

Section SnippetWindow.
Import Py BM25.
Local Open Scope Z_scope.

Variable str_lower : string -> string.

(** X7: for [max_length >= 0] the snippet has at most [max_length + 6]
    characters: a window of at most [max_length] characters of the
    content and at most two ellipses. *)
Theorem generate_snippet_length (content : string)
    (query_terms : list string) (max_length : Z) :
  0 <= max_length ->
  str_len (generate_snippet str_lower content query_terms max_length)
  <= max_length + 6.
Proof.
  intros Hmax. unfold generate_snippet.
  destruct (is_empty content); [unfold str_len; simpl; lia |].
  set (best := best_position str_lower content query_terms).
  destruct (best =? str_len content).
  - pose proof (substr_length_le content 0 max_length ltac:(lia) Hmax).
    unfold str_len in *. rewrite string_length_app.
    destruct (max_length <? _); simpl; lia.
  - set (start := Z.max 0 (best - 50)).
    set (end_ := Z.min (str_len content) (start + max_length)).
    assert (Hend : 0 <= end_) by (unfold end_, start, str_len; lia).
    pose proof (substr_length_le content start end_ ltac:(unfold start; lia)
                  Hend) as Hwin.
    assert (Hle : str_len (substr content start end_) <= max_length)
      by (unfold end_ in *; lia).
    unfold str_len in *.
    destruct (0 <? start), (end_ <? _);
      rewrite ?string_length_app; simpl; lia.
Qed.


End SnippetWindow.

Section HighlightFacts.
Import Py BM25.
Local Open Scope string_scope.

Variable re_template : string -> outcome (string -> string).

(** The pattern of [term] matches nowhere in [s]. *)
Lemma sub_go_no_match (term : string) (expand : string -> string)
    (s : string) :
  (forall pre post, s = pre ++ post -> match_here term post = false) ->
  sub_go term expand 0 s = s.
Proof.
  induction s as [|c s IH]; intros Hnone; [done |].
  simpl. rewrite (Hnone "" (String c s) eq_refl).
  f_equal. apply IH. intros pre post ->.
  by apply (Hnone (String c pre)).
Qed.

Lemma has_backslash_app (a b : string) :
  has_backslash (a ++ b) = has_backslash a || has_backslash b.
Proof.
  unfold has_backslash. rewrite all_chars_app. apply negb_andb.
Qed.

Lemma template_backslash (term : string) :
  has_backslash ("<mark>" ++ term ++ "</mark>") = has_backslash term.
Proof.
  rewrite !has_backslash_app.
  change (has_backslash "<mark>") with false.
  change (has_backslash "</mark>") with false.
  by rewrite orb_false_r.
Qed.

(** A term without backslash gives a replacement that stands for
    itself. *)
Lemma compile_template_literal (term : string) :
  has_backslash term = false ->
  compile_template re_template ("<mark>" ++ term ++ "</mark>")
  = Returned (fun _ => "<mark>" ++ term ++ "</mark>").
Proof.
  intros Hterm. unfold compile_template. by rewrite template_backslash, Hterm.
Qed.

Lemma sub_ignorecase_no_match (term s : string)
    (expand : string -> string) :
  (forall pre post, s = pre ++ post -> match_here term post = false) ->
  compile_template re_template ("<mark>" ++ term ++ "</mark>")
  = Returned expand ->
  sub_ignorecase re_template term ("<mark>" ++ term ++ "</mark>") s
  = Returned s.
Proof.
  intros Hnone Hcompile. unfold sub_ignorecase. rewrite Hcompile.
  destruct term as [|a term].
  - by specialize (Hnone "" s eq_refl).
  - simpl is_empty. cbv iota. by rewrite sub_go_no_match.
Qed.

Lemma highlight_fold_raised (query_terms : list string) (msg : string) :
  foldl (fun result term =>
           match result with
           | Raised msg => Raised msg
           | Returned result =>
               sub_ignorecase re_template term ("<mark>" ++ term ++ "</mark>")
                              result
           end)
        (Raised msg) query_terms
  = Raised msg.
Proof. induction query_terms as [|term query_terms IH]; [done | apply IH]. Qed.

Lemma highlight_fold_no_match (s : string) (query_terms : list string) :
  (forall term pre post,
     term ∈ query_terms -> s = pre ++ post ->
     match_here term post = false) ->
  (forall term, term ∈ query_terms ->
     exists expand,
       compile_template re_template ("<mark>" ++ term ++ "</mark>")
       = Returned expand) ->
  foldl (fun result term =>
           match result with
           | Raised msg => Raised msg
           | Returned result =>
               sub_ignorecase re_template term ("<mark>" ++ term ++ "</mark>")
                              result
           end)
        (Returned s) query_terms
  = Returned s.
Proof.
  induction query_terms as [|term query_terms IH]; intros Hnone Hcompile;
    [done |].
  cbn [foldl]. destruct (Hcompile term ltac:(by left)) as [expand Hexpand].
  rewrite (sub_ignorecase_no_match term s expand);
    [| intros pre post; apply Hnone; by left | done].
  apply IH.
  - intros t pre post Hin. apply Hnone. by right.
  - intros t Hin. apply Hcompile. by right.
Qed.

(** Terms without backslash never make [highlight_terms] raise. *)
Lemma highlight_terms_returns (text : string) (query_terms : list string) :
  Forall (fun term => has_backslash term = false) query_terms ->
  exists result,
    highlight_terms re_template text query_terms = Returned result.
Proof.
  intros Hterms. unfold highlight_terms.
  destruct (is_empty text); [by eexists |].
  generalize text. clear text.
  induction Hterms as [|term query_terms Hterm Hterms IH]; intros s;
    [by eexists |].
  cbn [foldl]. unfold sub_ignorecase at 2.
  rewrite (compile_template_literal term Hterm). apply IH.
Qed.

(** X9: [highlight_terms] returns the text unchanged when no query term
    matches anywhere in it (matching ignores case) and [re] accepts the
    replacement template of every term, as it does for every term
    without backslash. The template is compiled before the text is
    searched: on a text that is not empty, the first term whose template
    [re] rejects makes [highlight_terms] raise, although nothing
    matches. *)
Theorem highlight_terms_no_match (text : string) (query_terms : list string) :
  (forall term pre post,
     term ∈ query_terms -> text = pre ++ post ->
     match_here term post = false) ->
  ((forall term, term ∈ query_terms ->
      exists expand,
        compile_template re_template ("<mark>" ++ term ++ "</mark>")
        = Returned expand) ->
   highlight_terms re_template text query_terms = Returned text)
  /\ (Forall (fun term => has_backslash term = false) query_terms ->
      highlight_terms re_template text query_terms = Returned text)
  /\ (forall before term after msg,
        text <> "" ->
        query_terms = (before ++ term :: after)%list ->
        (forall t, t ∈ before ->
           exists expand,
             compile_template re_template ("<mark>" ++ t ++ "</mark>")
             = Returned expand) ->
        compile_template re_template ("<mark>" ++ term ++ "</mark>")
        = Raised msg ->
        highlight_terms re_template text query_terms = Raised msg).
Proof.
  intros Hnone.
  assert (Hfirst : (forall term, term ∈ query_terms ->
                      exists expand,
                        compile_template re_template
                          ("<mark>" ++ term ++ "</mark>")
                        = Returned expand) ->
                   highlight_terms re_template text query_terms
                   = Returned text).
  { intros Hcompile. unfold highlight_terms.
    destruct text as [|c text]; [done |]. simpl is_empty. cbv iota.
    by apply highlight_fold_no_match. }
  split; [exact Hfirst |]. split.
  - intros Hterms. apply Hfirst. intros term Hin. eexists.
    apply compile_template_literal.
    by apply (proj1 (Forall_forall _ _) Hterms).
  - intros before term after msg Htext -> Hbefore Hraise.
    unfold highlight_terms.
    destruct text as [|c text]; [done |]. simpl is_empty. cbv iota.
    rewrite foldl_app.
    rewrite highlight_fold_no_match; [| | done].
    + cbn [foldl]. unfold sub_ignorecase at 2. rewrite Hraise.
      apply highlight_fold_raised.
    + intros t pre post Hin. apply Hnone. apply elem_of_app. by left.
Qed.

End HighlightFacts.

Section SnippetExamples.
Import Py BM25.
Local Open Scope string_scope.

Lemma generate_snippet_length_witness :
  (str_len (generate_snippet lower "search engines index the web"
              ["index"] 10)
   <= 10 + 6)%Z.
Proof. apply generate_snippet_length. lia. Defined.


Lemma highlight_terms_no_match_witness :
  highlight_terms (fun _ => Raised "re.error") "cat" ["dog"]
  = Returned "cat".
Proof.
  destruct (highlight_terms_no_match (fun _ => Raised "re.error") "cat"
              ["dog"]) as (_ & Hliteral & _).
  - intros term pre post Hin Htext.
    apply list_elem_of_singleton in Hin as ->.
    do 3 (destruct pre as [|? pre]; simpl in Htext;
            [by subst post | injection Htext as _ Htext]).
    destruct pre; simpl in Htext; [by subst post | discriminate].
  - apply Hliteral. by repeat constructor.
Defined.

End SnippetExamples.

(** ** Reciprocal rank fusion: the scored documents and their scores *)
Section FusionBounds.
Import Py Hybrid.

Lemma elem_of_enumerate_snd {A} (l : list A) (start : nat) (i : nat) (x : A) :
  (i, x) ∈ enumerate start l -> start <= i < start + length l /\ x ∈ l.
Proof.
  revert start. induction l as [|y l IH]; intros start Hin; simpl in *.
  - by apply elem_of_nil in Hin.
  - apply elem_of_cons in Hin as [Heq | Hin].
    + injection Heq as -> ->. split; [lia | by left].
    + apply IH in Hin as [Hi Hx]. split; [lia | by right].
Qed.

Lemma rank_fold_range (items : list (nat * SearchResult))
    (ranks : gmap string nat) (d : string) (r : nat) :
  foldl rank_step ranks items !! d = Some r ->
  ranks !! d = Some r
  \/ exists result, (r, result) ∈ items /\ document_id result = d.
Proof.
  revert ranks. induction items as [|[i x] items IH]; intros ranks; simpl.
  - by left.
  - intros Hlook. apply IH in Hlook as [Hlook | (y & Hin & Hd)].
    + destruct (decide (document_id x = d)) as [<- | Hne].
      * rewrite lookup_insert_eq in Hlook. injection Hlook as ->.
        right. exists x. split; [by left | done].
      * rewrite lookup_insert_ne in Hlook by done. by left.
    + right. exists y. split; [by right | done].
Qed.

Lemma rank_fold_dom (items : list (nat * SearchResult))
    (ranks : gmap string nat) (d : string) :
  is_Some (foldl rank_step ranks items !! d)
  <-> is_Some (ranks !! d) \/ d ∈ (document_id ∘ snd <$> items).
Proof.
  revert ranks. induction items as [|[i x] items IH]; intros ranks; simpl.
  - split; [by left |]. intros [? | Hin]; [done |].
    by apply elem_of_nil in Hin.
  - rewrite IH. csimpl. rewrite elem_of_cons.
    destruct (decide (document_id x = d)) as [<- | Hne].
    + rewrite lookup_insert_eq. split; [intros _; right; by left |].
      intros _. left. by eexists.
    + rewrite lookup_insert_ne by done. split.
      * intros [? | ?]; [by left | right; by right].
      * intros [? | [? | ?]]; [by left | done | by right].
Qed.

Lemma enumerate_snd {A} (l : list A) (start : nat) :
  snd <$> enumerate start l = l.
Proof.
  revert start. induction l as [|x l IH]; intros start; [done |].
  csimpl. by rewrite IH.
Qed.

Lemma rank_map_dom (results : list SearchResult) (d : string) :
  is_Some (rank_map results !! d) <-> d ∈ (document_id <$> results).
Proof.
  unfold rank_map. rewrite rank_fold_dom, lookup_empty.
  rewrite list_fmap_compose, enumerate_snd. split.
  - intros [[? ?] | ?]; done.
  - by right.
Qed.

Lemma rank_map_range (results : list SearchResult) (d : string) (r : nat) :
  rank_map results !! d = Some r -> 1 <= r <= length results.
Proof.
  unfold rank_map. intros Hlook.
  apply rank_fold_range in Hlook as [Hlook | (x & Hin & _)].
  - by rewrite lookup_empty in Hlook.
  - apply elem_of_enumerate_snd in Hin as [? _]. lia.
Qed.

Lemma reciprocal_bounds (k : Z) (r : nat) :
  (0 <= k)%Z -> 1 <= r ->
  (0 < 1 / inject_Z (k + Z.of_nat r)
   /\ 1 / inject_Z (k + Z.of_nat r) <= 1 / inject_Z (k + 1))%Q.
Proof.
  intros Hk Hr.
  destruct (k + Z.of_nat r)%Z as [|p|p] eqn:Hn; [lia | | lia].
  destruct (k + 1)%Z as [|q|q] eqn:Hm; [lia | | lia].
  assert (Hqp : (q <= p)%positive) by lia.
  unfold Qdiv, Qinv, Qmult, Qlt, Qle. simpl. lia.
Qed.

Lemma rrf_fold_domain (k : Z) (bm25_ranks semantic_ranks : gmap string nat)
    (ids : list string) :
  forall (acc scores : gmap string Q),
    foldl (rrf_step k bm25_ranks semantic_ranks) (Returned acc) ids
    = Returned scores ->
    forall d sc,
      scores !! d = Some sc ->
      acc !! d = Some sc
      \/ d ∈ ids /\ rrf_score k bm25_ranks semantic_ranks d = Returned sc.
Proof.
  induction ids as [|d0 ids IH]; intros acc scores; simpl.
  - intros [= ->] d sc Hlook. by left.
  - destruct (rrf_score k bm25_ranks semantic_ranks d0) as [sc0 | msg]
      eqn:Hsc0.
    + intros Hrun d sc Hlook.
      destruct (IH _ _ Hrun d sc Hlook) as [Hacc | [Hin Hsc]].
      * destruct (decide (d0 = d)) as [<- | Hne].
        -- rewrite lookup_insert_eq in Hacc. injection Hacc as ->.
           right. split; [by left | done].
        -- rewrite lookup_insert_ne in Hacc by done. by left.
      * right. split; [by right | done].
    + intros Hrun. exfalso. clear -Hrun.
      induction ids as [|d1 ids IH]; simpl in Hrun; [done | by apply IH].
Qed.

Lemma rrf_score_bounds (k : Z) (bm25_results semantic_results : list SearchResult)
    (d : string) :
  (0 <= k)%Z ->
  d ∈ (document_id <$> bm25_results)
  \/ d ∈ (document_id <$> semantic_results) ->
  exists sc,
    rrf_score k (rank_map bm25_results) (rank_map semantic_results) d
    = Returned sc
    /\ (0 < sc /\ sc <= 2 / inject_Z (k + 1))%Q.
Proof.
  intros Hk Hin. unfold rrf_score, add_reciprocal.
  assert (Hu : (0 < 1 / inject_Z (k + 1))%Q).
  { pose proof (reciprocal_bounds k 1 Hk ltac:(lia)) as [H0 _].
    by rewrite Nat2Z.inj_succ in H0. }
  assert (Htwo : (2 / inject_Z (k + 1)
                  == 1 / inject_Z (k + 1) + 1 / inject_Z (k + 1))%Q)
    by (unfold Qdiv; ring).
  destruct (rank_map bm25_results !! d) as [r1 |] eqn:H1;
    destruct (rank_map semantic_results !! d) as [r2 |] eqn:H2.
  - apply rank_map_range in H1, H2.
    rewrite !reciprocal_returns by (done || lia).
    eexists. split; [done |].
    pose proof (reciprocal_bounds k r1 Hk ltac:(lia)) as [? ?].
    pose proof (reciprocal_bounds k r2 Hk ltac:(lia)) as [? ?].
    rewrite Htwo. split; Lqa.lra.
  - apply rank_map_range in H1.
    rewrite !reciprocal_returns by (done || lia).
    eexists. split; [done |].
    pose proof (reciprocal_bounds k r1 Hk ltac:(lia)) as [? ?].
    rewrite Htwo. split; Lqa.lra.
  - apply rank_map_range in H2.
    rewrite !reciprocal_returns by (done || lia).
    eexists. split; [done |].
    pose proof (reciprocal_bounds k r2 Hk ltac:(lia)) as [? ?].
    rewrite Htwo. split; Lqa.lra.
  - exfalso. destruct Hin as [Hin | Hin];
      apply rank_map_dom in Hin as [? Hin]; congruence.
Qed.

(** X10: for a fusion constant [k >= 0] the loop of [hybrid_search] ends
    without error; it scores exactly the documents of the BM25 list and
    of the semantic list, and every score lies in [(0, 2/(k+1)]]. *)
Theorem rrf_scores_domain_bounds (k : Z)
    (bm25_results semantic_results : list SearchResult) :
  (0 <= k)%Z ->
  exists scores : gmap string Q,
    rrf_scores k bm25_results semantic_results = Returned scores
    /\ (forall d,
          is_Some (scores !! d)
          <-> d ∈ (document_id <$> bm25_results)
              \/ d ∈ (document_id <$> semantic_results))
    /\ (forall d sc,
          scores !! d = Some sc ->
          (0 < sc /\ sc <= 2 / inject_Z (k + 1))%Q).
Proof.
  intros Hk. unfold rrf_scores.
  set (ids := elements (dom (rank_map bm25_results)
                          ∪ dom (rank_map semantic_results))).
  assert (Hids : forall d,
            d ∈ ids <-> d ∈ (document_id <$> bm25_results)
                        \/ d ∈ (document_id <$> semantic_results)).
  { intros d. unfold ids.
    rewrite elem_of_elements, elem_of_union, !elem_of_dom.
    by rewrite !rank_map_dom. }
  destruct (rrf_fold_lookup k (rank_map bm25_results)
              (rank_map semantic_results) ids) with (acc := (∅ : gmap string Q))
    as (scores & Hrun & Hscores).
  { intros d Hd. apply Hids in Hd.
    destruct (rrf_score_bounds k bm25_results semantic_results d Hk Hd)
      as (sc & Hsc & _).
    by exists sc. }
  exists scores. split; [exact Hrun |]. split.
  - intros d. split.
    + intros [sc Hsc].
      destruct (rrf_fold_domain _ _ _ _ _ _ Hrun d sc Hsc) as [Hacc | [Hin _]].
      * by rewrite lookup_empty in Hacc.
      * by apply Hids.
    + intros Hd.
      destruct (rrf_score_bounds k bm25_results semantic_results d Hk Hd)
        as (sc & Hsc & _).
      exists sc. apply Hscores; [by apply Hids | done].
  - intros d sc Hsc.
    destruct (rrf_fold_domain _ _ _ _ _ _ Hrun d sc Hsc) as [Hacc | [Hin Hret]].
    + by rewrite lookup_empty in Hacc.
    + apply Hids in Hin.
      destruct (rrf_score_bounds k bm25_results semantic_results d Hk Hin)
        as (sc' & Hsc' & Hb).
      congruence.
Qed.

Lemma rrf_score_raises (k : Z) (bm25_ranks semantic_ranks : gmap string nat)
    (d msg : string) :
  rrf_score k bm25_ranks semantic_ranks d = Raised msg ->
  msg = "ZeroDivisionError"%string.
Proof.
  unfold rrf_score, add_reciprocal, reciprocal.
  destruct (bm25_ranks !! d) as [r1 |], (semantic_ranks !! d) as [r2 |];
    repeat (match goal with
            | |- context [(?x =? ?y)%Z] => destruct (x =? y)%Z
            end);
    congruence.
Qed.

Lemma rrf_fold_raised (k : Z) (bm25_ranks semantic_ranks : gmap string nat)
    (ids : list string) (msg : string) :
  foldl (rrf_step k bm25_ranks semantic_ranks) (Raised msg) ids = Raised msg.
Proof. induction ids as [|d ids IH]; [done | apply IH]. Qed.

Lemma rrf_fold_raises (k : Z) (bm25_ranks semantic_ranks : gmap string nat)
    (ids : list string) (d : string) :
  d ∈ ids ->
  rrf_score k bm25_ranks semantic_ranks d = Raised "ZeroDivisionError" ->
  forall acc : gmap string Q,
    foldl (rrf_step k bm25_ranks semantic_ranks) (Returned acc) ids
    = Raised "ZeroDivisionError".
Proof.
  intros Hin Hraise.
  induction ids as [|d0 ids IH]; intros acc;
    [by apply elem_of_nil in Hin |].
  simpl.
  destruct (rrf_score k bm25_ranks semantic_ranks d0) as [sc0 | msg]
    eqn:Hsc0.
  - apply IH. apply elem_of_cons in Hin as [-> | Hin]; [congruence | done].
  - apply rrf_score_raises in Hsc0 as ->. apply rrf_fold_raised.
Qed.

(** X11: with a negative fusion constant [k], a BM25 list of distinct
    documents that reaches rank [-k] makes the loop of [hybrid_search]
    raise [ZeroDivisionError]. *)
Theorem rrf_scores_zero_division (k : Z)
    (bm25_results semantic_results : list SearchResult) :
  (k < 0)%Z ->
  NoDup (document_id <$> bm25_results) ->
  (- k <= Z.of_nat (length bm25_results))%Z ->
  rrf_scores k bm25_results semantic_results = Raised "ZeroDivisionError".
Proof.
  intros Hk Hdistinct Hlen.
  set (r := Z.to_nat (- k)).
  destruct (lookup_lt_is_Some_2 (document_id <$> bm25_results) (r - 1))
    as [d Hd].
  { rewrite length_fmap. lia. }
  assert (Hrank : rank_map bm25_results !! d = Some r).
  { apply rank_map_at_rank; [done |]. split; [lia | done]. }
  unfold rrf_scores. apply (rrf_fold_raises _ _ _ _ d).
  - apply elem_of_elements, elem_of_union. left.
    apply elem_of_dom. by eexists.
  - unfold rrf_score, add_reciprocal, reciprocal. rewrite Hrank.
    by destruct (Z.eqb_spec (k + Z.of_nat r) 0); [| lia].
Qed.

End FusionBounds.

Section FusionExamples.
Import Py Hybrid Scenarios.
Local Open Scope string_scope.

Lemma rrf_scores_domain_bounds_witness :
  exists scores : gmap string Q,
    rrf_scores 60 s4_bm25 s4_semantic = Returned scores
    /\ forall d sc,
         scores !! d = Some sc -> (0 < sc /\ sc <= 2 / inject_Z (60 + 1))%Q.
Proof.
  destruct (rrf_scores_domain_bounds 60 s4_bm25 s4_semantic)
    as (scores & Hrun & _ & Hbounds).
  - lia.
  - exists scores. split; [exact Hrun | exact Hbounds].
Defined.

Lemma rrf_scores_zero_division_witness :
  rrf_scores (-1) s4_bm25 s4_semantic = Raised "ZeroDivisionError".
Proof.
  apply rrf_scores_zero_division.
  - lia.
  - apply (bool_decide_unpack _). by vm_compute.
  - vm_compute. discriminate.
Defined.

End FusionExamples.

(** ** The vector indexer: a successful run *)
Section IndexVectorsSuccess.
Import Py VectorIndexer.
Local Open Scope Z_scope.

Lemma chunk_text_default_nonempty (text : string) :
  text <> EmptyString ->
  exists c chunks, chunk_text_default text = Some (c :: chunks).
Proof.
  intros Hne. unfold chunk_text_default, chunk_text.
  destruct text as [|a text]; [done |]. simpl is_empty. cbv iota.
  set (words := split (String a text)).
  destruct (Z.leb_spec (len words) Settings.chunk_size) as [_ | Hlong];
    [by eexists _, _ |].
  unfold Settings.chunk_size in Hlong.
  rewrite chunk_loop_unfold by lia.
  destruct (chunk_loop_spec words Settings.chunk_size Settings.chunk_overlap
              (length words) ltac:(done)
              (0 + (Settings.chunk_size - Settings.chunk_overlap))
              ([] ++ [chunk_at words Settings.chunk_size 0]))
    as (rest & Hrun & _).
  { unfold Settings.chunk_size, Settings.chunk_overlap, len in *. lia. }
  rewrite Hrun. by eexists _, _.
Qed.

Variable vector : Type.
Variable generate_embeddings : list string -> outcome (list vector).

(** The rows that the insertion loop adds for a document. *)
Lemma add_embeddings_rows (doc_id : string) (chunks : list string)
    (embeddings : list vector) (db : Db vector) :
  add_embeddings vector doc_id chunks embeddings db
  = mkDb vector (documents vector db)
      (document_embeddings vector db
       ++ ((fun item : nat * (string * vector) =>
              mkDocumentEmbedding vector doc_id item.1 item.2.1 item.2.2)
           <$> enumerate 0 (zip chunks embeddings))).
Proof.
  unfold add_embeddings. generalize (zip chunks embeddings) 0%nat.
  intros items. revert db.
  induction items as [|[chunk emb] items IH]; intros db start; simpl.
  - rewrite app_nil_r. by destruct db.
  - rewrite IH. simpl. by rewrite <- app_assoc.
Qed.

Lemma filter_rows_of_document (doc_id : string)
    (items : list (nat * (string * vector))) :
  filter (fun e => document_id vector e <> doc_id)
         ((fun item : nat * (string * vector) =>
             mkDocumentEmbedding vector doc_id item.1 item.2.1 item.2.2)
          <$> items)
  = [].
Proof.
  induction items as [|item items IH]; [done |].
  csimpl. by rewrite filter_cons_False by (simpl; tauto).
Qed.

(** X12: when the document has content and the model returns vectors,
    [index_document_vectors] returns the number of chunks; the store then
    holds the rows of the other documents as before, followed by one row
    per (chunk, vector) pair of this document, numbered from 0; the
    [documents] table is untouched, and indexing the document again gives
    the same store. *)
Theorem index_document_vectors_success (doc_id : string) (db : Db vector)
    (doc : Document) (content : string) (chunks : list string)
    (embeddings : list vector) :
  select_document vector doc_id db = Some doc ->
  clean_content doc = Some content ->
  content <> EmptyString ->
  chunk_text_default content = Some chunks ->
  generate_embeddings chunks = Returned embeddings ->
  exists db',
    index_document_vectors vector generate_embeddings doc_id db
    = Some (len chunks, db')
    /\ 1 <= len chunks
    /\ documents vector db' = documents vector db
    /\ document_embeddings vector db'
       = filter (fun e => document_id vector e <> doc_id)
                (document_embeddings vector db)
         ++ ((fun item : nat * (string * vector) =>
                mkDocumentEmbedding vector doc_id item.1 item.2.1 item.2.2)
             <$> enumerate 0 (zip chunks embeddings))
    /\ index_document_vectors vector generate_embeddings doc_id db'
       = Some (len chunks, db').
Proof.
  intros Hdoc Hcontent Hne Hchunks Hemb.
  destruct (chunk_text_default_nonempty content Hne) as (c & rest & Hsome).
  assert (chunks = c :: rest) as -> by congruence.
  assert (Hrun : forall db0 : Db vector,
            select_document vector doc_id db0 = Some doc ->
            index_document_vectors vector generate_embeddings doc_id db0
            = Some (len (c :: rest),
                    add_embeddings vector doc_id (c :: rest) embeddings
                      (delete_embeddings vector doc_id db0))).
  { intros db0 Hdoc0. unfold index_document_vectors.
    rewrite Hdoc0, Hcontent.
    destruct content; [done |]. simpl is_empty. cbv iota.
    by rewrite Hchunks, Hemb. }
  eexists. split; [by apply Hrun |].
  rewrite add_embeddings_rows. simpl documents. simpl document_embeddings.
  split; [unfold len; simpl; lia |]. split; [done |]. split; [done |].
  rewrite Hrun by done.
  rewrite add_embeddings_rows. unfold delete_embeddings. simpl documents.
  simpl document_embeddings.
  rewrite filter_app, filter_rows_of_document, app_nil_r.
  by rewrite list_filter_filter, (list_filter_iff _ (fun e => document_id vector e <> doc_id))
    by tauto.
Qed.

End IndexVectorsSuccess.

Section IndexVectorsSuccessExamples.
Import Py VectorIndexer Scenarios.
Local Open Scope string_scope.

Lemma index_document_vectors_success_witness :
  exists db',
    index_document_vectors nat constant_model "d1" example_db
    = Some (1%Z, db')
    /\ index_document_vectors nat constant_model "d1" db' = Some (1%Z, db').
Proof.
  destruct (index_document_vectors_success nat constant_model "d1" example_db
              (mkDocument "d1" (Some "search engines index the web"))
              "search engines index the web"
              ["search engines index the web"] [1%nat])
    as (db' & Hrun & _ & _ & _ & Hagain); try reflexivity; [discriminate |].
  by exists db'.
Defined.

End IndexVectorsSuccessExamples.

(** ** Merging contexts by document *)
Section DedupFacts.
Import Py RecursiveRag.

Lemma dedup_fold_distinct (new_contexts : list RetrievedContext) :
  forall (all : list RetrievedContext) (seen_ids : gset string),
    NoDup (document_id <$> all) ->
    (forall d, d ∈ seen_ids <-> d ∈ (document_id <$> all)) ->
    NoDup (document_id
             <$> (foldl dedup_step (all, seen_ids) new_contexts).1).
Proof.
  induction new_contexts as [|ctx new_contexts IH];
    intros all seen_ids Hdistinct Hseen; [done |].
  simpl. destruct (decide (document_id ctx ∈ seen_ids)) as [Hin | Hnotin].
  - by apply IH.
  - apply IH.
    + rewrite fmap_app. apply NoDup_app. split; [done |]. split.
      * intros d Hd Hd'. apply list_elem_of_singleton in Hd' as ->.
        by apply Hseen in Hd.
      * apply NoDup_singleton.
    + intros d. rewrite elem_of_union, elem_of_singleton, fmap_app,
        elem_of_app, Hseen. csimpl. rewrite list_elem_of_singleton. tauto.
Qed.

Lemma sort_by_relevance_distinct (l : list RetrievedContext) :
  NoDup (document_id <$> l) ->
  NoDup (document_id <$> sort_by_relevance l).
Proof.
  intros Hdistinct. unfold sort_by_relevance.
  by rewrite sorted_by_perm.
Qed.

End DedupFacts.

(** ** The recursive RAG controller: every run *)
Section RecursiveRagRuns.
Import Py RecursiveRag.
Local Open Scope Z_scope.

Variable World : Type.
Variable retrieve_context :
  string -> Z -> World -> list RetrievedContext * World.
Variable generate_answer :
  string -> list RetrievedContext -> World -> Generated * World.
Variable generate_follow_up_queries :
  string -> string -> World -> list string * World.
Variable round : Q -> Z -> Q.

Lemma follow_up_fold_executed (follow_ups : list string)
    (exec : list string) (new_contexts : list RetrievedContext) (w : World) :
  (foldl (follow_up_step World retrieve_context) (exec, new_contexts, w)
         follow_ups).1.1
  = (exec ++ follow_ups)%list.
Proof.
  revert exec new_contexts w.
  induction follow_ups as [|fq follow_ups IH]; intros exec new_contexts w.
  - by rewrite app_nil_r.
  - simpl. destruct (retrieve_context fq 3 w) as [fq_contexts w'].
    rewrite IH. by rewrite <- app_assoc.
Qed.

(** The loop, given fuel for the iterations that [max_depth] allows, ends;
    it only raises the depth, never above [max_depth], only extends the
    executed queries, and keeps the collected documents distinct. *)
Lemma refine_returns (query : string) (max_depth top_k : Z) (fuel : nat) :
  forall s : Locals World,
    max_depth - depth World s <= Z.of_nat fuel ->
    exists s',
      refine World retrieve_context generate_answer
        generate_follow_up_queries fuel query max_depth top_k s = Some s'
      /\ depth World s <= depth World s'
      /\ depth World s' <= Z.max (depth World s) max_depth
      /\ (exists more,
            executed World s' = (executed World s ++ more)%list
            /\ forall n : nat,
                 (forall q a w,
                    (length (generate_follow_up_queries q a w).1 <= n)%nat) ->
                 (length more
                  <= n * Z.to_nat (max_depth - depth World s))%nat)
      /\ (NoDup (document_id <$> all_contexts World s) ->
          NoDup (document_id <$> all_contexts World s')).
Proof.
  induction fuel as [|fuel IH]; intros s Hfuel.
  - simpl. destruct (Z.ltb_spec (depth World s) max_depth); [lia |].
    exists s. split; [done |]. split; [lia |]. split; [lia |].
    split; [| done]. exists []. split; [by rewrite app_nil_r |].
    intros n _. simpl. lia.
  - simpl. destruct (Z.ltb_spec (depth World s) max_depth) as [Hlt | Hge].
    2:{ exists s. split; [done |]. split; [lia |]. split; [lia |].
        split; [| done]. exists []. split; [by rewrite app_nil_r |].
        intros n _. simpl. lia. }
    assert (Hsteps : Z.to_nat (max_depth - depth World s)
                     = S (Z.to_nat (max_depth - (depth World s + 1))))
      by lia.
    destruct (generate_follow_up_queries query (current_answer World s)
                (world World s)) as [follow_ups w] eqn:Hgen.
    assert (Hcap : forall n : nat,
              (forall q a w,
                 (length (generate_follow_up_queries q a w).1 <= n)%nat) ->
              (length follow_ups <= n)%nat).
    { intros n Hn.
      specialize (Hn query (current_answer World s) (world World s)).
      by rewrite Hgen in Hn. }
    destruct follow_ups as [|fq follow_ups].
    { eexists. split; [done |]. simpl. split; [lia |]. split; [lia |].
      split; [| done]. exists []. split; [by rewrite app_nil_r |].
      intros n _. simpl. lia. }
    pose proof (follow_up_fold_executed (fq :: follow_ups)
                  (executed World s) [] w) as Hexec.
    destruct (foldl (follow_up_step World retrieve_context)
                (executed World s, [], w) (fq :: follow_ups))
      as [[exec new_contexts] w'].
    simpl in Hexec. subst exec.
    destruct new_contexts as [|ctx new_contexts].
    { eexists. split; [done |]. simpl. split; [lia |]. split; [lia |].
      split; [| done]. exists (fq :: follow_ups). split; [done |].
      intros n Hn. specialize (Hcap n Hn).
      rewrite Hsteps, Nat.mul_succ_r.
      etrans; [exact Hcap | apply Nat.le_add_l]. }
    pose proof (dedup_fold_distinct (ctx :: new_contexts)
                  (all_contexts World s)
                  (list_to_set (map document_id (all_contexts World s))))
      as Hdedup.
    destruct (foldl dedup_step
                (all_contexts World s,
                 list_to_set (map document_id (all_contexts World s)))
                (ctx :: new_contexts)) as [all seen].
    simpl in Hdedup.
    destruct (generate_answer query
                (slice_to (sort_by_relevance all) (top_k * 2)) w')
      as [res w''].
    destruct (IH (mkLocals World (sort_by_relevance all)
                    (executed World s ++ fq :: follow_ups)
                    (gen_answer res) res (depth World s + 1) w''))
      as (s' & Hrun & Hlo & Hhi & (more & Hmore & Hbudget) & Hdistinct).
    { simpl. lia. }
    simpl in Hlo, Hhi, Hmore, Hbudget, Hdistinct.
    exists s'. split; [exact Hrun |]. split; [lia |]. split; [lia |].
    split.
    + exists ((fq :: follow_ups) ++ more)%list.
      split; [by rewrite Hmore, <- app_assoc |].
      intros n Hn. specialize (Hcap n Hn). specialize (Hbudget n Hn).
      rewrite length_app, Hsteps, Nat.mul_succ_r.
      rewrite Nat.add_comm. by apply Nat.add_le_mono.
    + intros Hs. apply Hdistinct, sort_by_relevance_distinct, Hdedup;
        [done |].
      intros d. by rewrite elem_of_list_to_set.
Qed.

Lemma slice_to_length_le {A} (l : list A) (n : Z) :
  0 <= n -> (length (slice_to l n) <= Z.to_nat n)%nat.
Proof.
  intros Hn. rewrite slice_to_take by done. rewrite length_take. lia.
Qed.

(** X13: [recursive_rag] returns on every input: with a depth between 0
    and [max_depth] (0 when [max_depth <= 0]), with executed queries
    that start with the original query, and with at most 10 sources. *)
Theorem recursive_rag_returns (query : string) (max_depth top_k : Z)
    (w : World) :
  exists out w',
    recursive_rag World retrieve_context generate_answer
      generate_follow_up_queries round query max_depth top_k w
    = Some (out, w')
    /\ 0 <= depth_reached out <= Z.max 0 max_depth
    /\ (exists more, queries_executed out = query :: more)
    /\ (length (sources out) <= 10)%nat.
Proof.
  unfold recursive_rag.
  destruct (retrieve_context query top_k w) as [contexts w1].
  destruct (generate_answer query contexts w1) as [res w2].
  destruct (refine_returns query max_depth top_k (Z.to_nat max_depth)
              (mkLocals World contexts [query] (gen_answer res) res 0 w2))
    as (s' & Hrun & Hlo & Hhi & (more & Hmore & _) & _).
  { simpl. lia. }
  rewrite Hrun. simpl in *. eexists _, _. split; [done |]. simpl.
  split; [lia |]. split; [by exists more |].
  unfold build_source_list. rewrite length_map.
  by apply (slice_to_length_le _ 10).
Qed.

(** X14: when the first retrieval names every document once, the sources
    that [recursive_rag] returns name every document at most once,
    whatever the follow-up retrievals return. *)
Theorem recursive_rag_sources_distinct (query : string) (max_depth top_k : Z)
    (w : World) :
  NoDup (document_id <$> (retrieve_context query top_k w).1) ->
  exists out w',
    recursive_rag World retrieve_context generate_answer
      generate_follow_up_queries round query max_depth top_k w
    = Some (out, w')
    /\ NoDup (src_document_id <$> sources out).
Proof.
  unfold recursive_rag.
  destruct (retrieve_context query top_k w) as [contexts w1]. simpl.
  intros Hdistinct.
  destruct (generate_answer query contexts w1) as [res w2].
  destruct (refine_returns query max_depth top_k (Z.to_nat max_depth)
              (mkLocals World contexts [query] (gen_answer res) res 0 w2))
    as (s' & Hrun & _ & _ & _ & Hkeep).
  { simpl. lia. }
  rewrite Hrun. eexists _, _. split; [done |]. simpl.
  specialize (Hkeep Hdistinct).
  unfold build_source_list. rewrite <- list_fmap_compose.
  rewrite slice_to_take by lia.
  change (src_document_id ∘ _) with document_id.
  rewrite fmap_take. eapply sublist_NoDup; [exact Hkeep | apply sublist_take].
Qed.

(** X23: when the follow-up generator returns at most [n] queries per
    call (3 for the generator of the service), [recursive_rag] executes
    at most [1 + n * max_depth] queries. *)
Theorem recursive_rag_query_budget (n : nat) (query : string)
    (max_depth top_k : Z) (w : World) :
  (forall q a w0,
     (length (generate_follow_up_queries q a w0).1 <= n)%nat) ->
  exists out w',
    recursive_rag World retrieve_context generate_answer
      generate_follow_up_queries round query max_depth top_k w
    = Some (out, w')
    /\ (length (queries_executed out) <= 1 + n * Z.to_nat max_depth)%nat.
Proof.
  intros Hcap. unfold recursive_rag.
  destruct (retrieve_context query top_k w) as [contexts w1].
  destruct (generate_answer query contexts w1) as [res w2].
  destruct (refine_returns query max_depth top_k (Z.to_nat max_depth)
              (mkLocals World contexts [query] (gen_answer res) res 0 w2))
    as (s' & Hrun & _ & _ & (more & Hmore & Hbudget) & _).
  { simpl. lia. }
  rewrite Hrun. eexists _, _. split; [done |]. simpl in *.
  rewrite Hmore. simpl. specialize (Hbudget n Hcap).
  rewrite Z.sub_0_r in Hbudget. lia.
Qed.

End RecursiveRagRuns.

Section RecursiveRagRunsExamples.
Import Py RecursiveRag Scenarios.
Local Open Scope string_scope.

Lemma recursive_rag_sources_distinct_witness :
  exists out w',
    recursive_rag nat example_retrieve example_generate one_follow_up
      (fun x _ => x) "what is bm25" 2 5 0
    = Some (out, w')
    /\ NoDup (src_document_id <$> sources out).
Proof.
  apply (recursive_rag_sources_distinct nat example_retrieve
           example_generate one_follow_up (fun x _ => x)
           "what is bm25" 2 5 0).
  simpl. apply NoDup_singleton.
Defined.

Lemma recursive_rag_query_budget_witness :
  exists out w',
    recursive_rag nat example_retrieve example_generate one_follow_up
      (fun x _ => x) "what is bm25" 2 5 0
    = Some (out, w')
    /\ length (queries_executed out) <= 1 + 1 * Z.to_nat 2.
Proof.
  apply (recursive_rag_query_budget nat example_retrieve example_generate
           one_follow_up (fun x _ => x) 1 "what is bm25" 2 5 0).
  intros q a w0. simpl. lia.
Defined.

End RecursiveRagRunsExamples.

(** ** The trie: what an insertion changes *)
Section TrieInsertFacts.
Import Py Autocomplete.
Local Open Scope string_scope.

Lemma get_set_child (c : ascii) (v : TrieNode) cs :
  get_child c (set_child c v cs) = Some v.
Proof.
  induction cs as [|[k v0] cs IH]; simpl.
  - by rewrite Ascii.eqb_refl.
  - destruct (Ascii.eqb k c) eqn:Hk; simpl; by rewrite Hk.
Qed.

Lemma set_child_new_dfs (c : ascii) (v : TrieNode) cs (x : Suggestion) :
  x ∈ dfs v -> x ∈ flat_map (fun p => dfs (snd p)) (set_child c v cs).
Proof.
  intros Hx. induction cs as [|[k v0] cs IH]; simpl.
  - rewrite app_nil_r. exact Hx.
  - destruct (Ascii.eqb k c); simpl; apply elem_of_app; [by left | right; by apply IH].
Qed.

Lemma set_child_old_dfs (c : ascii) (v : TrieNode) cs (x : Suggestion) :
  x ∈ flat_map (fun p => dfs (snd p)) cs ->
  x ∈ flat_map (fun p => dfs (snd p)) (set_child c v cs)
  \/ exists v0, get_child c cs = Some v0 /\ x ∈ dfs v0.
Proof.
  induction cs as [|[k v0] cs IH]; simpl; intros Hx.
  - by apply elem_of_nil in Hx.
  - apply elem_of_app in Hx as [Hx | Hx].
    + destruct (Ascii.eqb k c); simpl.
      * right. by exists v0.
      * left. apply elem_of_app. by left.
    + destruct (Ascii.eqb k c); simpl.
      * left. apply elem_of_app. by right.
      * destruct (IH Hx) as [Hin | Hold]; [| by right].
        left. apply elem_of_app. by right.
Qed.

Lemma set_child_dfs_inv (c : ascii) (v : TrieNode) cs (x : Suggestion) :
  x ∈ flat_map (fun p => dfs (snd p)) (set_child c v cs) ->
  x ∈ dfs v \/ x ∈ flat_map (fun p => dfs (snd p)) cs.
Proof.
  induction cs as [|[k v0] cs IH]; simpl; intros Hx.
  - rewrite app_nil_r in Hx. by left.
  - destruct (Ascii.eqb k c); simpl in Hx;
      apply elem_of_app in Hx as [Hx | Hx].
    + by left.
    + right. apply elem_of_app. by right.
    + right. apply elem_of_app. by left.
    + destruct (IH Hx) as [? | ?]; [by left |].
      right. apply elem_of_app. by right.
Qed.

Lemma set_child_dfs_length (c : ascii) (v : TrieNode) cs :
  (length (flat_map (fun p => dfs (snd p)) (set_child c v cs))
   + length (dfs (default new_node (get_child c cs)))
   = length (flat_map (fun p => dfs (snd p)) cs) + length (dfs v))%nat.
Proof.
  induction cs as [|[k v0] cs IH]; simpl.
  - rewrite app_nil_r. lia.
  - destruct (Ascii.eqb k c); simpl; rewrite !length_app; lia.
Qed.

Lemma dfs_insert_at_own (chars t : string) (f : Z) :
  forall node : TrieNode,
    mkSuggestion t f ∈ dfs (insert_at chars t f node).
Proof.
  induction chars as [|c rest IH]; intros [cs e t0 f0]; cbn [insert_at].
  - simpl. by left.
  - simpl. apply elem_of_app. right. apply set_child_new_dfs, IH.
Qed.

Lemma dfs_insert_at_inv (chars t : string) (f : Z) (x : Suggestion) :
  forall node : TrieNode,
    x ∈ dfs (insert_at chars t f node) ->
    x = mkSuggestion t f \/ x ∈ dfs node.
Proof.
  induction chars as [|c rest IH]; intros [cs e t0 f0]; cbn [insert_at].
  - simpl. intros [-> | Hx]%elem_of_cons; [by left |].
    right. apply elem_of_app. by right.
  - simpl. intros [Hx | Hx]%elem_of_app.
    + right. apply elem_of_app. by left.
    + apply set_child_dfs_inv in Hx as [Hx | Hx].
      * apply IH in Hx as [? | Hx]; [by left |].
        right. apply elem_of_app. right.
        destruct (get_child c cs) as [v0 |] eqn:Hget; simpl in Hx.
        -- clear -Hget Hx. induction cs as [|[k v1] cs IH];
             simpl in *; [done |].
           apply elem_of_app. destruct (Ascii.eqb k c).
           ++ injection Hget as ->. by left.
           ++ right. by apply IH.
        -- by apply elem_of_nil in Hx.
      * right. apply elem_of_app. by right.
Qed.

Lemma dfs_insert_at_keeps (chars t : string) (f : Z) (x : Suggestion) :
  forall (path : string) (node : TrieNode),
    well_keyed path node ->
    x ∈ dfs node ->
    x ∈ dfs (insert_at chars t f node)
    \/ lower (sug_term x) = path ++ chars.
Proof.
  induction chars as [|c rest IH]; intros path [cs e t0 f0] Hnode;
    cbn [insert_at]; apply well_keyed_node in Hnode as [Hend Hcs].
  - simpl. intros [Hx | Hx]%elem_of_app.
    + right. destruct e; [| by apply elem_of_nil in Hx].
      apply list_elem_of_singleton in Hx as ->. simpl.
      rewrite append_nil_r. by apply Hend.
    + left. by right.
  - simpl. intros [Hx | Hx]%elem_of_app.
    + left. apply elem_of_app. by left.
    + apply (set_child_old_dfs c
               (insert_at rest t f (default new_node (get_child c cs))))
        in Hx as [Hx | (v0 & Hget & Hx)].
      * left. apply elem_of_app. by right.
      * rewrite Hget. simpl.
        destruct (IH (path ++ String c "") v0
                    (get_child_well_keyed _ _ _ _ Hcs Hget) Hx)
          as [Hin | Hterm].
        -- left. apply elem_of_app. right. by apply set_child_new_dfs.
        -- right. by rewrite Hterm, append_assoc.
Qed.

Lemma dfs_insert_at_length (chars t : string) (f : Z) :
  forall node : TrieNode,
    (length (dfs (insert_at chars t f node)) <= length (dfs node) + 1)%nat.
Proof.
  induction chars as [|c rest IH]; intros [cs e t0 f0]; cbn [insert_at].
  - simpl. rewrite !length_app. destruct e; simpl; lia.
  - simpl. rewrite !length_app.
    pose proof (set_child_dfs_length c
                  (insert_at rest t f (default new_node (get_child c cs)))
                  cs) as Hlen.
    pose proof (IH (default new_node (get_child c cs))). lia.
Qed.

Lemma prefix_split (p s : string) :
  String.prefix p s = true -> exists rest, s = p ++ rest.
Proof.
  revert s. induction p as [|c p IH]; intros s Hpre; [by exists s |].
  destruct s as [|d s]; simpl in Hpre; [done |].
  destruct (ascii_dec c d) as [-> |]; [| done].
  destruct (IH s Hpre) as [rest ->]. by exists rest.
Qed.

Lemma descend_insert_at (p rest t : string) (f : Z) :
  forall node : TrieNode,
    exists below,
      descend p (insert_at (p ++ rest) t f node)
      = Some (insert_at rest t f below).
Proof.
  induction p as [|c p IH]; intros node.
  - by exists node.
  - change (String c p ++ rest) with (String c (p ++ rest)).
    cbn [insert_at descend children]. rewrite get_set_child. apply IH.
Qed.

(** X15: after [insert(term, frequency)], the search for any prefix of
    the term (up to case) reaches a node whose entries contain
    [(term, frequency)]; the entry is returned whenever the limit is at
    least the number of entries below that node. *)
Theorem insert_then_search (trie : AutocompleteTrie) (t : string) (f : Z)
    (p : string) :
  String.prefix (lower p) (lower t) = true ->
  exists node,
    descend (lower p) (root (insert trie t f)) = Some node
    /\ mkSuggestion t f ∈ dfs node
    /\ forall limit,
         (Z.of_nat (length (dfs node)) <= limit)%Z ->
         mkSuggestion t f ∈ search_prefix (insert trie t f) p limit.
Proof.
  intros [rest Hrest]%prefix_split. unfold search_prefix, insert.
  simpl root. rewrite Hrest.
  destruct (descend_insert_at (lower p) rest t f (root trie))
    as [below Hdescend].
  rewrite Hdescend. eexists. split; [done |].
  split; [apply dfs_insert_at_own |].
  intros limit Hlimit. rewrite slice_to_take by lia.
  rewrite take_ge.
  - rewrite (sorted_by_perm key_le). apply dfs_insert_at_own.
  - rewrite (sorted_by_perm key_le). lia.
Qed.

(** X16: an insertion changes the entry of its own term only: every
    entry of the trie built so far whose term differs (up to case) from
    the inserted one is still there, and every entry found afterwards is
    the inserted one or was there before. *)
Theorem insert_changes_one_entry (inserts : list (string * Z)) (t : string)
    (f : Z) (x : Suggestion) :
  (x ∈ dfs (root (build inserts)) ->
   lower (sug_term x) <> lower t ->
   x ∈ dfs (root (insert (build inserts) t f)))
  /\ (x ∈ dfs (root (insert (build inserts) t f)) ->
      x = mkSuggestion t f \/ x ∈ dfs (root (build inserts))).
Proof.
  split.
  - intros Hx Hother. simpl.
    destruct (dfs_insert_at_keeps (lower t) t f x "" (root (build inserts))
                (build_well_keyed inserts) Hx) as [Hin | Hterm]; done.
  - simpl. apply dfs_insert_at_inv.
Qed.

(** X17: [size] counts the calls of [insert], not the terms stored: it is
    the number of insertions, while the trie holds at most that many
    entries. *)
Theorem size_counts_insertions (inserts : list (string * Z)) :
  size (build inserts) = Z.of_nat (length inserts)
  /\ (length (dfs (root (build inserts))) <= length inserts)%nat.
Proof.
  unfold build.
  assert (Hgen : forall trie,
            let final := foldl (fun trie item =>
                                  insert trie (fst item) (snd item))
                               trie inserts in
            size final = (size trie + Z.of_nat (length inserts))%Z
            /\ (length (dfs (root final))
                <= length (dfs (root trie)) + length inserts)%nat).
  { induction inserts as [|[t f] inserts IH]; intros trie; simpl.
    - split; lia.
    - destruct (IH (insert trie t f)) as [Hsize Hlen]. simpl in Hsize, Hlen.
      pose proof (dfs_insert_at_length (lower t) t f (root trie)).
      split; lia. }
  destruct (Hgen new_trie) as [Hsize Hlen]. simpl in Hsize, Hlen.
  split; [exact Hsize | exact Hlen].
Qed.

End TrieInsertFacts.

Section TrieInsertExamples.
Import Py Autocomplete Scenarios.
Local Open Scope string_scope.

Lemma insert_then_search_witness :
  exists node,
    descend (lower "SEA") (root (insert (build s3_inserts) "Search" 7))
    = Some node
    /\ mkSuggestion "Search" 7 ∈ dfs node.
Proof.
  destruct (insert_then_search (build s3_inserts) "Search" 7 "SEA")
    as (node & Hnode & Hin & _).
  - reflexivity.
  - by exists node.
Defined.

End TrieInsertExamples.

(** ** Dictionaries in insertion order *)
Section DictFacts.
Import Py.
Context {V : Type}.
Implicit Types (d : list (string * V)) (k : string) (v : V).

Lemma dict_get_set_eq k v d : dict_get k (dict_set k v d) = Some v.
Proof.
  induction d as [|[k' v'] d IH]; simpl.
  - by rewrite decide_True.
  - destruct (decide (k' = k)) as [Heq | Hne]; simpl.
    + by rewrite decide_True.
    + by rewrite decide_False.
Qed.

Lemma dict_get_set_ne k k0 v d :
  k <> k0 -> dict_get k0 (dict_set k v d) = dict_get k0 d.
Proof.
  intros Hne. induction d as [|[k' v'] d IH]; simpl.
  - by rewrite decide_False.
  - destruct (decide (k' = k)) as [-> | Hk]; simpl.
    + by rewrite !decide_False.
    + destruct (decide (k' = k0)); [done | exact IH].
Qed.

Lemma dict_get_None k d : dict_get k d = None <-> k ∉ d.*1.
Proof.
  induction d as [|[k' v'] d IH]; simpl.
  - split; [intros _; apply not_elem_of_nil | done].
  - rewrite not_elem_of_cons.
    destruct (decide (k' = k)) as [-> | Hk].
    + split; [done | by intros [? _]].
    + rewrite IH. split; [by intros ? | by intros [_ ?]].
Qed.

Lemma dict_get_elem k v d : dict_get k d = Some v -> (k, v) ∈ d.
Proof.
  induction d as [|[k' v'] d IH]; simpl; [done |].
  destruct (decide (k' = k)) as [-> | Hk].
  - intros [= ->]. by left.
  - intros Hget. right. by apply IH.
Qed.

Lemma dict_elem_get k v d : NoDup d.*1 -> (k, v) ∈ d -> dict_get k d = Some v.
Proof.
  induction d as [|[k' v'] d IH]; simpl; intros Hdistinct Hin.
  - by apply elem_of_nil in Hin.
  - apply NoDup_cons in Hdistinct as [Hfresh Hdistinct].
    apply elem_of_cons in Hin as [[= -> ->] | Hin].
    + by rewrite decide_True.
    + destruct (decide (k' = k)) as [-> | Hk]; [| by apply IH].
      exfalso. apply Hfresh. apply list_elem_of_fmap. by exists (k, v).
Qed.

Lemma dict_set_keys k v d :
  (dict_set k v d).*1
  = match dict_get k d with
    | Some _ => d.*1
    | None => (d.*1 ++ [k])%list
    end.
Proof.
  induction d as [|[k' v'] d IH]; simpl; [done |].
  destruct (decide (k' = k)) as [-> | Hk]; csimpl; [done |].
  rewrite IH. by destruct (dict_get k d).
Qed.

Lemma dict_set_keys_distinct k v d : NoDup d.*1 -> NoDup (dict_set k v d).*1.
Proof.
  intros Hdistinct. rewrite dict_set_keys.
  destruct (dict_get k d) eqn:Hget; [done |].
  apply dict_get_None in Hget.
  apply NoDup_app. split; [done |]. split; [| apply NoDup_singleton].
  intros x Hx Hx'. apply list_elem_of_singleton in Hx' as ->. done.
Qed.

End DictFacts.

(** ** The inverted index of a document *)
Section InvertedIndexFacts.
Import Py InvertedIndex.
Local Open Scope Z_scope.

(** The positions at which the term [t] stands in a token stream, and
    the sum of the frequencies of a [term_data] dictionary. *)
Local Abbreviation positions_of t toks :=
  ((filter (fun tp : string * nat => tp.1 = t) toks).*2).
Local Abbreviation expected t toks :=
  (if decide (positions_of t toks = [])
   then None
   else Some (mkTermData (Z.of_nat (length (positions_of t toks)))
                         (positions_of t toks))).
Local Abbreviation sum_frequency td :=
  (foldr (fun (item : string * TermData) acc => frequency item.2 + acc) 0 td).

Lemma sum_frequency_set (k : string) (v : TermData)
    (td : list (string * TermData)) :
  sum_frequency (dict_set k v td)
  = sum_frequency td
    - frequency (default (mkTermData 0 []) (dict_get k td))
    + frequency v.
Proof.
  induction td as [|[k' v'] td IH]; simpl.
  - lia.
  - destruct (decide (k' = k)); simpl; lia.
Qed.

Lemma term_step_sum (td : list (string * TermData)) (item : string * nat) :
  sum_frequency (term_step td item) = sum_frequency td + 1.
Proof.
  destruct item as [token pos]. unfold term_step.
  rewrite sum_frequency_set. cbn [frequency].
  destruct (dict_get token td) as [d |] eqn:Hget.
  - lia.
  - rewrite sum_frequency_set, Hget, dict_get_set_eq. simpl. lia.
Qed.

Lemma term_data_sum (toks : list (string * nat)) :
  forall td : list (string * TermData),
    sum_frequency (foldl term_step td toks)
    = sum_frequency td + Z.of_nat (length toks).
Proof.
  induction toks as [|item toks IH]; intros td; simpl; [lia |].
  rewrite IH, term_step_sum. lia.
Qed.

Lemma positions_of_snoc (t token : string) (pos : nat)
    (toks : list (string * nat)) :
  positions_of t (toks ++ [(token, pos)])
  = (positions_of t toks ++ if decide (token = t) then [pos] else [])%list.
Proof.
  rewrite filter_app, fmap_app. f_equal.
  rewrite filter_cons. simpl. by destruct (decide (token = t)).
Qed.

Lemma term_step_invariant (td : list (string * TermData))
    (toks : list (string * nat)) (item : string * nat) :
  NoDup td.*1 /\ (forall t, dict_get t td = expected t toks) ->
  NoDup (term_step td item).*1
  /\ forall t, dict_get t (term_step td item) = expected t (toks ++ [item]).
Proof.
  intros [Hdistinct Hget]. destruct item as [token pos]. unfold term_step.
  set (td1 := match dict_get token td with
              | Some _ => td
              | None => dict_set token (mkTermData 0 []) td
              end).
  assert (Hd1 : NoDup td1.*1).
  { unfold td1. destruct (dict_get token td); [done |].
    by apply dict_set_keys_distinct. }
  assert (Hother : forall t, token <> t -> dict_get t td1 = dict_get t td).
  { intros t Hne. unfold td1. destruct (dict_get token td); [done |].
    by apply dict_get_set_ne. }
  assert (Hown : default (mkTermData 0 []) (dict_get token td1)
                 = default (mkTermData 0 []) (dict_get token td)).
  { unfold td1. destruct (dict_get token td) as [d |] eqn:Hold.
    - by rewrite Hold.
    - by rewrite dict_get_set_eq. }
  split; [by apply dict_set_keys_distinct |].
  intros t. rewrite positions_of_snoc.
  destruct (decide (token = t)) as [<- | Hne].
  - rewrite dict_get_set_eq, Hown, Hget.
    destruct (decide (positions_of token toks = [])) as [Hnil | Hsome].
    + rewrite Hnil. reflexivity.
    + rewrite decide_False by (by destruct (positions_of token toks)).
      simpl. rewrite length_app. simpl. do 2 f_equal. lia.
  - rewrite dict_get_set_ne, Hother, Hget, app_nil_r by done. done.
Qed.

Lemma term_data_invariant (toks : list (string * nat)) :
  NoDup (foldl term_step [] toks).*1
  /\ forall t, dict_get t (foldl term_step [] toks) = expected t toks.
Proof.
  induction toks as [|item toks IH] using rev_ind.
  - split; [constructor | done].
  - rewrite foldl_snoc. by apply term_step_invariant.
Qed.

Lemma positions_of_nil_iff (t : string) (toks : list (string * nat)) :
  positions_of t toks = [] <-> t ∉ toks.*1.
Proof.
  induction toks as [|[token pos] toks IH]; csimpl.
  - split; [intros _; apply not_elem_of_nil | done].
  - rewrite filter_cons, not_elem_of_cons. simpl.
    destruct (decide (token = t)) as [-> | Hne]; csimpl.
    + split; [done | by intros [? _]].
    + rewrite IH. split; [by intros ? | by intros [_ ?]].
Qed.

Lemma upsert_entry_fresh (e : IndexRow) (rows : list IndexRow) :
  (forall r, r ∈ rows ->
     (term r, document_id r) <> (term e, document_id e)) ->
  upsert_entry e rows = (rows ++ [e])%list.
Proof.
  induction rows as [|r rows IH]; intros Hfresh; simpl; [done |].
  rewrite decide_False.
  - f_equal. apply IH. intros r' Hr'. apply Hfresh. by right.
  - intros [Ht Hd]. apply (Hfresh r ltac:(by left)). by rewrite Ht, Hd.
Qed.

Lemma upsert_fold_fresh (entries : list IndexRow) :
  forall rows : list IndexRow,
    NoDup ((fun e => (term e, document_id e)) <$> entries) ->
    (forall r, r ∈ rows ->
       (term r, document_id r)
       ∉ ((fun e => (term e, document_id e)) <$> entries)) ->
    foldl (fun rows e => upsert_entry e rows) rows entries
    = (rows ++ entries)%list.
Proof.
  induction entries as [|e entries IH]; intros rows Hdistinct Hfresh; simpl.
  - by rewrite app_nil_r.
  - csimpl in Hdistinct. apply NoDup_cons in Hdistinct as [He Hdistinct].
    rewrite upsert_entry_fresh.
    + rewrite IH, <- app_assoc; [done | done |].
      intros r [Hr | Hr]%elem_of_app.
      * specialize (Hfresh r Hr). csimpl in Hfresh.
        by apply not_elem_of_cons in Hfresh as [_ ?].
      * by apply list_elem_of_singleton in Hr as ->.
    + intros r Hr. specialize (Hfresh r Hr). csimpl in Hfresh.
      by apply not_elem_of_cons in Hfresh as [? _].
Qed.

Lemma upsert_stats_elem (s : StatsRow) (rows : list StatsRow) :
  s ∈ upsert_stats s rows.
Proof.
  induction rows as [|r rows IH]; simpl; [by left |].
  destruct (decide (stats_document_id r = stats_document_id s)) as [Heq |].
  - rewrite Heq. destruct s. by left.
  - by right.
Qed.

Lemma filter_complement_nil {A} (P : A -> Prop) `{!forall x, Decision (P x)}
    (l : list A) :
  filter P (filter (fun x => ~ P x) l) = [].
Proof.
  induction l as [|x l IH]; [done |].
  rewrite (filter_cons (fun x => ~ P x)).
  destruct (decide (~ P x)) as [Hx |]; [| done].
  by rewrite filter_cons_False.
Qed.

Lemma filter_all {A} (P : A -> Prop) `{!forall x, Decision (P x)}
    (l : list A) :
  Forall P l -> filter P l = l.
Proof.
  induction 1 as [|x l Hx Hl IH]; [done |].
  by rewrite filter_cons_True, IH.
Qed.

Lemma filter_none {A} (P : A -> Prop) `{!forall x, Decision (P x)}
    (l : list A) :
  Forall (fun x => ~ P x) l -> filter P l = [].
Proof.
  induction 1 as [|x l Hx Hl IH]; [done |].
  by rewrite filter_cons_False.
Qed.

Variable stops : gset string.
Variable stemmer_stem : string -> string.

(** The postings of a document after a run that found tokens. *)
Lemma index_document_rows (doc_id : string) (now : Z) (db : Db)
    (doc : Document) (content : string) :
  List.find (fun d => bool_decide (doc_id_of d = doc_id)) (documents db)
  = Some doc ->
  clean_content doc = Some content ->
  TextProcessor.process_with_positions stops stemmer_stem content <> [] ->
  let tokens :=
    TextProcessor.process_with_positions stops stemmer_stem content in
  let db' := index_document stops stemmer_stem doc_id now db in
  inverted_index db'
  = (filter (fun r => document_id r <> doc_id) (inverted_index db)
     ++ entries_of doc_id (foldl term_step [] tokens))%list
  /\ document_stats db'
     = upsert_stats
         (mkStatsRow doc_id (Z.of_nat (length tokens))
            (Z.of_nat (length (foldl term_step [] tokens))))
         (document_stats db).
Proof.
  intros Hdoc Hcontent Htokens tokens db'. subst db'.
  unfold index_document. rewrite Hdoc, Hcontent.
  destruct content as [|c content]; [done |]. simpl is_empty. cbv iota.
  fold tokens. destruct tokens as [|tp tokens0] eqn:Htok; [done |].
  rewrite <- Htok. simpl. split; [| done].
  apply upsert_fold_fresh.
  - unfold entries_of. rewrite <- list_fmap_compose.
    destruct (term_data_invariant tokens) as [Hdistinct _].
    apply (NoDup_fmap_2 (fun k : string => (k, doc_id))) in Hdistinct.
    by rewrite <- list_fmap_compose in Hdistinct.
  - intros r [Hr _]%list_elem_of_filter Hin.
    apply list_elem_of_fmap in Hin as (e & Hkey & He).
    unfold entries_of in He. apply list_elem_of_fmap in He as (item & -> & _).
    simpl in Hkey. by injection Hkey as _ ?.
Qed.

(** X18: after [index_document] on a document whose text yields tokens,
    the postings of the document carry pairwise distinct terms, the
    terms of the token stream; each posting lists the positions at which
    its term stands, and its frequency, at least 1, is their number; the
    frequencies add up to the [total_terms] written to [document_stats],
    where [unique_terms] is the number of postings; the postings of other
    documents are as before. *)
Theorem index_document_postings (doc_id : string) (now : Z) (db : Db)
    (doc : Document) (content : string) :
  List.find (fun d => bool_decide (doc_id_of d = doc_id)) (documents db)
  = Some doc ->
  clean_content doc = Some content ->
  TextProcessor.process_with_positions stops stemmer_stem content <> [] ->
  let tokens :=
    TextProcessor.process_with_positions stops stemmer_stem content in
  let db' := index_document stops stemmer_stem doc_id now db in
  let rows := filter (fun r => document_id r = doc_id) (inverted_index db') in
  NoDup (term <$> rows)
  /\ (forall t, t ∈ (term <$> rows) <-> t ∈ tokens.*1)
  /\ (forall r, r ∈ rows ->
        row_positions r = positions_of (term r) tokens
        /\ term_frequency r = Z.of_nat (length (row_positions r))
        /\ 1 <= term_frequency r)
  /\ foldr (fun r acc => term_frequency r + acc) 0 rows
     = Z.of_nat (length tokens)
  /\ mkStatsRow doc_id (Z.of_nat (length tokens)) (Z.of_nat (length rows))
     ∈ document_stats db'
  /\ filter (fun r => document_id r <> doc_id) (inverted_index db')
     = filter (fun r => document_id r <> doc_id) (inverted_index db).
Proof.
  intros Hdoc Hcontent Htokens tokens db' rows.
  destruct (index_document_rows doc_id now db doc content Hdoc Hcontent
              Htokens) as [Hindex Hstats].
  fold tokens db' in Hindex, Hstats.
  set (td := foldl term_step [] tokens) in *.
  destruct (term_data_invariant tokens) as [Hdistinct Hget].
  fold td in Hdistinct, Hget.
  assert (Hrows : rows = entries_of doc_id td).
  { unfold rows. rewrite Hindex, filter_app.
    rewrite (filter_none (fun r => document_id r = doc_id)
               (filter _ (inverted_index db))).
    - apply filter_all. unfold entries_of.
      apply Forall_forall. by intros r (item & -> & _)%list_elem_of_fmap.
    - apply Forall_forall. by intros r [? _]%list_elem_of_filter. }
  assert (Hterms : term <$> rows = td.*1).
  { rewrite Hrows. unfold entries_of. by rewrite <- list_fmap_compose. }
  assert (Hitem : forall k d, (k, d) ∈ td ->
            positions_of k tokens <> []
            /\ d = mkTermData (Z.of_nat (length (positions_of k tokens)))
                              (positions_of k tokens)).
  { intros k d Hin. apply (dict_elem_get _ _ _ Hdistinct) in Hin.
    rewrite Hget in Hin.
    destruct (decide (positions_of k tokens = [])); [done |].
    by injection Hin as <-. }
  split; [by rewrite Hterms |]. split; [| split; [| split; [| split]]].
  - intros t. rewrite Hterms.
    destruct (decide (t ∈ tokens.*1)) as [Hin | Hnotin].
    + split; [done |]. intros _.
      destruct (dict_get t td) as [d |] eqn:Ht.
      * apply dict_get_elem in Ht. apply list_elem_of_fmap. by exists (t, d).
      * rewrite Hget in Ht.
        destruct (decide (positions_of t tokens = [])) as [Hnil |]; [| done].
        by apply positions_of_nil_iff in Hnil.
    + split; [| done]. intros Hkey. exfalso.
      apply list_elem_of_fmap in Hkey as ([k d] & -> & Hin).
      destruct (Hitem k d Hin) as [Hsome _].
      by apply Hsome, positions_of_nil_iff.
  - intros r Hr. rewrite Hrows in Hr. unfold entries_of in Hr.
    apply list_elem_of_fmap in Hr as ([k d] & -> & Hin). simpl.
    destruct (Hitem k d Hin) as [Hsome ->]. simpl.
    split; [done |]. split; [done |].
    destruct (positions_of k tokens); [done | simpl; lia].
  - rewrite Hrows. unfold entries_of.
    pose proof (term_data_sum tokens []) as Hsum. fold td in Hsum.
    simpl in Hsum. rewrite Z.add_0_l in Hsum. rewrite <- Hsum. clear.
    induction td as [|item td IH]; simpl; [done | by rewrite IH].
  - rewrite Hstats. rewrite Hrows. unfold entries_of. rewrite length_map.
    apply upsert_stats_elem.
  - rewrite Hindex, filter_app.
    rewrite (filter_none _ (entries_of doc_id td)).
    + rewrite app_nil_r, list_filter_filter.
      apply list_filter_iff. tauto.
    + apply Forall_forall. unfold entries_of.
      intros r (item & -> & _)%list_elem_of_fmap. simpl. tauto.
Qed.

End InvertedIndexFacts.

Section CollectionStatsFacts.
Import Py InvertedIndex.

Lemma sum_total_terms_bounds (lo hi : Z) (stats : list StatsRow) :
  Forall (fun s => (lo <= total_terms s <= hi)%Z) stats ->
  (lo * Z.of_nat (length stats)
   <= foldr (fun s acc => total_terms s + acc) 0 stats
   <= hi * Z.of_nat (length stats))%Z.
Proof.
  induction 1 as [|s stats Hs Hstats IH]; simpl length; simpl foldr; lia.
Qed.

(** X19: [update_collection_stats] counts the rows of [document_stats]
    and, when there is one at least, stores an average length that lies
    between the bounds of the documents' lengths: at least 1 for the rows
    that [index_document] writes, so that the scorer divides by a
    positive number. *)
Theorem update_collection_stats_bounds (db : Db) (lo hi : Z) :
  document_stats db <> [] ->
  Forall (fun s => (lo <= total_terms s <= hi)%Z) (document_stats db) ->
  total_documents (update_collection_stats db)
  = Z.of_nat (length (document_stats db))
  /\ (inject_Z lo <= avg_document_length (update_collection_stats db)
      /\ avg_document_length (update_collection_stats db) <= inject_Z hi)%Q.
Proof.
  intros Hrows Hbounds. split; [done |].
  pose proof (sum_total_terms_bounds lo hi _ Hbounds) as [Hlo Hhi].
  unfold update_collection_stats, avg_total_terms. cbn [avg_document_length].
  destruct (document_stats db) as [|s stats] eqn:Hstats; [done |].
  rewrite <- Hstats in *. cbn [default].
  set (n := Z.of_nat (length (document_stats db))) in *.
  assert (Hn : (0 < inject_Z n)%Q).
  { change 0%Q with (inject_Z 0). rewrite <- Zlt_Qlt. unfold n.
    rewrite Hstats. simpl. lia. }
  split.
  - apply Qle_shift_div_l; [done |].
    rewrite <- inject_Z_mult. by rewrite <- Zle_Qle.
  - apply Qle_shift_div_r; [done |].
    rewrite <- inject_Z_mult. by rewrite <- Zle_Qle.
Qed.

End CollectionStatsFacts.

Section InvertedIndexExamples.
Import Py InvertedIndex Scenarios.
Local Open Scope string_scope.

Lemma index_document_postings_witness :
  NoDup (term <$> filter (fun r => document_id r = "d1")
                    (inverted_index
                       (index_document ∅ (fun t => t) "d1" 9 index_db)))
  /\ mkStatsRow "d1" 3 2
     ∈ document_stats (index_document ∅ (fun t => t) "d1" 9 index_db).
Proof.
  destruct (index_document_postings ∅ (fun t => t) "d1" 9 index_db
              (mkDocument "d1" (Some "cat sat cat") None) "cat sat cat")
    as (Hdistinct & _ & _ & _ & Hstats & _).
  - reflexivity.
  - reflexivity.
  - vm_compute. discriminate.
  - split; [exact Hdistinct | exact Hstats].
Defined.

Lemma update_collection_stats_bounds_witness :
  (inject_Z 1 <= avg_document_length (update_collection_stats index_db))%Q.
Proof.
  destruct (update_collection_stats_bounds index_db 1 1) as (_ & Hlo & _).
  - discriminate.
  - apply Forall_cons_2; [simpl; lia |].
    apply Forall_cons_2; [simpl; lia | apply Forall_nil_2].
  - exact Hlo.
Defined.

End InvertedIndexExamples.

(** ** Semantic search: one result per document *)
Section SemanticFacts.
Import Py Semantic.

Lemma slice_sublist {A} (l : list A) (a b : Z) : slice l a b `sublist_of` l.
Proof.
  unfold slice. etrans; [apply sublist_take | apply sublist_drop].
Qed.

Lemma slice_window_length {A} (l : list A) (a n : Z) :
  (0 <= n)%Z -> (Z.of_nat (length (slice l a (a + n))) <= n)%Z.
Proof.
  intros Hn. unfold slice, clamp_index.
  rewrite length_take, length_drop.
  destruct (Z.ltb_spec a 0), (Z.ltb_spec (a + n) 0); lia.
Qed.

Lemma omap_length_le {A B} (f : A -> option B) (l : list A) :
  length (omap f l) <= length l.
Proof.
  induction l as [|x l IH]; csimpl; [done |].
  destruct (f x); simpl; lia.
Qed.

(** What [best_per_doc] holds after the rows [rows]: one item per
    document of the rows, made from a row of the document that no other
    row of the document exceeds in similarity. *)
Local Abbreviation best_for rows d best :=
  (exists row,
     row ∈ rows /\ row_document_id row = d
     /\ best = mkBest (similarity row) (snippet_of (row_chunk_text row))
     /\ forall row', row' ∈ rows -> row_document_id row' = d ->
          (similarity row' <= similarity row)%Q).

Lemma best_step_invariant (best_per_doc : list (string * Best))
    (rows : list Row) (row : Row) :
  NoDup best_per_doc.*1
  /\ (forall d best, dict_get d best_per_doc = Some best ->
        best_for rows d best)
  /\ (forall r, r ∈ rows -> row_document_id r ∈ best_per_doc.*1) ->
  NoDup (best_step best_per_doc row).*1
  /\ (forall d best, dict_get d (best_step best_per_doc row) = Some best ->
        best_for (rows ++ [row]) d best)
  /\ (forall r, r ∈ rows ++ [row] ->
        row_document_id r ∈ (best_step best_per_doc row).*1).
Proof.
  intros (Hdistinct & Hbest & Hkeys).
  assert (Hkeep : forall d best,
            row_document_id row <> d ->
            best_for rows d best -> best_for (rows ++ [row]) d best).
  { intros d best Hne (r & Hr & Hd & Hb & Hmax).
    exists r. split; [apply elem_of_app; by left |].
    split; [done |]. split; [done |].
    intros r' [Hr' | Hr']%elem_of_app Hd'; [by apply Hmax |].
    apply list_elem_of_singleton in Hr' as ->. done. }
  unfold best_step.
  destruct (dict_get (row_document_id row) best_per_doc) as [old |] eqn:Hold.
  - destruct (Hbest _ _ Hold) as (r0 & Hr0 & Hd0 & Hb0 & Hmax0).
    destruct (Qle_bool (similarity row) (best_score old)) eqn:Hcmp; simpl.
    + apply Qle_bool_iff in Hcmp.
      split; [done |]. split.
      * intros d best Hget.
        destruct (decide (row_document_id row = d)) as [<- | Hne];
          [| by apply Hkeep, Hbest].
        assert (best = old) as -> by congruence.
        exists r0. split; [apply elem_of_app; by left |].
        split; [done |]. split; [done |].
        intros r' [Hr' | Hr']%elem_of_app Hd'; [by apply Hmax0 |].
        apply list_elem_of_singleton in Hr' as ->.
        by rewrite Hb0 in Hcmp.
      * intros r [Hr | Hr]%elem_of_app; [by apply Hkeys |].
        apply list_elem_of_singleton in Hr as ->.
        apply dict_get_elem in Hold.
        apply list_elem_of_fmap.
        exists (row_document_id row, old). by split.
    + assert (Hlt : (best_score old < similarity row)%Q).
      { apply Qnot_le_lt. intros Hle. apply Qle_bool_iff in Hle. congruence. }
      split; [by apply dict_set_keys_distinct |]. split.
      * intros d best Hget.
        destruct (decide (row_document_id row = d)) as [<- | Hne].
        -- rewrite dict_get_set_eq in Hget. injection Hget as <-.
           exists row. split; [apply elem_of_app; right; by left |].
           split; [done |]. split; [done |].
           intros r' [Hr' | Hr']%elem_of_app Hd'.
           ++ apply Qlt_le_weak. eapply Qle_lt_trans; [| exact Hlt].
              rewrite Hb0. simpl. by apply Hmax0.
           ++ apply list_elem_of_singleton in Hr' as ->. apply Qle_refl.
        -- rewrite dict_get_set_ne in Hget by done. by apply Hkeep, Hbest.
      * intros r Hr. rewrite dict_set_keys, Hold.
        apply elem_of_app in Hr as [Hr | Hr]; [by apply Hkeys |].
        apply list_elem_of_singleton in Hr as ->.
        apply dict_get_elem in Hold.
        apply list_elem_of_fmap.
        exists (row_document_id row, old). by split.
  - simpl. pose proof (proj1 (dict_get_None _ _) Hold) as Hfresh.
    split; [by apply dict_set_keys_distinct |]. split.
    + intros d best Hget.
      destruct (decide (row_document_id row = d)) as [<- | Hne].
      * rewrite dict_get_set_eq in Hget. injection Hget as <-.
        exists row. split; [apply elem_of_app; right; by left |].
        split; [done |]. split; [done |].
        intros r' [Hr' | Hr']%elem_of_app Hd'.
        -- exfalso. apply Hfresh. rewrite <- Hd'. by apply Hkeys.
        -- apply list_elem_of_singleton in Hr' as ->. apply Qle_refl.
      * rewrite dict_get_set_ne in Hget by done. by apply Hkeep, Hbest.
    + intros r Hr. rewrite dict_set_keys, Hold.
      apply elem_of_app in Hr as [Hr | Hr].
      * apply elem_of_app. left. by apply Hkeys.
      * apply list_elem_of_singleton in Hr as ->.
        apply elem_of_app. right. by left.
Qed.

Lemma best_per_doc_invariant (rows : list Row) :
  NoDup (foldl best_step [] rows).*1
  /\ (forall d best, dict_get d (foldl best_step [] rows) = Some best ->
        best_for rows d best)
  /\ (forall r, r ∈ rows ->
        row_document_id r ∈ (foldl best_step [] rows).*1).
Proof.
  induction rows as [|row rows IH] using rev_ind.
  - split; [constructor |]. split; [done |].
    intros r Hr. by apply elem_of_nil in Hr.
  - rewrite foldl_snoc. by apply best_step_invariant.
Qed.

Variable round : Q -> Z -> Q.
Variable documents : list Document.

Lemma result_of_id (item : string * Best) (r : Hybrid.SearchResult) :
  result_of round documents item = Some r ->
  Hybrid.document_id r = item.1
  /\ Hybrid.score r = round (best_score item.2) 4
  /\ Hybrid.snippet r = best_snippet item.2.
Proof.
  unfold result_of. destruct (List.find _ documents); [| done].
  by intros [= <-].
Qed.

Lemma results_ids_sublist (items : list (string * Best)) :
  Hybrid.document_id <$> omap (result_of round documents) items
  `sublist_of` items.*1.
Proof.
  induction items as [|item items IH]; csimpl; [done |].
  destruct (result_of round documents item) as [r |] eqn:Hr; csimpl.
  - apply result_of_id in Hr as [-> _]. by apply sublist_skip.
  - by apply sublist_cons.
Qed.

(** X20: [semantic_search] returns every document at most once and, for
    [size >= 0], at most [size] results; the score and the snippet of a
    result come from a chunk of its document that no other chunk of the
    document among the rows exceeds in similarity; the total is the
    number of distinct documents among the rows. *)
Theorem semantic_search_best_chunks (rows : list Row) (page size : Z) :
  NoDup (Hybrid.document_id
           <$> (semantic_search round documents (Returned rows) page size).1)
  /\ ((0 <= size)%Z ->
      (Z.of_nat (length (semantic_search round documents (Returned rows)
                           page size).1) <= size)%Z)
  /\ (forall r,
        r ∈ (semantic_search round documents (Returned rows) page size).1 ->
        exists row,
          row ∈ rows
          /\ row_document_id row = Hybrid.document_id r
          /\ Hybrid.score r = round (similarity row) 4
          /\ Hybrid.snippet r = snippet_of (row_chunk_text row)
          /\ forall row', row' ∈ rows ->
               row_document_id row' = Hybrid.document_id r ->
               (similarity row' <= similarity row)%Q)
  /\ (semantic_search round documents (Returned rows) page size).2
     = Z.of_nat (base.size
                   (list_to_set (row_document_id <$> rows) : gset string)).
Proof.
  destruct (best_per_doc_invariant rows) as (Hdistinct & Hbest & Hkeys).
  assert (Hrun : semantic_search round documents (Returned rows) page size
                 = (omap (result_of round documents)
                      (slice (sort_by_score (foldl best_step [] rows))
                             ((page - 1) * size)
                             ((page - 1) * size + size)),
                    Z.of_nat (length (sort_by_score
                                        (foldl best_step [] rows))))).
  { unfold semantic_search. destruct rows; [| done].
    unfold slice. simpl. by rewrite drop_nil, take_nil. }
  rewrite Hrun. simpl fst. simpl snd.
  set (bp := foldl best_step [] rows) in *.
  assert (Hperm : sort_by_score bp ≡ₚ bp) by apply sorted_by_perm.
  set (page_docs := slice (sort_by_score bp) _ _).
  assert (Hpage : page_docs `sublist_of` sort_by_score bp)
    by apply slice_sublist.
  split; [| split; [| split]].
  - eapply sublist_NoDup; [| apply results_ids_sublist].
    eapply sublist_NoDup; [| apply (fmap_sublist fst), Hpage].
    by rewrite Hperm.
  - intros Hsize.
    pose proof (slice_window_length (sort_by_score bp) ((page - 1) * size)
                  size Hsize) as Hwin.
    fold page_docs in Hwin.
    pose proof (omap_length_le (result_of round documents) page_docs)
      as Homap.
    lia.
  - intros r Hr. apply list_elem_of_omap in Hr as ([d best] & Hitem & Hr).
    apply result_of_id in Hr as (Hid & Hscore & Hsnippet). simpl in *.
    assert (Hin : (d, best) ∈ bp).
    { rewrite <- Hperm. eapply elem_of_sublist; [exact Hitem | exact Hpage]. }
    apply (dict_elem_get _ _ _ Hdistinct) in Hin.
    destruct (Hbest _ _ Hin) as (row & Hrow & Hd & -> & Hmax).
    exists row. rewrite Hid. by repeat split.
  - rewrite Hperm. rewrite <- (length_fmap fst bp).
    rewrite <- (size_list_to_set (C := gset string)) by done.
    do 2 f_equal. apply set_eq. intros d.
    rewrite !elem_of_list_to_set. split.
    + intros ([d' best] & -> & Hin)%list_elem_of_fmap. simpl.
      apply (dict_elem_get _ _ _ Hdistinct) in Hin.
      destruct (Hbest _ _ Hin) as (row & Hrow & Hd & _).
      apply list_elem_of_fmap. by exists row.
    + intros (row & -> & Hrow)%list_elem_of_fmap. by apply Hkeys.
Qed.

End SemanticFacts.

(** ** Retrieval for RAG: the merged contexts *)
Section RetrieverFacts.
Import Py RecursiveRag Retriever.

Lemma slice_sorted {A} (R : relation A) (l : list A) (a b : Z) :
  StronglySorted R l -> StronglySorted R (slice l a b).
Proof.
  intros Hl. unfold slice.
  assert (Hwindow : forall n m, StronglySorted R (take n (drop m l))).
  { intros n m. rewrite <- (take_drop m l) in Hl.
    apply StronglySorted_app_1_r in Hl.
    rewrite <- (take_drop n (drop m l)) in Hl.
    by apply StronglySorted_app_1_l in Hl. }
  apply Hwindow.
Qed.

Lemma relevance_le_total (x y : RetrievedContext) :
  Qle_bool (relevance_score y) (relevance_score x) = true
  \/ Qle_bool (relevance_score x) (relevance_score y) = true.
Proof.
  rewrite !Qle_bool_iff.
  destruct (Qlt_le_dec (relevance_score x) (relevance_score y)) as [Hlt | Hle];
    [right; by apply Qlt_le_weak | by left].
Qed.

Lemma relevance_le_trans (x y z : RetrievedContext) :
  Qle_bool (relevance_score y) (relevance_score x) = true ->
  Qle_bool (relevance_score z) (relevance_score y) = true ->
  Qle_bool (relevance_score z) (relevance_score x) = true.
Proof. rewrite !Qle_bool_iff. intros Hxy Hyz. by eapply Qle_trans. Qed.

Lemma sort_by_relevance_sorted (l : list RetrievedContext) :
  StronglySorted (fun a b => (relevance_score b <= relevance_score a)%Q)
                 (sort_by_relevance l).
Proof.
  pose proof (sorted_by_sorted
                (fun a b => Qle_bool (relevance_score b) (relevance_score a))
                relevance_le_total relevance_le_trans l) as Hsorted.
  unfold sort_by_relevance.
  induction Hsorted as [|x r Hr IH Hx]; constructor; [done |].
  eapply Forall_impl; [exact Hx |]. intros y. simpl. by rewrite Qle_bool_iff.
Qed.

Lemma semantic_fold_distinct (rows : list Row) :
  forall (contexts : list RetrievedContext) (seen_docs : gset string),
    NoDup (document_id <$> contexts) ->
    (forall d, d ∈ seen_docs <-> d ∈ (document_id <$> contexts)) ->
    NoDup (document_id
             <$> (foldl semantic_step (contexts, seen_docs) rows).1).
Proof.
  induction rows as [|row rows IH]; intros contexts seen Hdistinct Hseen;
    [done |].
  simpl. destruct (decide (row_document_id row ∈ seen)) as [Hin | Hnotin].
  - by apply IH.
  - apply IH.
    + rewrite fmap_app. apply NoDup_app. split; [done |]. split.
      * intros d Hd Hd'. apply list_elem_of_singleton in Hd' as ->.
        by apply Hseen in Hd.
      * apply NoDup_singleton.
    + intros d. rewrite elem_of_union, elem_of_singleton, fmap_app,
        elem_of_app, Hseen. csimpl. rewrite list_elem_of_singleton. tauto.
Qed.

Lemma retrieve_semantic_distinct (nearest : outcome (list Row)) (top_k : Z) :
  NoDup (document_id <$> retrieve_semantic nearest top_k).
Proof.
  unfold retrieve_semantic. destruct nearest as [rows | msg];
    [| constructor].
  eapply sublist_NoDup;
    [| apply (fmap_sublist document_id), slice_sublist].
  apply semantic_fold_distinct; [constructor |].
  intros d. csimpl. rewrite elem_of_empty. split; [done |].
  intros Hd. by apply elem_of_nil in Hd.
Qed.

Lemma dedup_fold_elem (new_contexts : list RetrievedContext)
    (x : RetrievedContext) :
  forall (all : list RetrievedContext) (seen_ids : gset string),
    x ∈ (foldl dedup_step (all, seen_ids) new_contexts).1 ->
    x ∈ all \/ x ∈ new_contexts.
Proof.
  induction new_contexts as [|ctx new_contexts IH]; intros all seen Hx;
    [by left |].
  simpl in Hx. destruct (decide (document_id ctx ∈ seen)).
  - apply IH in Hx as [? | ?]; [by left | right; by right].
  - apply IH in Hx as [[? | Hx]%elem_of_app | ?];
      [by left | | right; by right].
    apply list_elem_of_singleton in Hx as ->. right. by left.
Qed.

(** X21: [retrieve_context] names every document at most once, lists
    the contexts by relevance from high to low, returns at most [top_k]
    of them for [top_k >= 0], and every context it returns was retrieved
    by the semantic or by the BM25 retrieval. *)
Theorem retrieve_context_merged (nearest : outcome (list Row))
    (results : list Hybrid.SearchResult)
    (clean_content : string -> option string) (top_k : Z)
    (method : string) :
  NoDup (document_id
           <$> retrieve_context nearest results clean_content top_k method)
  /\ StronglySorted
       (fun a b => (relevance_score b <= relevance_score a)%Q)
       (retrieve_context nearest results clean_content top_k method)
  /\ ((0 <= top_k)%Z ->
      (Z.of_nat (length (retrieve_context nearest results clean_content
                           top_k method)) <= top_k)%Z)
  /\ (forall c,
        c ∈ retrieve_context nearest results clean_content top_k method ->
        c ∈ retrieve_semantic nearest top_k
        \/ c ∈ retrieve_bm25 results clean_content).
Proof.
  unfold retrieve_context.
  set (first := if decide (method ∈ ["semantic"; "hybrid"]%string)
                then retrieve_semantic nearest top_k else []).
  assert (Hfirst : NoDup (document_id <$> first)).
  { unfold first.
    destruct (decide (method ∈ ["semantic"; "hybrid"]%string));
      [| constructor].
    apply retrieve_semantic_distinct. }
  assert (Hfirst_in : forall c, c ∈ first ->
                        c ∈ retrieve_semantic nearest top_k).
  { unfold first. intros c.
    destruct (decide (method ∈ ["semantic"; "hybrid"]%string)); [done |].
    intros Hc. by apply elem_of_nil in Hc. }
  set (merged := if decide (method ∈ ["bm25"; "hybrid"]%string)
                 then (foldl dedup_step
                         (first, list_to_set (map document_id first))
                         (retrieve_bm25 results clean_content)).1
                 else first).
  assert (Hmerged : NoDup (document_id <$> merged)).
  { unfold merged.
    destruct (decide (method ∈ ["bm25"; "hybrid"]%string)); [| done].
    apply dedup_fold_distinct; [done |].
    intros d. by rewrite elem_of_list_to_set. }
  assert (Hmerged_in : forall c, c ∈ merged ->
                         c ∈ retrieve_semantic nearest top_k
                         \/ c ∈ retrieve_bm25 results clean_content).
  { unfold merged. intros c.
    destruct (decide (method ∈ ["bm25"; "hybrid"]%string)).
    - intros [? | ?]%dedup_fold_elem; [left; by apply Hfirst_in | by right].
    - intros ?. left. by apply Hfirst_in. }
  split; [| split; [| split]].
  - eapply sublist_NoDup;
      [| apply (fmap_sublist document_id), slice_sublist].
    unfold sort_by_relevance. by rewrite sorted_by_perm.
  - apply slice_sorted, sort_by_relevance_sorted.
  - intros Hk. pose proof (slice_to_length_le (sort_by_relevance merged)
                             top_k Hk). lia.
  - intros c Hc. apply Hmerged_in.
    eapply elem_of_sublist in Hc; [| apply slice_sublist].
    unfold sort_by_relevance in Hc. by rewrite sorted_by_perm in Hc.
Qed.

End RetrieverFacts.

(** ** The follow-up queries read from the reply of the language model *)
Section FollowUpFacts.
Import Py Generator.
Local Open Scope string_scope.

Lemma lstrip_chars (p : ascii -> bool) (s : string) :
  all_chars p s = true -> all_chars p (lstrip s) = true.
Proof.
  induction s as [|c s IH]; simpl; [done |].
  rewrite andb_true_iff. intros [Hc Hs].
  destruct (is_space c); [by apply IH |]. simpl. by rewrite Hc, Hs.
Qed.

Lemma rstrip_chars (p : ascii -> bool) (s : string) :
  all_chars p s = true -> all_chars p (rstrip s) = true.
Proof.
  induction s as [|c s IH]; simpl; [done |].
  rewrite andb_true_iff. intros [Hc Hs].
  destruct (is_empty (rstrip s) && is_space c); [done |].
  simpl. by rewrite Hc, IH.
Qed.

Lemma rstrip_idemp (s : string) : rstrip (rstrip s) = rstrip s.
Proof.
  induction s as [|c s IH]; simpl; [done |].
  destruct (is_empty (rstrip s) && is_space c) eqn:Hcond; [done |].
  simpl. by rewrite IH, Hcond.
Qed.

(** The string does not start with whitespace. *)
Local Abbreviation starts_clean s :=
  (match s with
   | EmptyString => True
   | String c _ => is_space c = false
   end).

Lemma lstrip_starts_clean (s : string) : starts_clean (lstrip s).
Proof.
  induction s as [|c s IH]; simpl; [done |].
  by destruct (is_space c) eqn:Hc.
Qed.

Lemma starts_clean_lstrip (s : string) : starts_clean s -> lstrip s = s.
Proof. destruct s as [|c s]; simpl; [done |]. by intros ->. Qed.

Lemma rstrip_starts_clean (s : string) :
  starts_clean s -> starts_clean (rstrip s).
Proof.
  destruct s as [|c s]; simpl; [done |]. intros Hc.
  by rewrite Hc, andb_false_r.
Qed.

Lemma strip_idemp (s : string) : strip (strip s) = strip s.
Proof.
  unfold strip.
  rewrite (starts_clean_lstrip (rstrip (lstrip s)))
    by apply rstrip_starts_clean, lstrip_starts_clean.
  apply rstrip_idemp.
Qed.

Lemma split_on_chars (sep : ascii) (s : string) :
  forall cur piece,
    all_chars (fun c => negb (Ascii.eqb c sep)) cur = true ->
    piece ∈ split_on sep cur s ->
    all_chars (fun c => negb (Ascii.eqb c sep)) piece = true.
Proof.
  induction s as [|c s IH]; intros cur piece Hcur; simpl.
  - by intros ->%list_elem_of_singleton.
  - destruct (Ascii.eqb c sep) eqn:Hc.
    + intros [-> | Hin]%elem_of_cons; [done |]. by apply (IH "").
    + apply IH. rewrite all_chars_app, Hcur. simpl. by rewrite Hc.
Qed.

(** X22: [generate_follow_up_queries] returns at most three queries;
    each of them is a non-empty line of the reply, without a line break
    and without whitespace at either end; when the call of the language
    model raises, there is none. *)
Theorem generate_follow_up_queries_parsed (response : outcome string) :
  length (generate_follow_up_queries response) <= 3
  /\ (forall q,
        q ∈ generate_follow_up_queries response ->
        q <> ""
        /\ strip q = q
        /\ all_chars (fun c => negb (Ascii.eqb c newline)) q = true)
  /\ (forall msg, response = Raised msg ->
        generate_follow_up_queries response = []).
Proof.
  split; [| split].
  - destruct response as [raw | msg]; simpl; [| lia].
    by apply (slice_to_length_le _ 3).
  - intros q. destruct response as [raw | msg]; simpl;
      [| intros Hq; by apply elem_of_nil in Hq].
    intros Hq. eapply elem_of_sublist in Hq; [| apply slice_sublist].
    unfold parse_queries in Hq.
    apply list_elem_of_omap in Hq as (line & Hline & Hq).
    destruct (is_empty (strip line)) eqn:Hempty; [done |].
    injection Hq as <-.
    split; [by destruct (strip line) |]. split; [apply strip_idemp |].
    unfold strip. apply rstrip_chars, lstrip_chars.
    by apply (split_on_chars newline (rstrip (lstrip raw)) "").
  - by intros msg ->.
Qed.

End FollowUpFacts.

(** ** The cleaned query is a fixed point of the cleaning *)
Section CleanedQueryFacts.
Import Py TextProcessor QueryProcessor.
Local Open Scope string_scope.

Lemma collapse_idemp (s : string) :
  forall in_ws, collapse_ws in_ws (collapse_ws in_ws s) = collapse_ws in_ws s.
Proof.
  induction s as [|c s IH]; intros in_ws; simpl; [done |].
  destruct (is_space c) eqn:Hc.
  - destruct in_ws; [apply IH |].
    simpl. by rewrite IH.
  - simpl. by rewrite Hc, IH.
Qed.

Lemma collapse_empty_rstrip (s : string) :
  forall in_ws, collapse_ws in_ws s = "" -> rstrip s = "".
Proof.
  induction s as [|c s IH]; intros in_ws; simpl; [done |].
  destruct (is_space c) eqn:Hc; [| done].
  destruct in_ws; [| done].
  intros Hrest. by rewrite (IH true Hrest).
Qed.

Lemma collapse_rstrip (s : string) :
  forall in_ws,
    rstrip s = s -> rstrip (collapse_ws in_ws s) = collapse_ws in_ws s.
Proof.
  induction s as [|c s IH]; intros in_ws; simpl; [done |].
  destruct (is_empty (rstrip s) && is_space c) eqn:Hcond; [done |].
  intros [= Hs].
  destruct (is_space c) eqn:Hc.
  - rewrite andb_true_r in Hcond.
    destruct in_ws; [by apply IH |].
    simpl. rewrite (IH true Hs).
    destruct (collapse_ws true s) eqn:Hcollapsed; [| done].
    apply collapse_empty_rstrip in Hcollapsed.
    by rewrite Hcollapsed in Hcond.
  - simpl. by rewrite (IH false Hs), Hc, andb_false_r.
Qed.

Lemma collapse_lstrip (s : string) :
  lstrip s = s -> lstrip (collapse_ws false s) = collapse_ws false s.
Proof.
  destruct s as [|c s]; simpl; [done |].
  destruct (is_space c) eqn:Hc; [| by simpl; rewrite Hc].
  intros Hs. exfalso.
  pose proof (lstrip_starts_clean s) as Hclean. rewrite Hs in Hclean.
  simpl in Hclean. congruence.
Qed.

Lemma cleaned_stripped (query : string) :
  strip (collapse_ws false (strip query)) = collapse_ws false (strip query).
Proof.
  unfold strip at 1.
  rewrite collapse_lstrip.
  - apply collapse_rstrip. unfold strip. apply rstrip_idemp.
  - unfold strip. apply starts_clean_lstrip, rstrip_starts_clean,
      lstrip_starts_clean.
Qed.

Variable stops : gset string.
Variable stemmer_stem : string -> string.
Variable md5 : string -> N.

(** X24: the cleaned query is a fixed point of [process_query]: it has
    no whitespace at either end, and processing it again gives the same
    cleaned text, tokens, raw tokens and cache key. *)
Theorem process_query_cleaned_fixed (query : string) :
  strip (cleaned (process_query stops stemmer_stem md5 query))
  = cleaned (process_query stops stemmer_stem md5 query)
  /\ process_query stops stemmer_stem md5
       (cleaned (process_query stops stemmer_stem md5 query))
     = mkProcessedQuery
         (cleaned (process_query stops stemmer_stem md5 query))
         (cleaned (process_query stops stemmer_stem md5 query))
         (tokens (process_query stops stemmer_stem md5 query))
         (raw_tokens (process_query stops stemmer_stem md5 query))
         (cache_key (process_query stops stemmer_stem md5 query)).
Proof.
  split; [apply cleaned_stripped |].
  unfold process_query. simpl.
  by rewrite cleaned_stripped, collapse_idemp.
Qed.

End CleanedQueryFacts.

(** ** The search endpoint: cached responses *)
Section SearchCacheFacts.
Import Py QueryProcessor SearchApi.
Local Open Scope string_scope.

Variable stops : gset string.
Variable stemmer_stem : string -> string.
Variable md5 : string -> N.
Variable format_int : Z -> string.
Variable run_search :
  string -> string -> Z -> Z -> list Hybrid.SearchResult * Z.
Variable re_template : string -> outcome (string -> string).

Lemma cache_key_of_same_tokens (req1 req2 : Request) :
  type req1 = type req2 -> page req1 = page req2 -> size req1 = size req2 ->
  (forall t,
     t ∈ tokens (process_query stops stemmer_stem md5 (q req1))
     <-> t ∈ tokens (process_query stops stemmer_stem md5 (q req2))) ->
  cache_key_of stops stemmer_stem md5 format_int req1
  = cache_key_of stops stemmer_stem md5 format_int req2.
Proof.
  intros Htype Hpage Hsize Htokens. unfold cache_key_of.
  rewrite Htype, Hpage, Hsize, !process_query_cache_key.
  by rewrite (token_str_same_set _ _ Htokens).
Qed.

Lemma alnum_no_backslash (s : string) :
  all_chars is_alnum s = true -> BM25.has_backslash s = false.
Proof.
  intros Hs. unfold BM25.has_backslash. apply negb_false_iff.
  revert Hs. apply all_chars_impl. intros c Hc.
  apply negb_true_iff. destruct (Ascii.eqb_spec c "092"%char) as [-> |];
    [| done].
  by vm_compute in Hc.
Qed.

(** The raw tokens of a query hold no backslash: their replacement
    templates stand for themselves. *)
Lemma raw_tokens_no_backslash (query : string) :
  Forall (fun term => BM25.has_backslash term = false)
         (raw_tokens (process_query stops stemmer_stem md5 query)).
Proof.
  apply Forall_forall. intros t Ht. simpl in Ht.
  apply list_elem_of_filter in Ht as [_ Ht].
  apply (proj1 (Forall_forall _ _)
           (tokenize_alnum (collapse_ws false (strip query)))) in Ht
    as [_ Ht].
  by apply alnum_no_backslash.
Qed.

Lemma format_results_returns (req : Request) (raw : list string)
    (results : list Hybrid.SearchResult) :
  Forall (fun term => BM25.has_backslash term = false) raw ->
  exists entries, format_results re_template req raw results = Returned entries.
Proof.
  intros Hraw. induction results as [|r results [entries IH]]; simpl;
    [by eexists |].
  assert (Hentry : exists entry,
            format_result re_template req raw r = Returned entry).
  { unfold format_result. destruct (highlight req); [| by eexists].
    destruct (highlight_terms_returns re_template (Hybrid.snippet r) raw Hraw)
      as [snippet ->].
    destruct (highlight_terms_returns re_template (Hybrid.title r) raw Hraw)
      as [title ->].
    by eexists. }
  destruct Hentry as [entry ->]. rewrite IH. by eexists.
Qed.

(** X25: a request that misses the cache and finds results is answered
    and its response stored; the stored response is then returned,
    marked as cached and otherwise unchanged, to any later request with
    the same type, page, size and set of stemmed tokens: whatever the
    text of the later query and whatever its highlight flag; the cache
    is left as it is. *)
Theorem search_cache_shared (cache : gmap string Response)
    (req1 req2 : Request) (id1 id2 : string) (latency1 latency2 : Q) :
  type req1 = type req2 -> page req1 = page req2 -> size req1 = size req2 ->
  (forall t,
     t ∈ tokens (process_query stops stemmer_stem md5 (q req1))
     <-> t ∈ tokens (process_query stops stemmer_stem md5 (q req2))) ->
  cache !! ("cache:" ++ cache_key_of stops stemmer_stem md5 format_int req1)
  = None ->
  (0 < (run_search (type req1) (q req1) (page req1) (size req1)).2)%Z ->
  exists response,
    (search stops stemmer_stem md5 format_int run_search re_template cache
       req1 id1 latency1).1
    = Returned response
    /\ search stops stemmer_stem md5 format_int run_search re_template
         (search stops stemmer_stem md5 format_int run_search re_template
            cache req1 id1 latency1).2
         req2 id2 latency2
       = (Returned (mark_cached response),
          (search stops stemmer_stem md5 format_int run_search re_template
             cache req1 id1 latency1).2).
Proof.
  intros Htype Hpage Hsize Htokens Hmiss Htotal.
  pose proof (cache_key_of_same_tokens req1 req2 Htype Hpage Hsize Htokens)
    as Hkey.
  unfold search at 1 3 4. rewrite Hmiss.
  destruct (run_search (type req1) (q req1) (page req1) (size req1))
    as [results total]. simpl in Htotal.
  destruct (format_results_returns req1
              (raw_tokens (process_query stops stemmer_stem md5 (q req1)))
              results (raw_tokens_no_backslash (q req1)))
    as [entries ->].
  destruct (Z.ltb_spec 0 total); [| lia]. simpl.
  eexists. split; [done |].
  unfold search. by rewrite <- Hkey, lookup_insert_eq.
Qed.

End SearchCacheFacts.

Section SearchCacheExamples.
Import Py QueryProcessor SearchApi Scenarios.
Local Open Scope string_scope.

Lemma search_cache_shared_witness :
  exists response,
    (search ∅ (fun t => t) length_digest (fun _ => "1") one_hit_search
       (fun _ => Raised "re.error") ∅
       (mkRequest "cat sat" "bm25" 1 10 false) "log1" 1).1
    = Returned response
    /\ (search ∅ (fun t => t) length_digest (fun _ => "1") one_hit_search
          (fun _ => Raised "re.error")
          (search ∅ (fun t => t) length_digest (fun _ => "1") one_hit_search
             (fun _ => Raised "re.error") ∅
             (mkRequest "cat sat" "bm25" 1 10 false) "log1" 1).2
          (mkRequest "sat cat" "bm25" 1 10 true) "log2" 2).1
       = Returned (mark_cached response).
Proof.
  destruct (search_cache_shared ∅ (fun t => t) length_digest (fun _ => "1")
              one_hit_search (fun _ => Raised "re.error") ∅
              (mkRequest "cat sat" "bm25" 1 10 false)
              (mkRequest "sat cat" "bm25" 1 10 true) "log1" "log2" 1 2)
    as (response & Hfirst & Hsecond).
  - reflexivity.
  - reflexivity.
  - reflexivity.
  - intros t. cbn [q].
    assert (tokens (process_query ∅ (fun t => t) length_digest "cat sat")
            = ["cat"; "sat"]) as -> by (by vm_compute).
    assert (tokens (process_query ∅ (fun t => t) length_digest "sat cat")
            = ["sat"; "cat"]) as -> by (by vm_compute).
    rewrite !elem_of_cons, !elem_of_nil. tauto.
  - apply lookup_empty.
  - simpl. lia.
  - exists response. split; [exact Hfirst |]. by rewrite Hsecond.
Defined.

End SearchCacheExamples.
